(** * WordleChampion: feedback codec, entropy engine, comparators and
      strategy engine, embedded from the C++ sources

    The development follows the source files:
    - [entropy_calculator.cpp]: [get_feedback_pattern],
      [compute_feedback_index], [calculate_entropy_internal],
      [calculate_entropy_on_dictionary],
      [calculate_entropy_for_candidates];
    - [comparators.cpp]: the tie-breaking helpers and the four
      comparators;
    - [solver_logic.cpp]: [update_min_required_counts], the filters and
      letter scores, the heatmap, [lookahead_feedback_index],
      [calculate_lookahead_bonus], [get_smart_hybrid_guess],
      [get_best_guess_candidates] and
      [filter_dictionary_by_constraints];
    - [load_dictionary.cpp]: [contains_duplicate_letter] and [trim];
    - [monte_carlo.cpp] and [main.cpp]: the body of the two game
      loops, from the feedback of a guess to the state the next turn
      starts from (minimums, filter, entropy pass, hard mode's sort and
      shrinking of the dictionary).

    Conventions.  A C [int] is a [Z] (every counter here is bounded by the
    dictionary size, far from the 32-bit limit).  A [char] is an [ascii];
    a word or a pattern ([char[6]], NUL-terminated) is the [list ascii] of
    its characters before the terminator.  A local [int] array is a
    [list Z] read and written by index.  A [double] is a binary64
    primitive float, with IEEE-754 comparison, addition, subtraction,
    multiplication and division; the two libm functions the sources call
    ([log] and [log10]) are parameters of the sections that use them.  A
    sorted view ([dictionary_entry_t**]) is the list of the entries it
    points to; the views are only ever read. *)

From Stdlib Require Import Floats.
From Stdlib Require Import ZArith List Ascii String Lia Bool.
From Stdlib Require Import Sorting.Permutation.
From stdpp Require Import base list.

Set Warnings "-inexact-float".
Set Default Proof Using "Type".

Local Open Scope Z_scope.

(* ===================================================================== *)
(** * Part I: the embedding of the sources *)
(* ===================================================================== *)

(** ** C arrays of [int] and character buffers *)

Module CArray.

(** [a[i]] for an [int] array.  The sources index the 26-slot letter
    tables with [c - 'A'] and the histograms with a pattern index; the
    model reads 0 outside the array, where C leaves the read undefined. *)
Definition get (a : list Z) (i : Z) : Z :=
  if decide (0 <= i) then default 0 (a !! Z.to_nat i) else 0.

(** [a[i] = v]; nothing is written outside the array. *)
Definition set (a : list Z) (i : Z) (v : Z) : list Z :=
  if decide (0 <= i) then <[Z.to_nat i := v]> a else a.

(** [a[i]++] and [a[i]--]. *)
Definition incr (a : list Z) (i : Z) : list Z := set a i (get a i + 1).
Definition decr (a : list Z) (i : Z) : list Z := set a i (get a i - 1).

(** [int a[n] = { 0 }]. *)
Definition zeros (n : nat) : list Z := replicate n 0.

End CArray.

(** ** entropy_calculator.cpp: the feedback codec

    The two encoders index [answer_char_counts] with [c - 'A'] and do
    not test the range.  On words of upper-case letters every index lies
    in the table and the definitions below are the C; on other
    characters the C reads and writes outside the table, where the
    definitions read 0 and write nothing.  What is stated about the
    marks and the indices they produce is therefore stated on words of
    five upper-case letters. *)

Definition WORDLE_WORD_LENGTH : nat := 5.
Definition MAX_PATTERNS : nat := 243.

(** [w[i]]: the character at position [i], NUL at and past the end. *)
Definition char_at (w : list ascii) (i : nat) : ascii := nth i w Ascii.zero.

Definition char_code (c : ascii) : Z := Z.of_nat (nat_of_ascii c).

(** [c - 'A'], the slot of a letter in a 26-entry table. *)
Definition letter_index (c : ascii) : Z := char_code c - char_code "A"%char.

(** The positions [0 .. WORDLE_WORD_LENGTH - 1] every loop over a word
    visits, in order. *)
Definition positions : list nat := seq 0 WORDLE_WORD_LENGTH.

Module FeedbackCodec.

(** State of [get_feedback_pattern]: the pattern buffer and
    [answer_char_counts]. *)
Definition pattern_state : Type := list ascii * list Z.

(** Body of the first loop (Greens). *)
Definition greens_step (guess answer : list ascii)
    (st : pattern_state) (i : nat) : pattern_state :=
  let '(pat, cnt) := st in
  if Ascii.eqb (char_at guess i) (char_at answer i)
  then (<[i := "G"%char]> pat, cnt)
  else (pat, CArray.incr cnt (letter_index (char_at answer i))).

(** Body of the second loop (Yellows). *)
Definition yellows_step (guess : list ascii)
    (st : pattern_state) (i : nat) : pattern_state :=
  let '(pat, cnt) := st in
  if negb (Ascii.eqb (char_at pat i) "G"%char) then
    let letter_idx := letter_index (char_at guess i) in
    if 0 <? CArray.get cnt letter_idx
    then (<[i := "Y"%char]> pat, CArray.decr cnt letter_idx)
    else st
  else st.

Definition get_feedback_pattern (guess answer : list ascii) : list ascii :=
  let init : pattern_state :=
    (replicate WORDLE_WORD_LENGTH "B"%char, CArray.zeros 26) in
  let after_greens := fold_left (greens_step guess answer) positions init in
  let after_yellows := fold_left (yellows_step guess) positions after_greens in
  fst after_yellows.

(** State of [compute_feedback_index]: [states] and
    [answer_char_counts]. *)
Definition index_state : Type := list Z * list Z.

Definition index_greens_step (guess answer : list ascii)
    (st : index_state) (i : nat) : index_state :=
  let '(states, cnt) := st in
  if Ascii.eqb (char_at guess i) (char_at answer i)
  then (CArray.set states (Z.of_nat i) 2, cnt)
  else (states, CArray.incr cnt (letter_index (char_at answer i))).

Definition index_yellows_step (guess : list ascii)
    (st : index_state) (i : nat) : index_state :=
  let '(states, cnt) := st in
  if negb (CArray.get states (Z.of_nat i) =? 2) then
    let letter_idx := letter_index (char_at guess i) in
    if 0 <? CArray.get cnt letter_idx
    then (CArray.set states (Z.of_nat i) 1, CArray.decr cnt letter_idx)
    else st
  else st.

(** Body of the third loop: [index += states[i] * multiplier;
    multiplier *= 3]. *)
Definition encode_step (states : list Z) (acc : Z * Z) (i : nat) : Z * Z :=
  let '(index, multiplier) := acc in
  (index + CArray.get states (Z.of_nat i) * multiplier, multiplier * 3).

Definition compute_feedback_index (guess answer : list ascii) : Z :=
  let init : index_state := (CArray.zeros 5, CArray.zeros 26) in
  let after_greens :=
    fold_left (index_greens_step guess answer) (seq 0 5) init in
  let after_yellows :=
    fold_left (index_yellows_step guess) (seq 0 5) after_greens in
  fst (fold_left (encode_step (fst after_yellows)) (seq 0 5) (0, 1)).

End FeedbackCodec.

(** Second copy of the encoder, from solver_logic.cpp
    ([lookahead_feedback_index]): the same three loops, written on one
    line each there. *)
Module Lookahead.

Definition greens_step (guess answer : list ascii)
    (st : list Z * list Z) (i : nat) : list Z * list Z :=
  let '(states, answer_char_counts) := st in
  if Ascii.eqb (char_at guess i) (char_at answer i)
  then (CArray.set states (Z.of_nat i) 2, answer_char_counts)
  else (states,
        CArray.incr answer_char_counts (letter_index (char_at answer i))).

Definition yellows_step (guess : list ascii)
    (st : list Z * list Z) (i : nat) : list Z * list Z :=
  let '(states, answer_char_counts) := st in
  if negb (CArray.get states (Z.of_nat i) =? 2) then
    let char_idx := letter_index (char_at guess i) in
    if 0 <? CArray.get answer_char_counts char_idx
    then (CArray.set states (Z.of_nat i) 1,
          CArray.decr answer_char_counts char_idx)
    else st
  else st.

Definition lookahead_feedback_index (guess answer : list ascii) : Z :=
  let after_greens :=
    fold_left (greens_step guess answer) (seq 0 5)
              (CArray.zeros 5, CArray.zeros 26) in
  let after_yellows :=
    fold_left (yellows_step guess) (seq 0 5) after_greens in
  fst (fold_left
         (fun (acc : Z * Z) i =>
            let '(index, multiplier) := acc in
            (index + CArray.get (fst after_yellows) (Z.of_nat i) * multiplier,
             multiplier * 3))
         (seq 0 5) (0, 1)).

End Lookahead.

(** ** wordle_types.h: the dictionary entry *)

Record dictionary_entry : Type := mk_entry {
  word : list ascii;                    (* char word[WORDLE_WORD_LENGTH + 1] *)
  entropy : float;                      (* double entropy *)
  frequency_rank : Z;                   (* int frequency_rank *)
  noun_type : ascii;                    (* 'P', 'S', 'N', 'R' *)
  verb_type : ascii;                    (* 'T', 'S', 'P', 'N' *)
  contains_duplicate_letters : bool;
  is_eliminated : bool
}.

Definition set_entropy (e : dictionary_entry) (h : float) : dictionary_entry :=
  {| word := word e; entropy := h; frequency_rank := frequency_rank e;
     noun_type := noun_type e; verb_type := verb_type e;
     contains_duplicate_letters := contains_duplicate_letters e;
     is_eliminated := is_eliminated e |}.

Definition set_eliminated (e : dictionary_entry) (b : bool) : dictionary_entry :=
  {| word := word e; entropy := entropy e; frequency_rank := frequency_rank e;
     noun_type := noun_type e; verb_type := verb_type e;
     contains_duplicate_letters := contains_duplicate_letters e;
     is_eliminated := b |}.

(** A loop [for (i = 0; i < count; ++i)] that rewrites [p[i]] in place:
    the first [count] entries are replaced, the rest of the array is not
    touched. *)
Definition update_prefix {A : Type} (count : Z) (f : A -> A) (p : list A)
  : list A :=
  List.map f (firstn (Z.to_nat count) p) ++ skipn (Z.to_nat count) p.

(** [(double) n] for an [int] that holds a count. *)
Definition double_of_int (n : Z) : float :=
  if n <? 0 then PrimFloat.opp (PrimFloat.of_uint63 (Uint63.of_Z (- n)))
  else PrimFloat.of_uint63 (Uint63.of_Z n).

(** The indices [0 .. n-1] of an [int] loop. *)
Definition indices (n : nat) : list Z := List.map Z.of_nat (seq 0 n).

(** ** libc string comparison

    [strcmp] and [strncmp] compare as unsigned characters up to the first
    difference or the terminator (the end of the list, or a NUL character
    in it); the C standard fixes the sign of the result, and the model
    returns the difference of the two characters. *)

Fixpoint strncmp (s1 s2 : list ascii) (n : nat) {struct n} : Z :=
  match n with
  | O => 0
  | S n' =>
      match s1, s2 with
      | [], [] => 0
      | [], c2 :: _ => 0 - char_code c2
      | c1 :: _, [] => char_code c1 - 0
      | c1 :: r1, c2 :: r2 =>
          if Ascii.eqb c1 c2
          then if Ascii.eqb c1 Ascii.zero then 0 else strncmp r1 r2 n'
          else char_code c1 - char_code c2
      end
  end.

Fixpoint strcmp (s1 s2 : list ascii) : Z :=
  match s1, s2 with
  | [], [] => 0
  | [], c2 :: _ => 0 - char_code c2
  | c1 :: _, [] => char_code c1 - 0
  | c1 :: r1, c2 :: r2 =>
      if Ascii.eqb c1 c2
      then if Ascii.eqb c1 Ascii.zero then 0 else strcmp r1 r2
      else char_code c1 - char_code c2
  end.

(** ** comparators.cpp *)

Module Comparators.

(** The loop shared by [noun_type_diff] and [verb_type_diff]: both
    positions start at 4 and are set to the index of the matching tag. *)
Definition order_positions (order : list ascii) (t1 t2 : ascii) : Z * Z :=
  fold_left
    (fun (pos : Z * Z) i =>
       let '(posA, posB) := pos in
       (if Ascii.eqb t1 (char_at order i) then Z.of_nat i else posA,
        if Ascii.eqb t2 (char_at order i) then Z.of_nat i else posB))
    (seq 0 4) (4, 4).

Definition noun_type_diff (entry1 entry2 : dictionary_entry) : Z :=
  let '(posA, posB) :=
    order_positions (list_ascii_of_string "RSNP")
                    (noun_type entry1) (noun_type entry2) in
  posA - posB.

Definition verb_type_diff (entry1 entry2 : dictionary_entry) : Z :=
  let '(posA, posB) :=
    order_positions (list_ascii_of_string "NPST")
                    (verb_type entry1) (verb_type entry2) in
  posA - posB.

(** [a > b] on doubles is [b < a]. *)
Definition entropy_diff (entry1 entry2 : dictionary_entry) : Z :=
  if PrimFloat.ltb (entropy entry1) (entropy entry2) then 1
  else if PrimFloat.ltb (entropy entry2) (entropy entry1) then -1
  else 0.

Definition dup_diff (entry1 entry2 : dictionary_entry) : Z :=
  if negb (contains_duplicate_letters entry1)
     && contains_duplicate_letters entry2 then -1
  else if negb (contains_duplicate_letters entry2)
          && contains_duplicate_letters entry1 then 1
  else 0.

Definition rank_diff (entry1 entry2 : dictionary_entry) : Z :=
  if frequency_rank entry1 <? frequency_rank entry2 then 1
  else if frequency_rank entry2 <? frequency_rank entry1 then -1
  else 0.

Definition eliminated_diff (entry1 entry2 : dictionary_entry) : Z :=
  if is_eliminated entry1 && negb (is_eliminated entry2) then 1
  else if negb (is_eliminated entry1) && is_eliminated entry2 then -1
  else 0.

Definition compare_with_entropy_tie_breaker
    (entry1 entry2 : dictionary_entry) : Z :=
  let result := dup_diff entry1 entry2 in
  if negb (result =? 0) then result else
  let result := noun_type_diff entry1 entry2 in
  if negb (result =? 0) then result else
  let result := verb_type_diff entry1 entry2 in
  if negb (result =? 0) then result else
  let result := rank_diff entry1 entry2 in
  if negb (result =? 0) then result else
  strncmp (word entry1) (word entry2) WORDLE_WORD_LENGTH.

Definition compare_with_rank_tie_breaker
    (entry1 entry2 : dictionary_entry) : Z :=
  let result := dup_diff entry1 entry2 in
  if negb (result =? 0) then result else
  let result := noun_type_diff entry1 entry2 in
  if negb (result =? 0) then result else
  let result := verb_type_diff entry1 entry2 in
  if negb (result =? 0) then result else
  let result := entropy_diff entry1 entry2 in
  if negb (result =? 0) then result else
  strncmp (word entry1) (word entry2) WORDLE_WORD_LENGTH.

Definition compare_dictionary_entries_by_entropy_desc
    (entry1 entry2 : dictionary_entry) : Z :=
  let result := eliminated_diff entry1 entry2 in
  if negb (result =? 0) then result else
  let result := entropy_diff entry1 entry2 in
  if negb (result =? 0) then result else
  compare_with_entropy_tie_breaker entry1 entry2.

Definition compare_dictionary_entries_by_rank_desc
    (entry1 entry2 : dictionary_entry) : Z :=
  let result := eliminated_diff entry1 entry2 in
  if negb (result =? 0) then result else
  let result := rank_diff entry1 entry2 in
  if negb (result =? 0) then result else
  compare_with_rank_tie_breaker entry1 entry2.

(** Compares the structures of the master array themselves (hard mode):
    valid entries first, then alphabetical. *)
Definition compare_master_entries_eliminated_then_alpha
    (entry1 entry2 : dictionary_entry) : Z :=
  if is_eliminated entry1 && negb (is_eliminated entry2) then 1
  else if negb (is_eliminated entry1) && is_eliminated entry2 then -1
  else strncmp (word entry1) (word entry2) WORDLE_WORD_LENGTH.

(** Normal mode: entropy first, the elimination flag only second. *)
Definition compare_dictionary_entries_by_entropy_no_filter_desc
    (entry1 entry2 : dictionary_entry) : Z :=
  let result := entropy_diff entry1 entry2 in
  if negb (result =? 0) then result else
  let result := eliminated_diff entry1 entry2 in
  if negb (result =? 0) then result else
  compare_with_entropy_tie_breaker entry1 entry2.

End Comparators.

(** ** entropy_calculator.cpp: the entropy engine *)

Section EntropyEngine.

(** libm's natural logarithm. *)
Variable log : float -> float.

Definition LOG2_E : float := 1.44269504089%float.

(** First loop of [calculate_entropy_internal]: the histogram of the
    pattern indices of [guess] against the answers. *)
Definition tally_patterns (guess : list ascii)
    (answers : list dictionary_entry) : list Z :=
  fold_left
    (fun counts (answer : dictionary_entry) =>
       CArray.incr counts
         (FeedbackCodec.compute_feedback_index guess (word answer)))
    answers (CArray.zeros MAX_PATTERNS).

Definition calculate_entropy_internal (guess : list ascii)
    (ppValidAnswers : list dictionary_entry) (numValidAnswers : Z) : float :=
  if numValidAnswers <=? 1 then 0%float else
  let counts :=
    tally_patterns guess (firstn (Z.to_nat numValidAnswers) ppValidAnswers) in
  let inv_num := (1 / double_of_int numValidAnswers)%float in
  let entropy :=
    fold_left
      (fun (entropy : float) i =>
         if 0 <? CArray.get counts i then
           let p := (double_of_int (CArray.get counts i) * inv_num)%float in
           (entropy - p * log p)%float
         else entropy)
      (indices MAX_PATTERNS) 0%float in
  (entropy * LOG2_E)%float.

(** [calculate_entropy_on_dictionary].  [malloc_ok] says whether the
    allocation of the pointer list succeeded; the parallel loop writes
    only the [entropy] field of its own entry and reads only words and
    flags, so it is a map over the first [dictionaryCount] entries. *)
Definition calculate_entropy_on_dictionary (malloc_ok : bool)
    (pDictionary : list dictionary_entry) (dictionaryCount : Z)
  : list dictionary_entry :=
  let validCount :=
    fold_left
      (fun validCount (e : dictionary_entry) =>
         if negb (is_eliminated e) then validCount + 1 else validCount)
      (firstn (Z.to_nat dictionaryCount) pDictionary) 0 in
  if validCount =? 0 then pDictionary else
  if negb malloc_ok then pDictionary else
  let ppValid :=
    List.filter (fun e => negb (is_eliminated e))
                (firstn (Z.to_nat dictionaryCount) pDictionary) in
  update_prefix dictionaryCount
    (fun e =>
       if is_eliminated e then set_entropy e 0%float
       else set_entropy e
              (calculate_entropy_internal (word e) ppValid validCount))
    pDictionary.

(** [calculate_entropy_for_candidates]: every candidate, eliminated or
    not, is scored against the valid answers.  The answers point into the
    candidate array, but the loop writes [entropy] fields and reads only
    words, so the answers are the entries as they stood on entry. *)
Definition calculate_entropy_for_candidates
    (pCandidates : list dictionary_entry) (candidateCount : Z)
    (ppValidAnswers : list dictionary_entry) (validAnswerCount : Z)
  : list dictionary_entry :=
  update_prefix candidateCount
    (fun e =>
       set_entropy e
         (calculate_entropy_internal (word e) ppValidAnswers
                                     validAnswerCount))
    pCandidates.

End EntropyEngine.

(** ** hybrid_strategies.h: the strategy configuration *)

Record HybridConfig : Type := mk_config {
  name : string;
  base_strategy_index : Z;
  use_linguistic_filter : bool;
  linguistic_filter_start_turn : Z;
  use_risk_filter : bool;
  prioritize_new_vowels : bool;
  prioritize_anchors : bool;
  prioritize_vowel_contingency : bool;
  look_ahead_depth : Z;
  rank_priority_tolerance : float;
  opener_override_word : option (list ascii);
  use_heatmap_priority : bool;
  second_opener_override_word : option (list ascii);
  prioritize_turn2_coverage : bool
}.

(** ** solver_logic.cpp *)

Definition PRUNE_COUNT : Z := 60.
Definition MAX_GUESSES : Z := 6.

Module SolverLogic.

Definition is_linguistically_sound (pEntry : dictionary_entry) : bool :=
  if Ascii.eqb (noun_type pEntry) "P" then false
  else if Ascii.eqb (verb_type pEntry) "T" then false
  else if Ascii.eqb (verb_type pEntry) "S" then false
  else true.

(** [if (idx >= 0 && idx < 26) counts[idx]++] over the five letters. *)
Definition letter_counts (wd : list ascii) : list Z :=
  fold_left
    (fun guess_counts i =>
       let idx := letter_index (char_at wd i) in
       if (0 <=? idx) && (idx <? 26) then CArray.incr guess_counts idx
       else guess_counts)
    (seq 0 5) (CArray.zeros 26).

(** The second loop returns [true] at the first letter used more than
    once and more often than the known minimum. *)
Definition is_risky_guess (pEntry : dictionary_entry)
    (min_required_counts : list Z) : bool :=
  let guess_counts := letter_counts (word pEntry) in
  existsb
    (fun i => (1 <? CArray.get guess_counts i)
              && (CArray.get min_required_counts i
                  <? CArray.get guess_counts i))
    (indices 26).

Definition vowels : list ascii := list_ascii_of_string "AEIOUY".

(** [strchr(vowels, c) != NULL]; [strchr] also finds the terminator. *)
Definition is_vowel (c : ascii) : bool :=
  existsb (Ascii.eqb c) vowels || Ascii.eqb c Ascii.zero.

Definition count_known_vowels (min_required_counts : list Z) : Z :=
  fold_left
    (fun count i =>
       if 0 <? CArray.get min_required_counts
                 (letter_index (char_at vowels i))
       then count + 1 else count)
    (seq 0 6) 0.

(** A [bool seen[26]] table, kept as 0/1. *)
Definition count_new_vowels (wd : list ascii)
    (min_required_counts : list Z) : Z :=
  fst (fold_left
         (fun (st : Z * list Z) i =>
            let '(count, seen) := st in
            let c := char_at wd i in
            if is_vowel c then
              let idx := letter_index c in
              if (CArray.get seen idx =? 0)
                 && (CArray.get min_required_counts idx =? 0)
              then (count + 1, CArray.set seen idx 1)
              else st
            else st)
         (seq 0 5) (0, CArray.zeros 26)).

Definition calculate_anchor_score (wd : list ascii) : Z :=
  let score := 0 in
  let score :=
    if Ascii.eqb (char_at wd 4) "Y" then score + 3
    else if Ascii.eqb (char_at wd 4) "E" then score + 2
    else score in
  let c := char_at wd 2 in
  if Ascii.eqb c "A" || Ascii.eqb c "E" || Ascii.eqb c "I"
     || Ascii.eqb c "O" || Ascii.eqb c "U"
  then score + 1 else score.

Definition count_unique_vowels_simple (wd : list ascii) : Z :=
  fst (fold_left
         (fun (st : Z * list Z) i =>
            let '(count, seen) := st in
            let c := char_at wd i in
            if is_vowel c then
              let idx := letter_index c in
              if CArray.get seen idx =? 0
              then (count + 1, CArray.set seen idx 1)
              else st
            else st)
         (seq 0 5) (0, CArray.zeros 26)).

Definition calculate_new_letter_coverage (wd : list ascii)
    (min_required_counts : list Z) : Z :=
  fst (fold_left
         (fun (st : Z * list Z) i =>
            let '(score, seen_in_word) := st in
            let idx := letter_index (char_at wd i) in
            if (0 <=? idx) && (idx <? 26) then
              if CArray.get seen_in_word idx =? 0 then
                (if CArray.get min_required_counts idx =? 0
                 then score + 1 else score,
                 CArray.set seen_in_word idx 1)
              else st
            else st)
         (seq 0 5) (0, CArray.zeros 26)).

(** [int heatmap[5][26]]: one 26-slot row per position. *)
Definition heatmap_get (heatmap : list (list Z)) (j : nat) (c : Z) : Z :=
  CArray.get (nth j heatmap []) c.

Definition build_heatmap_matrix (p_dictionary : list dictionary_entry)
    (count : Z) : list (list Z) :=
  fold_left
    (fun heatmap (e : dictionary_entry) =>
       if negb (is_eliminated e) then
         fold_left
           (fun hm j =>
              let char_idx := letter_index (char_at (word e) j) in
              if (0 <=? char_idx) && (char_idx <? 26)
              then <[j := CArray.incr (nth j hm []) char_idx]> hm
              else hm)
           (seq 0 5) heatmap
       else heatmap)
    (firstn (Z.to_nat count) p_dictionary)
    (replicate 5 (CArray.zeros 26)).

Definition get_heatmap_score (wd : list ascii) (heatmap : list (list Z))
  : Z :=
  fold_left
    (fun score j =>
       let char_idx := letter_index (char_at wd j) in
       if (0 <=? char_idx) && (char_idx <? 26)
       then score + heatmap_get heatmap j char_idx
       else score)
    (seq 0 5) 0.

Section WithLog10.

(** libm's decimal logarithm. *)
Variable log10 : float -> float.

(** Second loop of [calculate_lookahead_bonus]: sum of squares,
    number of singletons and largest bucket. *)
Definition analyse_bins (bins : list Z) : float * Z * Z :=
  fold_left
    (fun (acc : float * Z * Z) i =>
       let '(sum_squares, singles_count, max_bucket) := acc in
       let b := CArray.get bins i in
       if 0 <? b then
         ((sum_squares + double_of_int b * double_of_int b)%float,
          if b =? 1 then singles_count + 1 else singles_count,
          if max_bucket <? b then b else max_bucket)
       else acc)
    (indices 243) (0%float, 0, 0).

Definition calculate_lookahead_bonus (candidate : dictionary_entry)
    (p_rank_sorted : list dictionary_entry) (valid_count turn : Z)
  : float :=
  if valid_count <=? 1 then 0%float else
  let bins :=
    fold_left
      (fun bins (answer : dictionary_entry) =>
         CArray.incr bins
           (Lookahead.lookahead_feedback_index (word candidate)
                                               (word answer)))
      (firstn (Z.to_nat valid_count) p_rank_sorted)
      (CArray.zeros 243) in
  let '(sum_squares, singles_count, max_bucket) := analyse_bins bins in
  let branching_factor :=
    (double_of_int valid_count * double_of_int valid_count
     / sum_squares)%float in
  let safety_score := log10 branching_factor in
  let sniper_bonus :=
    if 1 <? turn then (double_of_int singles_count * 0.04)%float
    else 0%float in
  let total_score := (safety_score + sniper_bonus)%float in
  let guesses_remaining := MAX_GUESSES - turn in
  if guesses_remaining <? max_bucket then (total_score - 100)%float
  else if (4 <? valid_count) && (Z.quot valid_count 2 + 1 <? max_bucket)
  then (total_score - 5)%float
  else total_score.

(** [config->use_linguistic_filter &&
     (turn >= config->linguistic_filter_start_turn)]. *)
Definition apply_ling (config : HybridConfig) (turn : Z) : bool :=
  use_linguistic_filter config
  && (linguistic_filter_start_turn config <=? turn).

(** The filter block of the override stages: [pass] after the
    linguistic and the risk test. *)
Definition standard_pass (config : HybridConfig)
    (min_required_counts : list Z) (turn : Z) (cand : dictionary_entry)
  : bool :=
  let pass := true in
  let pass :=
    if apply_ling config turn && negb (is_linguistically_sound cand)
    then false else pass in
  let pass :=
    if pass && use_risk_filter config
       && is_risky_guess cand min_required_counts
    then false else pass in
  pass.

(** Strategy D: turn-2 coverage over the top 100 of the rank view. *)
Definition coverage_scan (config : HybridConfig)
    (p_rank_sorted : list dictionary_entry) (count : Z)
    (min_required_counts : list Z) (turn : Z) : option dictionary_entry :=
  let scan_limit := if count <? 100 then count else 100 in
  snd (fold_left
         (fun (st : Z * option dictionary_entry) cand =>
            let '(best_cov, best_cov_cand) := st in
            let pass := standard_pass config min_required_counts turn cand in
            let pass := if is_eliminated cand then false else pass in
            if pass then
              let cov :=
                calculate_new_letter_coverage (word cand)
                                              min_required_counts in
              if best_cov <? cov then (cov, Some cand) else st
            else st)
         (firstn (Z.to_nat scan_limit) p_rank_sorted) (-1, None)).

(** The scan shared by strategies A and B: maximise an integer score
    over the top 30 of the entropy view, ties broken by a strictly
    larger entropy. *)
Definition biased_scan (score_of : dictionary_entry -> Z)
    (config : HybridConfig) (p_entropy_sorted : list dictionary_entry)
    (count : Z) (min_required_counts : list Z) (turn : Z)
  : option dictionary_entry :=
  let scan := if count <? 30 then count else 30 in
  snd (fold_left
         (fun (st : Z * float * option dictionary_entry) cand =>
            let '(best_score, best_ent, best_candidate) := st in
            if standard_pass config min_required_counts turn cand then
              let sc := score_of cand in
              if best_score <? sc then (sc, entropy cand, Some cand)
              else if sc =? best_score then
                if PrimFloat.ltb best_ent (entropy cand)
                then (best_score, entropy cand, Some cand)
                else st
              else st
            else st)
         (firstn (Z.to_nat scan) p_entropy_sorted)
         (-1, (-1)%float, None)).

(** Heatmap priority: the first 20 filter-passing candidates. *)
Fixpoint heatmap_scan (config : HybridConfig) (heatmap : list (list Z))
    (min_required_counts : list Z) (turn : Z)
    (cands : list dictionary_entry)
    (best_heatmap_cand : option dictionary_entry)
    (best_heatmap_score scanned : Z) : option dictionary_entry :=
  match cands with
  | [] => best_heatmap_cand
  | cand :: rest =>
      if 20 <=? scanned then best_heatmap_cand
      else if standard_pass config min_required_counts turn cand then
        let score := get_heatmap_score (word cand) heatmap in
        if best_heatmap_score <? score
        then heatmap_scan config heatmap min_required_counts turn rest
                          (Some cand) score (scanned + 1)
        else heatmap_scan config heatmap min_required_counts turn rest
                          best_heatmap_cand best_heatmap_score
                          (scanned + 1)
      else heatmap_scan config heatmap min_required_counts turn rest
                        best_heatmap_cand best_heatmap_score scanned
  end.

(** [pass] of the main loop for one candidate. *)
Definition main_pass (config : HybridConfig)
    (min_required_counts : list Z) (valid_count turn : Z)
    (cand : dictionary_entry) : bool :=
  let is_endgame_panic := valid_count <=? 20 in
  let pass := true in
  let is_endgame_solver :=
    negb (is_eliminated cand) && (valid_count <=? 10) in
  if negb is_endgame_solver then
    let apply_ling := apply_ling config turn in
    let apply_ling := if is_endgame_panic then false else apply_ling in
    let pass :=
      if apply_ling && negb (is_linguistically_sound cand)
      then false else pass in
    let pass :=
      if pass && use_risk_filter config
         && is_risky_guess cand min_required_counts
      then false else pass in
    pass
  else pass.

(** [current_score] of the main loop for a candidate that passed. *)
Definition main_score (config : HybridConfig)
    (p_rank_sorted : list dictionary_entry) (valid_count turn : Z)
    (cand : dictionary_entry) : float :=
  let is_endgame_panic := valid_count <=? 20 in
  let current_score := entropy cand in
  if (0 <? look_ahead_depth config) && negb is_endgame_panic
  then (current_score
        + calculate_lookahead_bonus cand p_rank_sorted valid_count turn)%float
  else current_score.

(** The main loop, with its [break] once [max_evals] candidates have
    been evaluated. *)
Fixpoint main_loop (config : HybridConfig)
    (p_rank_sorted : list dictionary_entry)
    (min_required_counts : list Z) (valid_count turn max_evals : Z)
    (cands : list dictionary_entry)
    (best_final_candidate : option dictionary_entry)
    (best_combined_score : float) (candidates_evaluated : Z)
  : option dictionary_entry :=
  match cands with
  | [] => best_final_candidate
  | cand :: rest =>
      if max_evals <=? candidates_evaluated then best_final_candidate
      else if main_pass config min_required_counts valid_count turn cand
      then
        let current_score :=
          main_score config p_rank_sorted valid_count turn cand in
        if PrimFloat.ltb best_combined_score current_score
        then main_loop config p_rank_sorted min_required_counts
                       valid_count turn max_evals rest
                       (Some cand) current_score
                       (candidates_evaluated + 1)
        else main_loop config p_rank_sorted min_required_counts
                       valid_count turn max_evals rest
                       best_final_candidate best_combined_score
                       (candidates_evaluated + 1)
      else main_loop config p_rank_sorted min_required_counts
                     valid_count turn max_evals rest
                     best_final_candidate best_combined_score
                     candidates_evaluated
  end.

(** Strategy C up to the fallback: [best_final_candidate] as it
    stands before the rank tie-breaker. *)
Definition main_selection (config : HybridConfig)
    (p_entropy_sorted p_rank_sorted : list dictionary_entry) (count : Z)
    (min_required_counts : list Z) (valid_count turn : Z)
  : option dictionary_entry :=
  let is_endgame_panic := valid_count <=? 20 in
  let max_evals :=
    if (0 <? look_ahead_depth config) && negb is_endgame_panic
    then PRUNE_COUNT else count in
  match main_loop config p_rank_sorted min_required_counts valid_count
                  turn max_evals
                  (firstn (Z.to_nat count) p_entropy_sorted)
                  None (-1000)%float 0 with
  | Some best => Some best
  | None => head p_entropy_sorted
  end.

(** Filter of the rank tie-breaker loop (no panic override there). *)
Definition rank_pass (config : HybridConfig)
    (min_required_counts : list Z) (valid_count turn : Z)
    (cand : dictionary_entry) : bool :=
  let pass := true in
  let is_endgame := negb (is_eliminated cand) && (valid_count <=? 10) in
  if negb is_endgame then
    standard_pass config min_required_counts turn cand
  else pass.

(** [best_rank_cand]: the first entry of the rank view that passes,
    [p_rank_sorted[0]] when none does. *)
Definition best_rank_candidate (config : HybridConfig)
    (p_rank_sorted : list dictionary_entry) (count : Z)
    (min_required_counts : list Z) (valid_count turn : Z)
  : option dictionary_entry :=
  match List.find (rank_pass config min_required_counts valid_count turn)
                  (firstn (Z.to_nat count) p_rank_sorted) with
  | Some cand => Some cand
  | None => head p_rank_sorted
  end.

(** [get_smart_hybrid_guess]; [None] is the NULL result.  The views
    hold at least [count] entries. *)
Definition get_smart_hybrid_guess
    (p_entropy_sorted p_rank_sorted : list dictionary_entry) (count : Z)
    (config : HybridConfig) (min_required_counts : list Z)
    (valid_count turn : Z) : option dictionary_entry :=
  if count =? 0 then None else
  (* Strategy D: dynamic turn 2 coverage *)
  let coverage :=
    if prioritize_turn2_coverage config && (turn =? 2)
    then coverage_scan config p_rank_sorted count min_required_counts turn
    else None in
  match coverage with Some best_cov_cand => Some best_cov_cand | None =>
  (* Strategy A: contingency *)
  let contingency :=
    if prioritize_vowel_contingency config && (turn =? 2)
       && (count_known_vowels min_required_counts <? 2)
    then biased_scan
           (fun cand => count_new_vowels (word cand) min_required_counts)
           config p_entropy_sorted count min_required_counts turn
    else None in
  match contingency with Some best_candidate => Some best_candidate | None =>
  (* Strategy B: early bias *)
  let early :=
    if (turn <=? 2)
       && (prioritize_new_vowels config || prioritize_anchors config)
    then biased_scan
           (fun cand =>
              if prioritize_anchors config
              then calculate_anchor_score (word cand)
              else count_unique_vowels_simple (word cand))
           config p_entropy_sorted count min_required_counts turn
    else None in
  match early with Some best_candidate => Some best_candidate | None =>
  (* Heatmap priority *)
  let heat :=
    if use_heatmap_priority config && (2 <? valid_count)
    then heatmap_scan config
           (build_heatmap_matrix p_entropy_sorted count)
           min_required_counts turn
           (firstn (Z.to_nat count) p_entropy_sorted) None (-1) 0
    else None in
  match heat with Some best_heatmap_cand => Some best_heatmap_cand | None =>
  (* Strategy C: standard smart hybrid + look ahead *)
  let is_endgame_panic := valid_count <=? 20 in
  match main_selection config p_entropy_sorted p_rank_sorted count
                       min_required_counts valid_count turn with
  | None => None
  | Some best_final_candidate =>
      if PrimFloat.ltb 0 (rank_priority_tolerance config)
         && negb is_endgame_panic
      then
        match best_rank_candidate config p_rank_sorted count
                                  min_required_counts valid_count turn with
        | None => None
        | Some best_rank_cand =>
            let diff :=
              (entropy best_final_candidate - entropy best_rank_cand)%float in
            if PrimFloat.ltb diff (rank_priority_tolerance config)
            then Some best_rank_cand
            else Some best_final_candidate
        end
      else Some best_final_candidate
  end end end end end.

End WithLog10.

(** [filter_dictionary_by_constraints]: the loop skips eliminated
    entries and flags the others whose pattern differs. *)
Definition filter_dictionary_by_constraints
    (p_dictionary : list dictionary_entry) (count : Z)
    (guess result_pattern : list ascii) : list dictionary_entry :=
  update_prefix count
    (fun pEntry =>
       if is_eliminated pEntry then pEntry
       else
         let hypothetical_pattern :=
           FeedbackCodec.get_feedback_pattern guess (word pEntry) in
         if negb (strcmp hypothetical_pattern result_pattern =? 0)
         then set_eliminated pEntry true
         else pEntry)
    p_dictionary.

(** First loop of [update_min_required_counts]: the Green and Yellow
    letters of this turn, per letter. *)
Definition current_turn_counts (guess result_pattern : list ascii) : list Z :=
  fold_left
    (fun counts i =>
       if Ascii.eqb (char_at result_pattern i) "G"
          || Ascii.eqb (char_at result_pattern i) "Y"
       then
         let char_idx := letter_index (char_at guess i) in
         if (0 <=? char_idx) && (char_idx <? 26)
         then CArray.incr counts char_idx
         else counts
       else counts)
    (seq 0 5) (CArray.zeros 26).

(** [update_min_required_counts]: the second loop raises every slot that
    this turn's tally exceeds. *)
Definition update_min_required_counts (guess result_pattern : list ascii)
    (min_required_counts : list Z) : list Z :=
  let current_turn_counts := current_turn_counts guess result_pattern in
  fold_left
    (fun min_required_counts i =>
       if CArray.get min_required_counts i <? CArray.get current_turn_counts i
       then CArray.set min_required_counts i
                       (CArray.get current_turn_counts i)
       else min_required_counts)
    (indices 26) min_required_counts.

Definition meets_filtered_criteria (pEntry : dictionary_entry) : bool :=
  if contains_duplicate_letters pEntry then false
  else if Ascii.eqb (noun_type pEntry) "P"
          || Ascii.eqb (noun_type pEntry) "R" then false
  else if negb (Ascii.eqb (verb_type pEntry) "N")
          && negb (Ascii.eqb (verb_type pEntry) "P") then false
  else true.

(** The loop of [find_filtered_candidate]: it stops at the first
    eliminated entry. *)
Fixpoint first_filtered (entries : list dictionary_entry)
  : option dictionary_entry :=
  match entries with
  | [] => None
  | pEntry :: rest =>
      if is_eliminated pEntry then None
      else if meets_filtered_criteria pEntry then Some pEntry
      else first_filtered rest
  end.

Definition find_filtered_candidate (p_sorted_array : list dictionary_entry)
    (count : Z) : option dictionary_entry :=
  first_filtered (firstn (Z.to_nat count) p_sorted_array).

(** solver_logic.h / wordle_types.h: one slot of the recommendation
    box; [pEntry] is a pointer, [None] where the view has no entry 0. *)
Record word_candidate : Type := mk_candidate {
  label : string;
  pEntry : option dictionary_entry
}.

(** [get_best_guess_candidates]: [None] is the [false] result, which
    leaves the caller's array alone; otherwise the four slots. *)
Definition get_best_guess_candidates
    (p_entropy_sorted p_rank_sorted : list dictionary_entry) (count : Z)
  : option (list word_candidate) :=
  if count =? 0 then None else
  let candidates0 := head p_entropy_sorted in
  let candidates2 := head p_rank_sorted in
  let candidates1 :=
    match find_filtered_candidate p_entropy_sorted count with
    | Some e => Some e
    | None => head p_entropy_sorted
    end in
  let candidates3 :=
    match find_filtered_candidate p_rank_sorted count with
    | Some e => Some e
    | None => head p_rank_sorted
    end in
  Some [mk_candidate "Entropy Raw (Max Info)" candidates0;
        mk_candidate "Entropy Filtered" candidates1;
        mk_candidate "Rank Raw (Most Common)" candidates2;
        mk_candidate "Rank Filtered" candidates3].

End SolverLogic.

(** ** load_dictionary.cpp *)

Module LoadDictionary.

(** [bool letterSeen[26]], read and written with an index the guard has
    put in range. *)
Definition seen_get (letterSeen : list bool) (index : Z) : bool :=
  default false (letterSeen !! Z.to_nat index).

Definition seen_set (letterSeen : list bool) (index : Z) : list bool :=
  <[Z.to_nat index := true]> letterSeen.

(** The loop of [contains_duplicate_letter], with its [continue] and its
    early [return true].  Whether [char] is signed or not, a character
    outside 'A'..'Z' takes the [continue]. *)
Fixpoint duplicate_scan (wd : list ascii) (ps : list nat)
    (letterSeen : list bool) : bool :=
  match ps with
  | [] => false
  | i :: rest =>
      let ch := char_at wd i in
      if (char_code ch <? char_code "A") || (char_code "Z" <? char_code ch)
      then duplicate_scan wd rest letterSeen
      else
        let index := letter_index ch in
        if seen_get letterSeen index then true
        else duplicate_scan wd rest (seen_set letterSeen index)
  end.

Definition contains_duplicate_letter (wd : list ascii) : bool :=
  duplicate_scan wd positions (replicate 26 false).

Definition is_blank (ch : ascii) : bool :=
  Ascii.eqb ch " " || Ascii.eqb ch "009" || Ascii.eqb ch "010"
  || Ascii.eqb ch "013".

(** [trim]: the walk up to the terminator keeps the offset just past the
    last character that is not a blank, and the terminator is written
    there.  The string is the list of its characters before the
    terminator. *)
Definition trim (str : list ascii) : list ascii :=
  let '(ptrToWhereNullCharShouldGo, _) :=
    fold_left
      (fun (st : nat * nat) ch =>
         let '(where_null, currentPtr) := st in
         let currentPtr := S currentPtr in
         if negb (is_blank ch) then (currentPtr, currentPtr)
         else (where_null, currentPtr))
      str (O, O) in
  firstn ptrToWhereNullCharShouldGo str.

End LoadDictionary.

(** ** Notions the statements are written with *)

(** A word of the dictionary: five characters, each in ['A' .. 'Z'] (the
    loader upper-cases every word it stores, and five is the length every
    buffer is declared with). *)
Definition is_upper (c : ascii) : bool :=
  (0 <=? letter_index c) && (letter_index c <? 26).

Definition word_ok (wd : list ascii) : bool :=
  (length wd =? WORDLE_WORD_LENGTH)%nat && forallb is_upper wd.

(** Colours as base-3 digits: Black 0, Yellow 1, Green 2. *)
Definition color_digit (c : ascii) : Z :=
  if Ascii.eqb c "G"%char then 2 else if Ascii.eqb c "Y"%char then 1 else 0.

(** Sum over the positions [i] of [digit i * 3^i]. *)
Definition pattern_value (pat : list ascii) : Z :=
  fold_right (fun i acc => color_digit (char_at pat i) * 3 ^ Z.of_nat i + acc)
             0 positions.

(** Number of positions of a position list that satisfy a test. *)
Definition count_pos (f : nat -> bool) (ps : list nat) : Z :=
  Z.of_nat (length (List.filter f ps)).

(** Positions a pattern marks Yellow where the guess has the letter [c]. *)
Definition yellow_count (guess pat : list ascii) (c : ascii) : Z :=
  count_pos (fun i => Ascii.eqb (char_at pat i) "Y"%char
                      && Ascii.eqb (char_at guess i) c) positions.

(** Occurrences of the letter [c] in the answer that are not matched Green
    (the guess has another letter at that position). *)
Definition unmatched_count (guess answer : list ascii) (c : ascii) : Z :=
  count_pos (fun i => Ascii.eqb (char_at answer i) c
                      && negb (Ascii.eqb (char_at guess i) (char_at answer i)))
            positions.

(** A C string as a list: no NUL among its characters. *)
Definition c_string (s : list ascii) : Prop :=
  Forall (fun c => c <> Ascii.zero) s.

(** The non-eliminated entries of a pool, in pool order. *)
Definition valid_entries (pool : list dictionary_entry) : list dictionary_entry :=
  List.filter (fun e => negb (is_eliminated e)) pool.

(** The 243-bucket feedback histogram of a candidate over an answer list:
    bucket [k] holds the answers whose pattern index is [k]. *)
Definition bucket_size (candidate : list ascii)
    (answers : list dictionary_entry) (k : Z) : Z :=
  Z.of_nat (length (List.filter
                      (fun a => Lookahead.lookahead_feedback_index
                                  candidate (word a) =? k)
                      answers)).

Definition buckets (candidate : list ascii) (answers : list dictionary_entry)
  : list Z :=
  List.map (bucket_size candidate answers) (indices 243).

(** Sum of the squared sizes of the non-empty buckets, accumulated in
    double precision in bucket order. *)
Definition sum_of_squares (bs : list Z) : float :=
  fold_left (fun s b => (s + double_of_int b * double_of_int b)%float)
            (List.filter (fun b => 0 <? b) bs) 0%float.

Definition singles (bs : list Z) : Z :=
  Z.of_nat (length (List.filter (fun b => b =? 1) bs)).

Definition largest (bs : list Z) : Z := fold_right Z.max 0 bs.

(** A double that is a number. *)
Definition is_number (x : float) : Prop := PrimFloat.is_nan x = false.

(** Word literals. *)
Definition word_of (s : string) : list ascii := list_ascii_of_string s.

(** An entry from its fields, for examples. *)
Definition sample_entry (s : string) (h : float) (r : Z) (n v : ascii)
    (dup elim : bool) : dictionary_entry :=
  mk_entry (word_of s) h r n v dup elim.

(** A stand-in for libm's [log] and [log10] where a statement is
    exercised on a concrete input: the tangent of the logarithm at 1. *)
Definition sample_log (x : float) : float := (x - 1)%float.

(** The state of [compute_feedback_index] that corresponds to a state of
    [get_feedback_pattern]. *)
Definition mirror (st : FeedbackCodec.pattern_state)
  : FeedbackCodec.index_state :=
  (color_digit <$> fst st, snd st).

(** The pattern buffer only ever holds 'B', 'G' and 'Y'. *)
Definition colour (c : ascii) : Prop :=
  c = "B"%char \/ c = "G"%char \/ c = "Y"%char.

(** A three-way comparison [c] (negative: first argument first) is
    coherent on a domain when swapping the arguments flips the sign and
    "not after" is transitive; this is what makes [c a b < 0] a strict
    weak ordering there. *)
Record coherent {A : Type} (D : A -> Prop) (c : A -> A -> Z) : Prop := {
  coherent_flip : forall a b, D a -> D b -> (c a b < 0 <-> 0 < c b a);
  coherent_trans :
    forall a b d, D a -> D b -> D d -> c a b <= 0 -> c b d <= 0 -> c a d <= 0
}.

(** [result = c1 a b; if (result != 0) return result; return c2 a b]. *)
Definition lex {A : Type} (c1 c2 : A -> A -> Z) (a b : A) : Z :=
  let result := c1 a b in
  if negb (result =? 0) then result else c2 a b.

(** Entries whose entropy is a number. *)
Definition entropy_is_number (e : dictionary_entry) : Prop :=
  is_number (entropy e).

(** hybrid_strategies.cpp, entry 2 of [ALL_STRATEGIES]: linguistic filter
    from turn 1, risk filter, no lookahead, rank tolerance 0.50. *)
Definition legacy_reborn : HybridConfig :=
  mk_config "Legacy Reborn (Smart)" (-1) true 1 true false false false
            0 0.50%float None false None false.

(** The same strategy without its risk filter. *)
Definition legacy_reborn_no_risk : HybridConfig :=
  mk_config "Legacy Reborn (Smart)" (-1) true 1 false false false false
            0 0.50%float None false None false.

(** A view is in the order of a comparator when no entry compares after
    its successor. *)
Fixpoint in_order (cmp : dictionary_entry -> dictionary_entry -> Z)
    (view : list dictionary_entry) : bool :=
  match view with
  | a :: (b :: _) as rest => (cmp a b <=? 0) && in_order cmp rest
  | _ => true
  end.

(** An eleven-word pool in entropy order, nothing eliminated; "SPEED"
    repeats a letter. *)
Definition eleven_words : list dictionary_entry :=
  [sample_entry "SPEED" 3.25 40 "S" "P" true false;
   sample_entry "CRANE" 3 55 "S" "P" false false;
   sample_entry "TRACE" 2.875 60 "S" "P" false false;
   sample_entry "SLATE" 2.75 58 "S" "P" false false;
   sample_entry "CRATE" 2.625 52 "S" "N" false false;
   sample_entry "STARE" 2.5 57 "S" "P" false false;
   sample_entry "RAISE" 2.375 70 "S" "P" false false;
   sample_entry "ARISE" 2.25 62 "N" "P" false false;
   sample_entry "IRATE" 2.125 35 "N" "N" false false;
   sample_entry "LEAST" 2 75 "N" "N" false false;
   sample_entry "STALE" 1.875 45 "N" "N" false false].

(** The same pool in frequency-rank order. *)
Definition eleven_words_by_rank : list dictionary_entry :=
  [sample_entry "LEAST" 2 75 "N" "N" false false;
   sample_entry "RAISE" 2.375 70 "S" "P" false false;
   sample_entry "ARISE" 2.25 62 "N" "P" false false;
   sample_entry "TRACE" 2.875 60 "S" "P" false false;
   sample_entry "SLATE" 2.75 58 "S" "P" false false;
   sample_entry "STARE" 2.5 57 "S" "P" false false;
   sample_entry "CRANE" 3 55 "S" "P" false false;
   sample_entry "CRATE" 2.625 52 "S" "N" false false;
   sample_entry "STALE" 1.875 45 "N" "N" false false;
   sample_entry "SPEED" 3.25 40 "S" "P" true false;
   sample_entry "IRATE" 2.125 35 "N" "N" false false].

(** A pool of twenty-one plural nouns, nothing eliminated: its view by
    entropy and its view by frequency rank. *)
Definition plural (s : string) (h : float) (r : Z) : dictionary_entry :=
  sample_entry s h r "P" "N" false false.

Definition plurals_by_entropy : list dictionary_entry :=
  [plural "TALES" 4.5 40; plural "RATES" 4.375 80; plural "TARES" 4.25 10;
   plural "LANES" 4.125 45; plural "CANES" 4 30; plural "PANES" 3.875 25;
   plural "MANES" 3.75 20; plural "DATES" 3.625 78; plural "GATES" 3.5 66;
   plural "MATES" 3.375 50; plural "FATES" 3.25 35; plural "LORES" 3.125 12;
   plural "CORES" 3 48; plural "BORES" 2.875 28; plural "PORES" 2.75 26;
   plural "TONES" 2.625 60; plural "BONES" 2.5 64; plural "CONES" 2.375 38;
   plural "ZONES" 2.25 62; plural "HOLES" 2.125 68; plural "POLES" 2 55].

Definition plurals_by_rank : list dictionary_entry :=
  [plural "RATES" 4.375 80; plural "DATES" 3.625 78; plural "HOLES" 2.125 68;
   plural "GATES" 3.5 66; plural "BONES" 2.5 64; plural "ZONES" 2.25 62;
   plural "TONES" 2.625 60; plural "POLES" 2 55; plural "MATES" 3.375 50;
   plural "CORES" 3 48; plural "LANES" 4.125 45; plural "TALES" 4.5 40;
   plural "CONES" 2.375 38; plural "FATES" 3.25 35; plural "CANES" 4 30;
   plural "BORES" 2.875 28; plural "PORES" 2.75 26; plural "PANES" 3.875 25;
   plural "MANES" 3.75 20; plural "LORES" 3.125 12; plural "TARES" 4.25 10].

(** Occurrences of the letter [c] among the five positions of a word. *)
Definition occurrences (wd : list ascii) (c : ascii) : Z :=
  count_pos (fun i => Ascii.eqb (char_at wd i) c) positions.

(** Positions where the guess has the letter [c] and the answer another
    letter. *)
Definition misplaced_count (guess answer : list ascii) (c : ascii) : Z :=
  count_pos (fun i => Ascii.eqb (char_at guess i) c
                      && negb (Ascii.eqb (char_at guess i) (char_at answer i)))
            positions.

(** The sum of the slots of an [int] array. *)
Definition total (a : list Z) : Z := fold_right Z.add 0 a.

(** Positions a pattern marks Green or Yellow where the guess has the
    letter [c]. *)
Definition marked_count (guess pat : list ascii) (c : ascii) : Z :=
  count_pos (fun i => (Ascii.eqb (char_at pat i) "G"%char
                       || Ascii.eqb (char_at pat i) "Y"%char)
                      && Ascii.eqb (char_at guess i) c) positions.

(** Letter minimums that hold of an answer: no upper-case letter is
    required more often than the answer has it. *)
Definition sound_minimums (min_required_counts : list Z)
    (answer : list ascii) : Prop :=
  forall c : ascii,
    is_upper c = true ->
    CArray.get min_required_counts (letter_index c) <= occurrences answer c.

(** Positions where a word has an upper-case letter and another word has
    the same letter: the Green marks the first would get against the
    second. *)
Definition agreements (wd answer : list ascii) : Z :=
  count_pos (fun j => is_upper (char_at wd j)
                      && Ascii.eqb (char_at wd j) (char_at answer j))
            positions.

(** The upper-case letters, in table order. *)
Definition letters : list ascii :=
  list_ascii_of_string "ABCDEFGHIJKLMNOPQRSTUVWXYZ".

(** How many letters of a list occur in a word and have no known
    minimum yet; a letter the word repeats counts once. *)
Definition new_letters (universe : list ascii) (wd : list ascii)
    (min_required_counts : list Z) : Z :=
  Z.of_nat
    (length
       (List.filter
          (fun c => (0 <? occurrences wd c)
                    && (CArray.get min_required_counts (letter_index c) =? 0))
          universe)).

(** ** monte_carlo.cpp and main.cpp: the turns of a game *)

Module GameLoop.

(** Hard mode, after the master array is sorted:
    [new_count = count; for (i ...) if (p[i].is_eliminated)
    { new_count = i; break; }]. *)
Fixpoint first_eliminated (entries : list dictionary_entry) (i new_count : Z)
  : Z :=
  match entries with
  | [] => new_count
  | e :: rest =>
      if is_eliminated e then i else first_eliminated rest (i + 1) new_count
  end.

Definition shrunk_count (p_data : list dictionary_entry) (current_count : Z)
  : Z :=
  first_eliminated (firstn (Z.to_nat current_count) p_data) 0 current_count.

(** What a game carries from one turn to the next: the master array
    ([p_thread_data], [p_possibleAnswers_data]), the number of its leading
    entries still in play ([current_count], [possibleAnswers_count]) and
    the letter minimums. *)
Record game_state : Type := mk_state {
  p_data : list dictionary_entry;
  current_count : Z;
  min_required_counts : list Z
}.

(** [qsort(p, count, sizeof(dictionary_entry_t), cmp)].  The C library
    fixes the result only up to the order of the entries that compare
    equal, so the call is a relation between the array before and after
    it: the first [count] entries are permuted into the order of the
    comparator and the rest of the array is not touched. *)
Definition qsorted (cmp : dictionary_entry -> dictionary_entry -> Z)
    (count : Z) (before after : list dictionary_entry) : Prop :=
  Permutation (firstn (Z.to_nat count) before) (firstn (Z.to_nat count) after)
  /\ skipn (Z.to_nat count) after = skipn (Z.to_nat count) before
  /\ in_order cmp (firstn (Z.to_nat count) after) = true.

(** monte_carlo.cpp:212-213 and main.cpp:381-385: the minimums are
    updated and the dictionary is filtered with a guess and its
    pattern. *)
Definition apply_feedback (guess result_pattern : list ascii)
    (st : game_state) : game_state :=
  mk_state
    (SolverLogic.filter_dictionary_by_constraints
       (p_data st) (current_count st) guess result_pattern)
    (current_count st)
    (SolverLogic.update_min_required_counts
       guess result_pattern (min_required_counts st)).

(** [use_normal_mode_scan] of the simulation (monte_carlo.cpp:216). *)
Definition use_normal_mode_scan (g_isHardMode : bool) (config : HybridConfig)
  : bool :=
  negb g_isHardMode
  && ((base_strategy_index config =? -1)
      || (base_strategy_index config <=? 1)).

(** Hard mode once the array is sorted (monte_carlo.cpp:271-274,
    main.cpp:415-422): the count shrinks to the index of the first
    eliminated entry, and the loop is left ([None]) when it is 0. *)
Definition hard_mode_shrink (sorted : list dictionary_entry)
    (st : game_state) : option game_state :=
  let new_count := shrunk_count sorted (current_count st) in
  if new_count =? 0 then None
  else Some (mk_state sorted new_count (min_required_counts st)).

Section Turns.

(** libm's natural logarithm, as in the entropy engine. *)
Variable log : float -> float.

(** Normal mode (monte_carlo.cpp:221-226, main.cpp:390-401): the valid
    entries among the first [total] are collected, the loop is left
    ([None]) when there is none, and every candidate is scored against
    them.  The collected pointers point into the array that is scored;
    see [calculate_entropy_for_candidates]. *)
Definition normal_mode_scan (total : Z) (st : game_state)
  : option game_state :=
  let ppValidAnswers :=
    List.filter (fun e => negb (is_eliminated e))
                (firstn (Z.to_nat total) (p_data st)) in
  let validCount := Z.of_nat (length ppValidAnswers) in
  if validCount =? 0 then None
  else Some (mk_state
               (calculate_entropy_for_candidates log (p_data st) total
                                                 ppValidAnswers validCount)
               (current_count st) (min_required_counts st)).

(** main.cpp:425: hard mode of the interactive game recomputes the
    entropies of the entries that are left. *)
Definition hard_mode_entropy (malloc_ok : bool) (st : game_state)
  : game_state :=
  mk_state
    (calculate_entropy_on_dictionary log malloc_ok
                                     (p_data st) (current_count st))
    (current_count st) (min_required_counts st).

(** One pass through the body of the simulation's game loop
    (monte_carlo.cpp:200-301) with [current_guess] against a target.
    The result is the state the next pass starts from, or [None] when
    the loop is left: on a win, or when no word remains.  The choice of
    the next guess, between the updates and the next pass, builds its
    sorted views in arrays of its own and changes nothing of the
    state. *)
Inductive simulated_turn (g_isHardMode : bool) (config : HybridConfig)
    (master_count : Z) (target current_guess : list ascii) (st : game_state)
  : option game_state -> Prop :=
| sim_won :
    strncmp current_guess target 5 = 0 ->
    simulated_turn g_isHardMode config master_count target current_guess st
                   None
| sim_normal :
    strncmp current_guess target 5 <> 0 ->
    use_normal_mode_scan g_isHardMode config = true ->
    simulated_turn g_isHardMode config master_count target current_guess st
      (normal_mode_scan master_count
         (apply_feedback current_guess
            (FeedbackCodec.get_feedback_pattern current_guess target) st))
| sim_hard (sorted : list dictionary_entry) :
    strncmp current_guess target 5 <> 0 ->
    use_normal_mode_scan g_isHardMode config = false ->
    qsorted Comparators.compare_master_entries_eliminated_then_alpha
            (current_count st)
            (p_data
               (apply_feedback current_guess
                  (FeedbackCodec.get_feedback_pattern current_guess target)
                  st))
            sorted ->
    simulated_turn g_isHardMode config master_count target current_guess st
      (hard_mode_shrink sorted
         (apply_feedback current_guess
            (FeedbackCodec.get_feedback_pattern current_guess target) st)).

(** The passes the simulation makes one after the other with the guesses
    of a list, none of them leaving the loop. *)
Inductive simulated_game (g_isHardMode : bool) (config : HybridConfig)
    (master_count : Z) (target : list ascii)
  : game_state -> list (list ascii) -> game_state -> Prop :=
| sim_start (st : game_state) :
    simulated_game g_isHardMode config master_count target st [] st
| sim_next (st : game_state) (current_guess : list ascii)
    (st1 : game_state) (guesses : list (list ascii)) (st2 : game_state) :
    simulated_turn g_isHardMode config master_count target current_guess st
                   (Some st1) ->
    simulated_game g_isHardMode config master_count target st1 guesses st2 ->
    simulated_game g_isHardMode config master_count target st
                   (current_guess :: guesses) st2.

(** One pass through the body of the interactive game loop
    (main.cpp:337-433) in which the user entered a guess and a pattern:
    the state the next pass starts from, or [None] when the loop is left
    (solved, or no word remains).  [malloc_ok] says whether the
    allocation inside [calculate_entropy_on_dictionary] succeeded. *)
Inductive interactive_turn (g_isHardMode : bool) (total_dictionary_size : Z)
    (user_guess result_pattern : list ascii) (st : game_state)
  : option game_state -> Prop :=
| int_solved :
    strcmp result_pattern (word_of "GGGGG") = 0 ->
    interactive_turn g_isHardMode total_dictionary_size user_guess
                     result_pattern st None
| int_normal :
    strcmp result_pattern (word_of "GGGGG") <> 0 ->
    g_isHardMode = false ->
    interactive_turn g_isHardMode total_dictionary_size user_guess
      result_pattern st
      (normal_mode_scan total_dictionary_size
         (apply_feedback user_guess result_pattern st))
| int_hard (sorted : list dictionary_entry) (malloc_ok : bool) :
    strcmp result_pattern (word_of "GGGGG") <> 0 ->
    g_isHardMode = true ->
    qsorted Comparators.compare_master_entries_eliminated_then_alpha
            (current_count st)
            (p_data (apply_feedback user_guess result_pattern st))
            sorted ->
    interactive_turn g_isHardMode total_dictionary_size user_guess
      result_pattern st
      (option_map (hard_mode_entropy malloc_ok)
         (hard_mode_shrink sorted
            (apply_feedback user_guess result_pattern st))).

(** The passes of an interactive game with the guesses and patterns of a
    history, none of them leaving the loop. *)
Inductive interactive_game (g_isHardMode : bool) (total_dictionary_size : Z)
  : game_state -> list (list ascii * list ascii) -> game_state -> Prop :=
| int_start (st : game_state) :
    interactive_game g_isHardMode total_dictionary_size st [] st
| int_next (st : game_state) (user_guess result_pattern : list ascii)
    (st1 : game_state) (history : list (list ascii * list ascii))
    (st2 : game_state) :
    interactive_turn g_isHardMode total_dictionary_size user_guess
                     result_pattern st (Some st1) ->
    interactive_game g_isHardMode total_dictionary_size st1 history st2 ->
    interactive_game g_isHardMode total_dictionary_size st
                     ((user_guess, result_pattern) :: history) st2.

End Turns.

End GameLoop.

(** The words still in play: those of the valid entries among the first
    [current_count] of the master array. *)
Definition words_in_play (st : GameLoop.game_state) : list (list ascii) :=
  List.map word
    (valid_entries
       (firstn (Z.to_nat (GameLoop.current_count st)) (GameLoop.p_data st))).

(** A state the loops run on: the count lies within the [total] entries
    of the array, the table of minimums has its 26 slots, and every word
    is five upper-case letters. *)
Definition well_formed (total : Z) (st : GameLoop.game_state) : Prop :=
  0 <= GameLoop.current_count st <= total
  /\ total <= Z.of_nat (length (GameLoop.p_data st))
  /\ length (GameLoop.min_required_counts st) = 26%nat
  /\ Forall (fun e => word_ok (word e) = true) (GameLoop.p_data st).

(** A pattern as the prompt of the interactive game accepts it: five
    characters among 'B', 'G' and 'Y'. *)
Definition pattern_ok (result_pattern : list ascii) : Prop :=
  length result_pattern = WORDLE_WORD_LENGTH
  /\ Forall colour result_pattern.

(* ===================================================================== *)
(** * Part II: properties *)
(* ===================================================================== *)

(** ** Order facts on binary64 values

    [<] on doubles is asymmetric and transitive; on numbers it is also
    negatively transitive (a NaN compares false with everything). *)

Module FloatOrder.

Ltac compare_cases :=
  change (Pos.compare_cont Eq) with Pos.compare;
  repeat match goal with
         | |- context [(?a ?= ?b)%Z] => destruct (Z.compare_spec a b)
         | |- context [(?a ?= ?b)%positive] => destruct (Pos.compare_spec a b)
         end;
  cbn; try congruence; try (intros; lia).

Lemma SFltb_asym x y : SFltb x y = true -> SFltb y x = false.
Proof.
  unfold SFltb.
  destruct x as [sx|sx| |sx mx ex], y as [sy|sy| |sy my ey];
    try destruct sx; try destruct sy; cbn; try congruence; compare_cases.
Qed.

Lemma SFltb_neg_trans x y z :
  y <> S754_nan ->
  SFltb x y = false -> SFltb y z = false -> SFltb x z = false.
Proof.
  unfold SFltb. intros Hy.
  destruct x as [sx|sx| |sx mx ex], y as [sy|sy| |sy my ey],
           z as [sz|sz| |sz mz ez];
    try congruence;
    try destruct sx; try destruct sy; try destruct sz;
    cbn; try congruence; compare_cases.
Qed.

Lemma SFltb_trans x y z :
  SFltb x y = true -> SFltb y z = true -> SFltb x z = true.
Proof.
  unfold SFltb.
  destruct x as [sx|sx| |sx mx ex], y as [sy|sy| |sy my ey],
           z as [sz|sz| |sz mz ez];
    try destruct sx; try destruct sy; try destruct sz;
    cbn; try congruence; compare_cases.
Qed.

Lemma ltb_asym x y : PrimFloat.ltb x y = true -> PrimFloat.ltb y x = false.
Proof. rewrite !FloatAxioms.ltb_spec. apply SFltb_asym. Qed.

Lemma is_nan_spec x : PrimFloat.is_nan x = false -> Prim2SF x <> S754_nan.
Proof.
  unfold PrimFloat.is_nan. rewrite FloatAxioms.eqb_spec. intros H Hn.
  rewrite Hn in H. discriminate.
Qed.

Lemma ltb_neg_trans x y z :
  PrimFloat.is_nan y = false ->
  PrimFloat.ltb x y = false -> PrimFloat.ltb y z = false ->
  PrimFloat.ltb x z = false.
Proof.
  intros Hy. rewrite !FloatAxioms.ltb_spec. apply SFltb_neg_trans, is_nan_spec, Hy.
Qed.

Lemma ltb_trans x y z :
  PrimFloat.ltb x y = true -> PrimFloat.ltb y z = true ->
  PrimFloat.ltb x z = true.
Proof. rewrite !FloatAxioms.ltb_spec. apply SFltb_trans. Qed.

End FloatOrder.

Module CArrayFacts.
Import CArray.

Lemma length_set a i v : length (set a i v) = length a.
Proof. unfold set. case_decide; [apply length_insert | reflexivity]. Qed.

Lemma length_zeros n : length (zeros n) = n.
Proof. apply length_replicate. Qed.

Lemma get_zeros n i : get (zeros n) i = 0.
Proof.
  unfold get, zeros. case_decide; [|reflexivity].
  destruct (decide (Z.to_nat i < n)%nat) as [Hlt|Hge].
  - rewrite lookup_replicate_2 by exact Hlt. reflexivity.
  - rewrite lookup_ge_None_2; [reflexivity|].
    rewrite length_replicate. lia.
Qed.

Lemma get_set_eq a i v :
  0 <= i < Z.of_nat (length a) -> get (set a i v) i = v.
Proof.
  intros [H0 Hlen]. unfold get, set. rewrite !decide_True by assumption.
  rewrite list_lookup_insert_eq by lia. reflexivity.
Qed.

Lemma get_set_ne a i j v : i <> j -> get (set a i v) j = get a j.
Proof.
  intros Hne. unfold get, set.
  destruct (decide (0 <= j)) as [Hj|Hj]; [|reflexivity].
  destruct (decide (0 <= i)) as [Hi|Hi]; [|reflexivity].
  rewrite list_lookup_insert_ne; [reflexivity|lia].
Qed.

Lemma set_commute a i j v w :
  i <> j -> set (set a i v) j w = set (set a j w) i v.
Proof.
  intros Hne. unfold set.
  destruct (decide (0 <= j)), (decide (0 <= i)); try reflexivity.
  apply list_insert_insert_ne. lia.
Qed.

End CArrayFacts.

(** ** The integer encoder refines the pattern generator *)

Module FeedbackFacts.
Import FeedbackCodec CArrayFacts.

Lemma color_digit_range c : 0 <= color_digit c <= 2.
Proof. unfold color_digit. repeat case_match; lia. Qed.

Lemma color_digit_green c : color_digit c = 2 <-> c = "G"%char.
Proof.
  unfold color_digit. destruct (Ascii.eqb_spec c "G") as [->|Hne].
  - tauto.
  - destruct (Ascii.eqb c "Y"); split; intros; (lia || contradiction).
Qed.

(** Reading the [states] array that mirrors a pattern buffer. *)
Lemma get_states pat i :
  CArray.get (color_digit <$> pat) (Z.of_nat i) = color_digit (char_at pat i).
Proof.
  unfold CArray.get, char_at. rewrite decide_True by lia.
  rewrite Nat2Z.id, list_lookup_fmap, nth_lookup.
  destruct (pat !! i); reflexivity.
Qed.

Lemma set_states pat i c :
  CArray.set (color_digit <$> pat) (Z.of_nat i) (color_digit c)
  = color_digit <$> (<[i := c]> pat).
Proof.
  unfold CArray.set. rewrite decide_True by lia.
  rewrite Nat2Z.id, list_fmap_insert. reflexivity.
Qed.

Lemma index_greens_step_mirror guess answer st i :
  index_greens_step guess answer (mirror st) i
  = mirror (greens_step guess answer st i).
Proof.
  destruct st as [pat cnt]. unfold mirror, index_greens_step, greens_step.
  cbn [fst snd]. destruct (Ascii.eqb _ _); cbn [fst snd]; [|reflexivity].
  f_equal. apply (set_states pat i "G").
Qed.

Lemma index_yellows_step_mirror guess st i :
  index_yellows_step guess (mirror st) i
  = mirror (yellows_step guess st i).
Proof.
  destruct st as [pat cnt]. unfold mirror, index_yellows_step, yellows_step.
  cbn [fst snd]. rewrite get_states.
  assert (Hg : (color_digit (char_at pat i) =? 2)
               = Ascii.eqb (char_at pat i) "G").
  { destruct (Ascii.eqb_spec (char_at pat i) "G") as [He|Hne].
    - rewrite He. reflexivity.
    - apply Z.eqb_neq. rewrite color_digit_green. exact Hne. }
  rewrite Hg. destruct (Ascii.eqb _ _); cbn [negb fst snd]; [reflexivity|].
  destruct (0 <? _); cbn [fst snd]; [|reflexivity].
  f_equal. apply (set_states pat i "Y").
Qed.

Lemma fold_greens_mirror guess answer ps st :
  fold_left (index_greens_step guess answer) ps (mirror st)
  = mirror (fold_left (greens_step guess answer) ps st).
Proof.
  revert st. induction ps as [|i ps IH]; intros st; [reflexivity|].
  cbn [fold_left]. rewrite index_greens_step_mirror. apply IH.
Qed.

Lemma fold_yellows_mirror guess ps st :
  fold_left (index_yellows_step guess) ps (mirror st)
  = mirror (fold_left (yellows_step guess) ps st).
Proof.
  revert st. induction ps as [|i ps IH]; intros st; [reflexivity|].
  cbn [fold_left]. rewrite index_yellows_step_mirror. apply IH.
Qed.

(** The third loop computes the base-3 value of the mirrored pattern. *)
Lemma encode_pattern pat :
  fst (fold_left (encode_step (color_digit <$> pat)) (seq 0 5) (0, 1))
  = pattern_value pat.
Proof.
  unfold pattern_value, positions, WORDLE_WORD_LENGTH.
  cbn [seq fold_left fold_right encode_step fst].
  rewrite !get_states.
  change (Z.of_nat 0) with 0; change (Z.of_nat 1) with 1;
  change (Z.of_nat 2) with 2; change (Z.of_nat 3) with 3;
  change (Z.of_nat 4) with 4.
  lia.
Qed.

Lemma pattern_value_range pat : 0 <= pattern_value pat <= 242.
Proof.
  unfold pattern_value, positions, WORDLE_WORD_LENGTH.
  cbn [seq fold_right].
  pose proof (color_digit_range (char_at pat 0)).
  pose proof (color_digit_range (char_at pat 1)).
  pose proof (color_digit_range (char_at pat 2)).
  pose proof (color_digit_range (char_at pat 3)).
  pose proof (color_digit_range (char_at pat 4)).
  change (Z.of_nat 0) with 0; change (Z.of_nat 1) with 1;
  change (Z.of_nat 2) with 2; change (Z.of_nat 3) with 3;
  change (Z.of_nat 4) with 4.
  lia.
Qed.

Lemma compute_feedback_index_pattern guess answer :
  compute_feedback_index guess answer
  = pattern_value (get_feedback_pattern guess answer).
Proof.
  unfold compute_feedback_index, get_feedback_pattern.
  change (CArray.zeros 5, CArray.zeros 26)
    with (mirror (replicate WORDLE_WORD_LENGTH "B"%char, CArray.zeros 26)).
  change (seq 0 5) with positions.
  rewrite fold_greens_mirror, fold_yellows_mirror.
  apply encode_pattern.
Qed.

End FeedbackFacts.

(** ** Yellow marks never exceed the unmatched occurrences *)

Module YellowFacts.
Import FeedbackCodec CArrayFacts.

Lemma count_pos_nil f : count_pos f [] = 0.
Proof. reflexivity. Qed.

Lemma count_pos_cons f i ps :
  count_pos f (i :: ps) = (if f i then 1 else 0) + count_pos f ps.
Proof.
  unfold count_pos. cbn [List.filter]. destruct (f i); cbn [length]; lia.
Qed.

Lemma count_pos_nonneg f ps : 0 <= count_pos f ps.
Proof. unfold count_pos. lia. Qed.

Lemma count_pos_ext f g ps :
  (forall i, In i ps -> f i = g i) -> count_pos f ps = count_pos g ps.
Proof.
  induction ps as [|i ps IH]; intros Hfg; [reflexivity|].
  rewrite !count_pos_cons, (Hfg i) by (left; reflexivity).
  rewrite IH; [reflexivity|]. intros j Hj. apply Hfg. right. exact Hj.
Qed.

Lemma char_at_insert_ne (pat : list ascii) i j c :
  i <> j -> char_at (<[i := c]> pat) j = char_at pat j.
Proof.
  intros Hne. unfold char_at.
  rewrite !nth_lookup, list_lookup_insert_ne by exact Hne. reflexivity.
Qed.

Lemma char_at_insert_eq (pat : list ascii) i c :
  (i < length pat)%nat -> char_at (<[i := c]> pat) i = c.
Proof.
  intros Hlt. unfold char_at.
  rewrite nth_lookup, list_lookup_insert_eq by exact Hlt. reflexivity.
Qed.

Lemma letter_index_inj c d : letter_index c = letter_index d -> c = d.
Proof.
  unfold letter_index, char_code. intros H.
  rewrite <- (ascii_nat_embedding c), <- (ascii_nat_embedding d).
  f_equal. lia.
Qed.

Lemma get_in_range a i : CArray.get a i <> 0 -> 0 <= i < Z.of_nat (length a).
Proof.
  unfold CArray.get. case_decide as Hi; [|congruence].
  destruct (a !! Z.to_nat i) eqn:Hl; [|cbn; congruence].
  intros _. apply lookup_lt_Some in Hl. lia.
Qed.

(** Reading after [a[i] = get a i + d]. *)
Lemma get_bump a i d k :
  CArray.get (CArray.set a i (CArray.get a i + d)) k
  = CArray.get a k
    + (if decide (k = i /\ 0 <= i < Z.of_nat (length a)) then d else 0).
Proof.
  case_decide as Hd.
  - destruct Hd as [-> Hr]. rewrite get_set_eq by exact Hr. reflexivity.
  - destruct (decide (k = i)) as [->|Hne].
    + assert (Hout : ~ 0 <= i < Z.of_nat (length a)) by tauto.
      unfold CArray.set, CArray.get at 1.
      destruct (decide (0 <= i)) as [Hi|Hi].
      * rewrite list_insert_ge by lia. unfold CArray.get.
        rewrite decide_True by exact Hi. lia.
      * unfold CArray.get. rewrite decide_False by exact Hi. lia.
    + rewrite get_set_ne by congruence. lia.
Qed.

Lemma get_incr a i k :
  CArray.get (CArray.incr a i) k
  = CArray.get a k
    + (if decide (k = i /\ 0 <= i < Z.of_nat (length a)) then 1 else 0).
Proof. apply get_bump. Qed.

Lemma get_decr a i k :
  CArray.get (CArray.decr a i) k
  = CArray.get a k
    + (if decide (k = i /\ 0 <= i < Z.of_nat (length a)) then -1 else 0).
Proof. apply (get_bump a i (-1) k). Qed.

(** First loop: what it leaves in [answer_char_counts] and in the
    pattern buffer. *)
Lemma fold_greens_inv guess answer c ps :
  forall pat cnt,
    length cnt = 26%nat ->
    0 <= letter_index c < 26 ->
    (forall k, 0 <= CArray.get cnt k) ->
    (forall j, char_at pat j <> "Y"%char) ->
    let st' := fold_left (greens_step guess answer) ps (pat, cnt) in
    length (snd st') = 26%nat
    /\ length (fst st') = length pat
    /\ (forall k, 0 <= CArray.get (snd st') k)
    /\ (forall j, char_at (fst st') j <> "Y"%char)
    /\ CArray.get (snd st') (letter_index c)
       = CArray.get cnt (letter_index c)
         + count_pos (fun i => Ascii.eqb (char_at answer i) c
                       && negb (Ascii.eqb (char_at guess i) (char_at answer i)))
                     ps.
Proof.
  induction ps as [|i ps IH]; intros pat cnt Hlen Hc Hnn Hny.
  - cbn. rewrite count_pos_nil. repeat split; auto; lia.
  - cbn [fold_left]. rewrite count_pos_cons. cbv beta.
    destruct (Ascii.eqb (char_at guess i) (char_at answer i)) eqn:Hg.
    + replace (greens_step guess answer (pat, cnt) i)
        with (<[i := "G"%char]> pat, cnt)
        by (unfold greens_step; rewrite Hg; reflexivity).
      specialize (IH (<[i := "G"%char]> pat) cnt Hlen Hc Hnn).
      destruct IH as (H1 & H2 & H3 & H4 & H5).
      { intros j. destruct (decide (i = j)) as [<-|Hne].
        - destruct (decide (i < length pat)%nat) as [Hlt|Hge].
          + rewrite char_at_insert_eq by exact Hlt. discriminate.
          + rewrite list_insert_ge by lia. apply Hny.
        - rewrite char_at_insert_ne by exact Hne. apply Hny. }
      rewrite length_insert in H2.
      repeat split; auto. rewrite H5, andb_false_r. lia.
    + replace (greens_step guess answer (pat, cnt) i)
        with (pat, CArray.incr cnt (letter_index (char_at answer i)))
        by (unfold greens_step; rewrite Hg; reflexivity).
      specialize (IH pat (CArray.incr cnt (letter_index (char_at answer i)))).
      destruct IH as (H1 & H2 & H3 & H4 & H5); auto.
      { unfold CArray.incr. rewrite length_set. exact Hlen. }
      { intros k. rewrite get_incr. specialize (Hnn k). case_decide; lia. }
      repeat split; auto. rewrite H5, get_incr, andb_true_r.
      destruct (Ascii.eqb_spec (char_at answer i) c) as [->|Hne].
      * rewrite decide_True by (split; [reflexivity|lia]). lia.
      * rewrite decide_False; [lia|]. intros [He _].
        apply Hne. symmetry. apply letter_index_inj. exact He.
Qed.

(** Second loop: every Yellow it writes consumes one unit of the tally. *)
Lemma fold_yellows_inv guess c ps :
  List.NoDup ps ->
  forall pat cnt,
    (forall j, In j ps -> (j < length pat)%nat /\ char_at pat j <> "Y"%char) ->
    (forall k, 0 <= CArray.get cnt k) ->
    let st' := fold_left (yellows_step guess) ps (pat, cnt) in
    (forall k, 0 <= CArray.get (snd st') k)
    /\ (forall j, ~ In j ps -> char_at (fst st') j = char_at pat j)
    /\ count_pos (fun i => Ascii.eqb (char_at (fst st') i) "Y"%char
                           && Ascii.eqb (char_at guess i) c) ps
       + CArray.get (snd st') (letter_index c)
       = CArray.get cnt (letter_index c).
Proof.
  induction 1 as [|i ps Hni Hnd IH]; intros pat cnt Hps Hnn.
  - cbn. rewrite count_pos_nil. repeat split; auto.
  - cbn [fold_left]. rewrite count_pos_cons. cbv beta.
    destruct (Hps i) as [Hlt HnY]; [left; reflexivity|].
    set (li := letter_index (char_at guess i)).
    destruct (negb (Ascii.eqb (char_at pat i) "G")
              && (0 <? CArray.get cnt li)) eqn:Hcase.
    + apply andb_true_iff in Hcase as [Hng Hpos].
      replace (yellows_step guess (pat, cnt) i)
        with (<[i := "Y"%char]> pat, CArray.decr cnt li)
        by (unfold yellows_step; fold li; rewrite Hng, Hpos; reflexivity).
      apply Z.ltb_lt in Hpos.
      assert (Hr : 0 <= li < Z.of_nat (length cnt)) by (apply get_in_range; lia).
      specialize (IH (<[i := "Y"%char]> pat) (CArray.decr cnt li)).
      destruct IH as (H1 & H2 & H3).
      { intros j Hj. rewrite length_insert.
        assert (i <> j) by (intros ->; contradiction).
        rewrite char_at_insert_ne by assumption. apply Hps. right. exact Hj. }
      { intros k. rewrite get_decr. specialize (Hnn k).
        case_decide as Hk; [destruct Hk as [-> _]|]; lia. }
      repeat split; auto.
      * intros j Hj. rewrite H2 by (intros Hin; apply Hj; right; exact Hin).
        apply char_at_insert_ne. intros ->. apply Hj. left. reflexivity.
      * rewrite (H2 i Hni), char_at_insert_eq by exact Hlt.
        rewrite Ascii.eqb_refl. cbn [andb].
        rewrite get_decr in H3.
        destruct (Ascii.eqb_spec (char_at guess i) c) as [He|Hne].
        -- subst c. fold li in H3 |- *.
           rewrite decide_True in H3 by (split; [reflexivity|exact Hr]). lia.
        -- rewrite decide_False in H3; [lia|]. intros [He _].
           apply Hne. apply letter_index_inj. symmetry. exact He.
    + replace (yellows_step guess (pat, cnt) i) with (pat, cnt)
        by (unfold yellows_step; fold li;
            destruct (negb _); [cbn [andb] in Hcase; rewrite Hcase|];
            reflexivity).
      specialize (IH pat cnt).
      destruct IH as (H1 & H2 & H3); auto.
      { intros j Hj. apply Hps. right. exact Hj. }
      repeat split; auto.
      * intros j Hj. apply H2. intros Hin. apply Hj. right. exact Hin.
      * rewrite (H2 i Hni).
        destruct (Ascii.eqb_spec (char_at pat i) "Y") as [He|_];
          [contradiction|]. cbn [andb]. lia.
Qed.

Lemma yellow_le_unmatched guess answer c :
  yellow_count guess (get_feedback_pattern guess answer) c
  <= unmatched_count guess answer c.
Proof.
  unfold yellow_count, unmatched_count, get_feedback_pattern.
  set (init_pat := replicate WORDLE_WORD_LENGTH "B"%char).
  assert (Hinit : forall j, char_at init_pat j <> "Y"%char).
  { intros j. unfold char_at, init_pat. rewrite nth_lookup.
    destruct (replicate _ _ !! j) eqn:Hl; cbn; [|discriminate].
    apply lookup_replicate_1 in Hl as [-> _]. discriminate. }
  assert (Hz : forall k, 0 <= CArray.get (CArray.zeros 26) k).
  { intros k. rewrite get_zeros. lia. }
  destruct (fold_left (greens_step guess answer) positions
              (init_pat, CArray.zeros 26)) as [pat1 cnt1] eqn:Hgreens.
  assert (Hg : length pat1 = WORDLE_WORD_LENGTH
               /\ (forall k, 0 <= CArray.get cnt1 k)
               /\ (forall j, char_at pat1 j <> "Y"%char)
               /\ CArray.get cnt1 (letter_index c)
                  <= count_pos (fun i => Ascii.eqb (char_at answer i) c
                       && negb (Ascii.eqb (char_at guess i) (char_at answer i)))
                     positions).
  { destruct (decide (0 <= letter_index c < 26)) as [Hc|Hc].
    - pose proof (fold_greens_inv guess answer c positions init_pat
                    (CArray.zeros 26) (length_zeros 26) Hc Hz Hinit) as H.
      cbv zeta in H. rewrite Hgreens in H. cbn [fst snd] in H.
      destruct H as (H1 & H2 & H3 & H4 & H5).
      split; [|split; [|split]]; auto.
      rewrite H5, get_zeros. lia.
    - pose proof (fold_greens_inv guess answer "A" positions init_pat
                    (CArray.zeros 26) (length_zeros 26)
                    ltac:(change (letter_index "A"%char) with 0; lia)
                    Hz Hinit) as H.
      cbv zeta in H. rewrite Hgreens in H. cbn [fst snd] in H.
      destruct H as (H1 & H2 & H3 & H4 & _).
      split; [|split; [|split]]; auto.
      destruct (Z.eq_dec (CArray.get cnt1 (letter_index c)) 0) as [->|Hnz].
      + apply count_pos_nonneg.
      + apply get_in_range in Hnz. rewrite H1 in Hnz. lia. }
  destruct Hg as (Hlen & Hnn & HnY & Hle).
  pose proof (fold_yellows_inv guess c positions (List.seq_NoDup _ 0) pat1 cnt1)
    as Hy.
  cbv zeta in Hy. destruct Hy as (Hy1 & _ & Hy3); auto.
  { intros j Hj. split; [|apply HnY].
    apply in_seq in Hj. unfold WORDLE_WORD_LENGTH in *. lia. }
  specialize (Hy1 (letter_index c)). lia.
Qed.

End YellowFacts.

(** ** Loops that rewrite a prefix of an array *)

Module PrefixFacts.

Lemma length_update_prefix {A} count (f : A -> A) (p : list A) :
  length (update_prefix count f p) = length p.
Proof.
  unfold update_prefix.
  rewrite length_app, length_map, <- length_app, firstn_skipn. reflexivity.
Qed.

Lemma lookup_update_prefix {A} count (f : A -> A) (p : list A) (i : nat) :
  update_prefix count f p !! i
  = (if decide (Z.of_nat i < count) then f else id) <$> p !! i.
Proof.
  unfold update_prefix. set (n := Z.to_nat count).
  destruct (decide (Z.of_nat i < count)) as [Hlt|Hge].
  - destruct (p !! i) as [x|] eqn:Hp.
    + apply lookup_app_l_Some.
      change (List.map f (take n p)) with (f <$> take n p).
      rewrite list_lookup_fmap, lookup_take_lt, Hp by lia. reflexivity.
    + apply lookup_ge_None in Hp. apply lookup_ge_None.
      rewrite length_app, length_map, <- length_app, firstn_skipn. exact Hp.
  - destruct (decide (length p <= i)%nat) as [Hout|Hin].
    + rewrite (lookup_ge_None_2 p i Hout). apply lookup_ge_None.
      rewrite length_app, length_map, <- length_app, firstn_skipn. exact Hout.
    + rewrite lookup_app_r; rewrite length_map, length_take; [|lia].
      rewrite lookup_drop. replace (n + (i - n `min` length p))%nat with i by lia.
      destruct (p !! i); reflexivity.
Qed.

End PrefixFacts.

(** ** String comparison *)

Module StringFacts.

Lemma char_code_nonneg c : 0 <= char_code c.
Proof. unfold char_code. lia. Qed.

Lemma char_code_inj c d : char_code c = char_code d -> c = d.
Proof.
  unfold char_code. intros H.
  rewrite <- (ascii_nat_embedding c), <- (ascii_nat_embedding d).
  f_equal. lia.
Qed.

Lemma char_code_zero c : char_code c = 0 <-> c = Ascii.zero.
Proof.
  split; [intros H; apply char_code_inj; exact H | intros ->; reflexivity].
Qed.

Lemma strcmp_refl s : strcmp s s = 0.
Proof.
  induction s as [|c s IH]; [reflexivity|]. cbn.
  rewrite Ascii.eqb_refl. destruct (Ascii.eqb c Ascii.zero); auto.
Qed.

Lemma strcmp_eq s1 s2 :
  c_string s1 -> c_string s2 -> strcmp s1 s2 = 0 -> s1 = s2.
Proof.
  intros H1. revert s2.
  induction H1 as [|c1 s1 Hc1 _ IH]; intros s2 H2 Hcmp;
    destruct H2 as [|c2 s2 Hc2 H2]; cbn in Hcmp.
  - reflexivity.
  - exfalso. apply Hc2, char_code_zero. lia.
  - exfalso. apply Hc1, char_code_zero. lia.
  - destruct (Ascii.eqb_spec c1 c2) as [->|Hne].
    + destruct (Ascii.eqb_spec c2 Ascii.zero) as [Hz|_]; [contradiction|].
      f_equal. apply IH; assumption.
    + exfalso. apply Hne, char_code_inj. lia.
Qed.

Lemma greens_colours guess answer ps st :
  Forall colour (fst st) ->
  Forall colour (fst (fold_left (FeedbackCodec.greens_step guess answer) ps st)).
Proof.
  revert st. induction ps as [|i ps IH]; intros [pat cnt] H; [exact H|].
  cbn [fold_left]. apply IH. unfold FeedbackCodec.greens_step.
  destruct (Ascii.eqb _ _); cbn [fst]; [|exact H].
  apply Forall_insert; [exact H|]. right. left. reflexivity.
Qed.

Lemma yellows_colours guess ps st :
  Forall colour (fst st) ->
  Forall colour (fst (fold_left (FeedbackCodec.yellows_step guess) ps st)).
Proof.
  revert st. induction ps as [|i ps IH]; intros [pat cnt] H; [exact H|].
  cbn [fold_left]. apply IH. unfold FeedbackCodec.yellows_step.
  destruct (negb _); [|exact H]. destruct (0 <? _); cbn [fst]; [|exact H].
  apply Forall_insert; [exact H|]. right. right. reflexivity.
Qed.

Lemma pattern_colours guess answer :
  Forall colour (FeedbackCodec.get_feedback_pattern guess answer).
Proof.
  unfold FeedbackCodec.get_feedback_pattern.
  apply yellows_colours, greens_colours. cbn [fst].
  apply Forall_replicate. left. reflexivity.
Qed.

Lemma pattern_c_string guess answer :
  c_string (FeedbackCodec.get_feedback_pattern guess answer).
Proof.
  unfold c_string. eapply Forall_impl; [apply pattern_colours|].
  intros c [Hc | [Hc | Hc]]; subst c; discriminate.
Qed.

End StringFacts.

(** ** The dictionary filter *)

Lemma set_eliminated_same e : set_eliminated e (is_eliminated e) = e.
Proof. destruct e; reflexivity. Qed.

(** C3: [filter_dictionary_by_constraints] keeps the pool's length and
    rewrites only elimination flags: entry [i] keeps every other field,
    and its flag is set afterwards exactly when it was set before or the
    entry lies among the first [count], and the pattern computed for its
    word differs from the actual feedback.  In particular a flag that was
    set stays set. *)
Theorem filter_marks_exactly_the_inconsistent
    (p_dictionary : list dictionary_entry) (count : Z)
    (guess result_pattern : list ascii) :
  c_string result_pattern ->
  let filtered :=
    SolverLogic.filter_dictionary_by_constraints
      p_dictionary count guess result_pattern in
  length filtered = length p_dictionary
  /\ forall (i : nat) (e : dictionary_entry),
       p_dictionary !! i = Some e ->
       exists e',
         filtered !! i = Some e'
         /\ e' = set_eliminated e (is_eliminated e')
         /\ (is_eliminated e' = true <->
             is_eliminated e = true
             \/ (Z.of_nat i < count
                 /\ FeedbackCodec.get_feedback_pattern guess (word e)
                    <> result_pattern)).
Proof.
  intros Hrp filtered. split.
  - apply PrefixFacts.length_update_prefix.
  - intros i e Hi. unfold filtered, SolverLogic.filter_dictionary_by_constraints.
    rewrite PrefixFacts.lookup_update_prefix, Hi. cbn [fmap option_fmap option_map].
    destruct (decide (Z.of_nat i < count)) as [Hlt|Hge].
    + destruct (is_eliminated e) eqn:Hel.
      * exists e. rewrite Hel. split; [reflexivity|]. split.
        -- rewrite <- Hel. symmetry. apply set_eliminated_same.
        -- tauto.
      * destruct (strcmp _ _ =? 0) eqn:Hcmp; cbn [negb].
        -- exists e. rewrite Hel. split; [reflexivity|]. split.
           ++ rewrite <- Hel. symmetry. apply set_eliminated_same.
           ++ apply Z.eqb_eq in Hcmp.
              apply StringFacts.strcmp_eq in Hcmp;
                [|apply StringFacts.pattern_c_string|exact Hrp].
              split; [discriminate|]. intros [Hf|[_ Hf]]; [discriminate|].
              contradiction.
        -- exists (set_eliminated e true). split; [reflexivity|]. split.
           ++ reflexivity.
           ++ split; [|reflexivity]. intros _. right. split; [exact Hlt|].
              intros Heq. rewrite Heq, StringFacts.strcmp_refl in Hcmp.
              discriminate.
    + exists e. split; [reflexivity|]. split.
      * symmetry. apply set_eliminated_same.
      * split; [tauto|]. intros [H|[H _]]; [exact H|contradiction].
Qed.

Lemma filter_marks_exactly_the_inconsistent_witness :
  let pool := [sample_entry "TRACE" 0 50 "S" "P" false false;
               sample_entry "CRATE" 0 50 "S" "N" false false;
               sample_entry "SPEED" 0 50 "S" "P" true true] in
  let filtered :=
    SolverLogic.filter_dictionary_by_constraints
      pool 3 (word_of "CRANE") (word_of "YGGBG") in
  length filtered = length pool
  /\ forall (i : nat) (e : dictionary_entry),
       pool !! i = Some e ->
       exists e',
         filtered !! i = Some e'
         /\ e' = set_eliminated e (is_eliminated e')
         /\ (is_eliminated e' = true <->
             is_eliminated e = true
             \/ (Z.of_nat i < 3
                 /\ FeedbackCodec.get_feedback_pattern (word_of "CRANE") (word e)
                    <> word_of "YGGBG")).
Proof.
  apply (filter_marks_exactly_the_inconsistent _ 3 (word_of "CRANE") (word_of "YGGBG")).
  unfold c_string. repeat constructor; discriminate.
Defined.

(** C10: filtering on the pattern that an entry's own word produces never
    eliminates that entry: for a non-eliminated entry [e] at index [i] of
    the pool, after [filter_dictionary_by_constraints] is run with
    [get_feedback_pattern guess (word e)] as the result pattern, index [i]
    still holds [e], with its flag clear. *)
Theorem filter_keeps_the_true_answer
    (p_dictionary : list dictionary_entry) (count : Z) (guess : list ascii)
    (i : nat) (e : dictionary_entry) :
  p_dictionary !! i = Some e ->
  is_eliminated e = false ->
  exists e',
    SolverLogic.filter_dictionary_by_constraints p_dictionary count guess
      (FeedbackCodec.get_feedback_pattern guess (word e)) !! i = Some e'
    /\ is_eliminated e' = false
    /\ e' = e.
Proof.
  intros Hi Hel. exists e. split; [|split; [exact Hel|reflexivity]].
  unfold SolverLogic.filter_dictionary_by_constraints.
  rewrite PrefixFacts.lookup_update_prefix, Hi.
  cbn [fmap option_fmap option_map].
  case_decide; [|reflexivity].
  rewrite Hel, StringFacts.strcmp_refl. reflexivity.
Qed.

Lemma filter_keeps_the_true_answer_witness :
  exists e',
    SolverLogic.filter_dictionary_by_constraints
      [sample_entry "TRACE" 0 50 "S" "P" false false;
       sample_entry "CRATE" 0 50 "S" "N" false false]
      2 (word_of "CRANE")
      (FeedbackCodec.get_feedback_pattern
         (word_of "CRANE")
         (word (sample_entry "CRATE" 0 50 "S" "N" false false))) !! 1%nat
    = Some e'
    /\ is_eliminated e' = false
    /\ e' = sample_entry "CRATE" 0 50 "S" "N" false false.
Proof.
  apply (filter_keeps_the_true_answer _ 2 (word_of "CRANE") 1%nat);
    reflexivity.
Defined.

(** ** The feedback codec *)

(** C4: for a guess and an answer of five upper-case letters and any
    letter, the positions [get_feedback_pattern] marks Yellow for that
    letter are at most the occurrences of the letter in the answer that
    are not matched Green; and "SPEED" against "ABIDE" has exactly one
    Yellow E. *)
Theorem yellow_marks_bounded_by_unmatched_letters :
  (forall (guess answer : list ascii) (c : ascii),
      word_ok guess = true -> word_ok answer = true ->
      yellow_count guess (FeedbackCodec.get_feedback_pattern guess answer) c
      <= unmatched_count guess answer c)
  /\ yellow_count (word_of "SPEED")
       (FeedbackCodec.get_feedback_pattern (word_of "SPEED") (word_of "ABIDE"))
       "E" = 1.
Proof.
  split.
  - intros guess answer c _ _. apply YellowFacts.yellow_le_unmatched.
  - reflexivity.
Qed.

Lemma yellow_marks_bounded_by_unmatched_letters_witness :
  yellow_count (word_of "GEESE")
    (FeedbackCodec.get_feedback_pattern (word_of "GEESE") (word_of "ELDER"))
    "E"
  <= unmatched_count (word_of "GEESE") (word_of "ELDER") "E".
Proof.
  apply (proj1 yellow_marks_bounded_by_unmatched_letters
           (word_of "GEESE") (word_of "ELDER") "E"%char);
    reflexivity.
Defined.

(** C5: for a guess and an answer of five upper-case letters,
    [compute_feedback_index] returns a value in [0, 242] that is the sum
    over the positions [i] of [d_i * 3^i], [d_i] being the digit (Black 0,
    Yellow 1, Green 2) of the colour [get_feedback_pattern] gives position
    [i]; [lookahead_feedback_index] returns the same value.  Both are
    functions, so equal inputs give equal outputs. *)
Theorem feedback_index_encodes_the_pattern (guess answer : list ascii) :
  word_ok guess = true -> word_ok answer = true ->
  0 <= FeedbackCodec.compute_feedback_index guess answer <= 242
  /\ FeedbackCodec.compute_feedback_index guess answer
     = pattern_value (FeedbackCodec.get_feedback_pattern guess answer)
  /\ Lookahead.lookahead_feedback_index guess answer
     = FeedbackCodec.compute_feedback_index guess answer.
Proof.
  intros _ _. rewrite FeedbackFacts.compute_feedback_index_pattern.
  split; [apply FeedbackFacts.pattern_value_range|].
  split; [reflexivity|].
  rewrite <- FeedbackFacts.compute_feedback_index_pattern. reflexivity.
Qed.

Lemma feedback_index_encodes_the_pattern_witness :
  0 <= FeedbackCodec.compute_feedback_index (word_of "CRANE") (word_of "TRACE")
    <= 242
  /\ FeedbackCodec.compute_feedback_index (word_of "CRANE") (word_of "TRACE")
     = pattern_value
         (FeedbackCodec.get_feedback_pattern (word_of "CRANE") (word_of "TRACE"))
  /\ Lookahead.lookahead_feedback_index (word_of "CRANE") (word_of "TRACE")
     = FeedbackCodec.compute_feedback_index (word_of "CRANE") (word_of "TRACE").
Proof.
  apply (feedback_index_encodes_the_pattern (word_of "CRANE") (word_of "TRACE"));
    reflexivity.
Defined.

(** ** Histograms *)

Module HistogramFacts.
Import CArrayFacts.

Lemma incr_comm a i j :
  CArray.incr (CArray.incr a i) j = CArray.incr (CArray.incr a j) i.
Proof.
  destruct (decide (i = j)) as [->|Hne]; [reflexivity|].
  unfold CArray.incr. rewrite !get_set_ne by congruence.
  apply set_commute. exact Hne.
Qed.

(** Counting into buckets does not depend on the order of the items. *)
Lemma fold_incr_perm {A} (f : A -> Z) (l1 l2 : list A) :
  Permutation l1 l2 ->
  forall init,
    fold_left (fun bins a => CArray.incr bins (f a)) l1 init
    = fold_left (fun bins a => CArray.incr bins (f a)) l2 init.
Proof.
  induction 1 as [|x l1 l2 _ IH|x y l|l1 l2 l3 _ IH1 _ IH2]; intros init.
  - reflexivity.
  - cbn [fold_left]. apply IH.
  - cbn [fold_left]. rewrite incr_comm. reflexivity.
  - rewrite IH1. apply IH2.
Qed.

Lemma length_fold_incr {A} (f : A -> Z) (l : list A) init :
  length (fold_left (fun bins a => CArray.incr bins (f a)) l init)
  = length init.
Proof.
  revert init. induction l as [|a l IH]; intros init; [reflexivity|].
  cbn [fold_left]. rewrite IH. apply length_set.
Qed.

(** Bucket [k] of the histogram counts the items that map to [k]. *)
Lemma get_fold_incr {A} (f : A -> Z) (l : list A) init k :
  0 <= k < Z.of_nat (length init) ->
  CArray.get (fold_left (fun bins a => CArray.incr bins (f a)) l init) k
  = CArray.get init k
    + Z.of_nat (length (List.filter (fun a => f a =? k) l)).
Proof.
  revert init. induction l as [|a l IH]; intros init Hk.
  - cbn. lia.
  - cbn [fold_left List.filter]. rewrite IH by (unfold CArray.incr; rewrite length_set; exact Hk).
    rewrite YellowFacts.get_incr.
    destruct (Z.eqb_spec (f a) k) as [->|Hne].
    + rewrite decide_True by (split; [reflexivity|exact Hk]). cbn [length]. lia.
    + rewrite decide_False by (intros [He _]; congruence). lia.
Qed.

End HistogramFacts.

(** ** The entropy engine *)

Module EntropyFacts.

Lemma tally_patterns_perm guess l1 l2 :
  Permutation l1 l2 -> tally_patterns guess l1 = tally_patterns guess l2.
Proof.
  intros Hp. unfold tally_patterns.
  apply (HistogramFacts.fold_incr_perm
           (fun a => FeedbackCodec.compute_feedback_index guess (word a))).
  exact Hp.
Qed.

Lemma firstn_length_all {A} (l : list A) :
  firstn (Z.to_nat (Z.of_nat (length l))) l = l.
Proof. rewrite Nat2Z.id. apply firstn_all. Qed.

(** The counting loop of [calculate_entropy_on_dictionary]. *)
Lemma valid_count_length (l : list dictionary_entry) (n : Z) :
  fold_left
    (fun validCount (e : dictionary_entry) =>
       if negb (is_eliminated e) then validCount + 1 else validCount) l n
  = n + Z.of_nat (length (valid_entries l)).
Proof.
  revert n. induction l as [|e l IH]; intros n; [cbn; lia|].
  cbn [fold_left valid_entries List.filter]. rewrite IH. unfold valid_entries.
  destruct (negb (is_eliminated e)); cbn [length]; lia.
Qed.

End EntropyFacts.

(** C8: [calculate_entropy_internal] returns 0 on an answer list of zero
    or one entry, and on two answer lists that are permutations of each
    other it returns the same value. *)
Theorem entropy_zero_on_small_sets_and_order_independent
    (log : float -> float) (guess : list ascii) :
  (forall answers : list dictionary_entry,
      (length answers <= 1)%nat ->
      calculate_entropy_internal log guess answers (Z.of_nat (length answers))
      = 0%float)
  /\ (forall answers1 answers2 : list dictionary_entry,
         Permutation answers1 answers2 ->
         calculate_entropy_internal log guess answers1
           (Z.of_nat (length answers1))
         = calculate_entropy_internal log guess answers2
             (Z.of_nat (length answers2))).
Proof.
  split.
  - intros answers Hlen. unfold calculate_entropy_internal.
    replace (Z.of_nat (length answers) <=? 1) with true; [reflexivity|].
    symmetry. apply Z.leb_le. lia.
  - intros answers1 answers2 Hp. unfold calculate_entropy_internal.
    rewrite !EntropyFacts.firstn_length_all.
    rewrite (Permutation_length Hp).
    rewrite (EntropyFacts.tally_patterns_perm guess answers1 answers2 Hp).
    reflexivity.
Qed.

Lemma entropy_zero_on_small_sets_and_order_independent_witness :
  calculate_entropy_internal sample_log (word_of "CRANE")
    [sample_entry "TRACE" 0 50 "S" "P" false false] 1
  = 0%float
  /\ calculate_entropy_internal sample_log (word_of "CRANE")
       [sample_entry "TRACE" 0 50 "S" "P" false false;
        sample_entry "CRATE" 0 50 "S" "N" false false] 2
     = calculate_entropy_internal sample_log (word_of "CRANE")
         [sample_entry "CRATE" 0 50 "S" "N" false false;
          sample_entry "TRACE" 0 50 "S" "P" false false] 2.
Proof.
  split.
  - apply (proj1 (entropy_zero_on_small_sets_and_order_independent
                    sample_log (word_of "CRANE"))
             [sample_entry "TRACE" 0 50 "S" "P" false false]).
    cbn. lia.
  - apply (proj2 (entropy_zero_on_small_sets_and_order_independent
                    sample_log (word_of "CRANE"))
             [sample_entry "TRACE" 0 50 "S" "P" false false;
              sample_entry "CRATE" 0 50 "S" "N" false false]
             [sample_entry "CRATE" 0 50 "S" "N" false false;
              sample_entry "TRACE" 0 50 "S" "P" false false]).
    apply perm_swap.
Defined.

(** C6, as the code has it: [calculate_entropy_on_dictionary] run over a
    whole pool (the allocation succeeding) leaves the pool untouched when
    no entry is valid; otherwise it keeps the length, sets the entropy of
    every eliminated entry to 0 and the entropy of every other entry to
    [calculate_entropy_internal] of its word against the non-eliminated
    entries of the pool, and changes no other field. *)
Theorem entropy_recomputed_against_the_valid_entries
    (log : float -> float) (pool : list dictionary_entry) :
  let recomputed :=
    calculate_entropy_on_dictionary log true pool (Z.of_nat (length pool)) in
  let valid := valid_entries pool in
  (valid = [] -> recomputed = pool)
  /\ (valid <> [] ->
      length recomputed = length pool
      /\ forall (i : nat) (e : dictionary_entry),
           pool !! i = Some e ->
           recomputed !! i
           = Some (set_entropy e
                     (if is_eliminated e then 0%float
                      else calculate_entropy_internal log (word e) valid
                             (Z.of_nat (length valid))))).
Proof.
  intros recomputed valid. unfold recomputed, calculate_entropy_on_dictionary.
  rewrite EntropyFacts.firstn_length_all, EntropyFacts.valid_count_length.
  fold (valid_entries pool). fold valid. cbn [negb]. rewrite !Z.add_0_l.
  split.
  - intros ->. reflexivity.
  - intros Hne.
    destruct (Z.eqb_spec (Z.of_nat (length valid)) 0) as [H0|_].
    { destruct valid; [contradiction|cbn in H0; lia]. }
    split; [apply PrefixFacts.length_update_prefix|].
    intros i e Hi. rewrite PrefixFacts.lookup_update_prefix, Hi.
    cbn [fmap option_fmap option_map].
    apply lookup_lt_Some in Hi as Hlt.
    rewrite decide_True by lia.
    destruct (is_eliminated e); reflexivity.
Qed.

Lemma entropy_recomputed_against_the_valid_entries_witness :
  let pool := [sample_entry "TRACE" 0 50 "S" "P" false false;
               sample_entry "SPEED" 2.5 50 "S" "P" true true] in
  length (calculate_entropy_on_dictionary sample_log true pool 2) = 2%nat
  /\ forall (i : nat) (e : dictionary_entry),
       pool !! i = Some e ->
       calculate_entropy_on_dictionary sample_log true pool 2 !! i
       = Some (set_entropy e
                 (if is_eliminated e then 0%float
                  else calculate_entropy_internal sample_log (word e)
                         (valid_entries pool) 1)).
Proof.
  apply (proj2 (entropy_recomputed_against_the_valid_entries sample_log
                  [sample_entry "TRACE" 0 50 "S" "P" false false;
                   sample_entry "SPEED" 2.5 50 "S" "P" true true])).
  discriminate.
Defined.

(** C6 as stated fails on a pool with no valid entry: the early return
    leaves the entropy of an eliminated entry as it was. *)
Lemma eliminated_entropy_not_reset_when_no_entry_is_valid :
  ~ (forall (log : float -> float) (pool : list dictionary_entry)
            (i : nat) (e : dictionary_entry),
        calculate_entropy_on_dictionary log true pool (Z.of_nat (length pool))
          !! i = Some e ->
        is_eliminated e = true -> entropy e = 0%float).
Proof.
  intros H.
  specialize (H sample_log [sample_entry "SPEED" 2.5 50 "S" "P" true true]
                0%nat (sample_entry "SPEED" 2.5 50 "S" "P" true true)
                eq_refl eq_refl).
  cbn in H.
  assert (Hb : PrimFloat.eqb 2.5 0 = true) by (rewrite H; reflexivity).
  vm_compute in Hb. discriminate.
Qed.

(** ** The lookahead scorer *)

Module LookaheadFacts.

Lemma largest_nonneg bs : 0 <= largest bs.
Proof.
  induction bs as [|b bs IH]; [cbn; lia|].
  cbn [largest fold_right]. fold (largest bs). lia.
Qed.

(** The analysis loop, seen on the list of bucket sizes. *)
Lemma analyse_values (bs : list Z) s c m :
  0 <= m ->
  fold_left
    (fun (acc : float * Z * Z) b =>
       let '(sum_squares, singles_count, max_bucket) := acc in
       if 0 <? b then
         ((sum_squares + double_of_int b * double_of_int b)%float,
          if b =? 1 then singles_count + 1 else singles_count,
          if max_bucket <? b then b else max_bucket)
       else acc)
    bs (s, c, m)
  = (fold_left (fun s b => (s + double_of_int b * double_of_int b)%float)
       (List.filter (fun b => 0 <? b) bs) s,
     c + singles bs,
     Z.max m (largest bs)).
Proof.
  revert s c m. induction bs as [|b bs IH]; intros s c m Hm.
  - cbn [fold_left List.filter]. unfold singles, largest.
    cbn [List.filter length fold_right]. f_equal; [f_equal|]; lia.
  - pose proof (largest_nonneg bs) as Hl.
    cbn [fold_left List.filter]. destruct (Z.ltb_spec 0 b) as [Hb|Hb].
    + rewrite IH by (destruct (Z.ltb_spec m b); lia).
      cbn [fold_left]. unfold singles. cbn [List.filter largest fold_right].
      fold (largest bs).
      f_equal; [f_equal|].
      * destruct (Z.eqb_spec b 1); cbn [length]; lia.
      * destruct (Z.ltb_spec m b); lia.
    + rewrite IH by exact Hm.
      unfold singles. cbn [List.filter largest fold_right]. fold (largest bs).
      f_equal; [f_equal|].
      * destruct (Z.eqb_spec b 1); [lia|reflexivity].
      * lia.
Qed.

Lemma analyse_bins_buckets (bins : list Z) :
  SolverLogic.analyse_bins bins
  = (sum_of_squares (List.map (CArray.get bins) (indices 243)),
     singles (List.map (CArray.get bins) (indices 243)),
     largest (List.map (CArray.get bins) (indices 243))).
Proof.
  unfold SolverLogic.analyse_bins, sum_of_squares.
  rewrite <- (Z.add_0_l (singles _)).
  rewrite <- (Z.max_r 0 (largest _)) by apply largest_nonneg.
  rewrite <- analyse_values by lia.
  generalize (indices 243) (0%float, 0, 0).
  intros ks. induction ks as [|k ks IH]; intros acc; [reflexivity|].
  cbn [List.map fold_left]. apply IH.
Qed.

(** The simulation loop fills bucket [k] with the answers of pattern
    index [k]. *)
Lemma bins_are_buckets candidate (answers : list dictionary_entry) :
  List.map
    (CArray.get
       (fold_left
          (fun bins (answer : dictionary_entry) =>
             CArray.incr bins
               (Lookahead.lookahead_feedback_index candidate (word answer)))
          answers (CArray.zeros 243)))
    (indices 243)
  = buckets candidate answers.
Proof.
  unfold buckets, indices. rewrite !List.map_map.
  apply List.map_ext_in. intros k Hk. apply in_seq in Hk.
  rewrite (HistogramFacts.get_fold_incr
             (fun a => Lookahead.lookahead_feedback_index candidate (word a)))
    by (rewrite CArrayFacts.length_zeros; lia).
  rewrite CArrayFacts.get_zeros. reflexivity.
Qed.

(** The score in terms of the histogram, for every turn number: the
    sniper bonus is granted when [turn > 1]. *)
Lemma lookahead_bonus_by_buckets
    (log10 : float -> float) (candidate : dictionary_entry)
    (p_rank_sorted : list dictionary_entry) (valid_count turn : Z) :
  1 < valid_count ->
  let bs :=
    buckets (word candidate)
            (firstn (Z.to_nat valid_count) p_rank_sorted) in
  let sniper_bonus :=
    if 1 <? turn then (double_of_int (singles bs) * 0.04)%float
    else 0%float in
  let total :=
    (log10 (double_of_int valid_count * double_of_int valid_count
            / sum_of_squares bs)
     + sniper_bonus)%float in
  SolverLogic.calculate_lookahead_bonus log10 candidate p_rank_sorted
    valid_count turn
  = if 6 - turn <? largest bs then (total - 100)%float
    else if (4 <? valid_count) && (valid_count / 2 + 1 <? largest bs)
         then (total - 5)%float
         else total.
Proof.
  intros Hvc bs sniper_bonus total.
  unfold SolverLogic.calculate_lookahead_bonus.
  replace (valid_count <=? 1) with false by (symmetry; apply Z.leb_gt; lia).
  rewrite analyse_bins_buckets, bins_are_buckets.
  fold bs. unfold MAX_GUESSES.
  replace (Z.quot valid_count 2) with (valid_count / 2)
    by (symmetry; apply Z.quot_div_nonneg; lia).
  reflexivity.
Qed.

End LookaheadFacts.

(** C7: for [valid_count > 1] and a turn number from 1 on (the game
    counts its turns from 1), [calculate_lookahead_bonus] is determined
    by the histogram of the candidate's pattern indices against the first
    [valid_count] entries of the answer view: with [safety = log10
    (valid_count^2 / sum of the squared bucket sizes)], [sniperBonus = 0]
    when [turn = 1] and [0.04] times the number of buckets of size 1
    otherwise, and [total = safety + sniperBonus], the result is [total -
    100] when the largest bucket exceeds [6 - turn], otherwise [total -
    5] when [valid_count > 4] and the largest bucket exceeds [valid_count
    / 2 + 1], otherwise [total].  It is a function of its arguments and of
    libm's [log10]. *)
Theorem lookahead_bonus_formula
    (log10 : float -> float) (candidate : dictionary_entry)
    (p_rank_sorted : list dictionary_entry) (valid_count turn : Z) :
  1 < valid_count -> 1 <= turn ->
  let bs :=
    buckets (word candidate)
            (firstn (Z.to_nat valid_count) p_rank_sorted) in
  let safety :=
    log10 (double_of_int valid_count * double_of_int valid_count
           / sum_of_squares bs)%float in
  let sniperBonus :=
    if turn =? 1 then 0%float
    else (double_of_int (singles bs) * 0.04)%float in
  let total := (safety + sniperBonus)%float in
  SolverLogic.calculate_lookahead_bonus log10 candidate p_rank_sorted
    valid_count turn
  = if 6 - turn <? largest bs then (total - 100)%float
    else if (4 <? valid_count) && (valid_count / 2 + 1 <? largest bs)
         then (total - 5)%float
         else total.
Proof.
  intros Hvc Hturn bs safety sniperBonus total.
  rewrite LookaheadFacts.lookahead_bonus_by_buckets by exact Hvc.
  fold bs. unfold total, sniperBonus, safety.
  replace (1 <? turn) with (negb (turn =? 1))
    by (destruct (Z.eqb_spec turn 1), (Z.ltb_spec 1 turn); cbn; lia).
  destruct (turn =? 1); reflexivity.
Qed.

Lemma lookahead_bonus_formula_witness :
  SolverLogic.calculate_lookahead_bonus sample_log
    (sample_entry "CRANE" 0 50 "S" "N" false false)
    [sample_entry "TRACE" 0 50 "S" "P" false false;
     sample_entry "CRATE" 0 50 "S" "N" false false] 2 2
  = (sample_log (2 * 2 / 2) + 2 * 0.04)%float.
Proof.
  rewrite (lookahead_bonus_formula sample_log
             (sample_entry "CRANE" 0 50 "S" "N" false false)
             [sample_entry "TRACE" 0 50 "S" "P" false false;
              sample_entry "CRATE" 0 50 "S" "N" false false] 2 2)
    by lia.
  vm_compute. reflexivity.
Defined.

(** ** The comparators *)

Module ComparatorFacts.
Import Comparators StringFacts.

Lemma coherent_lex {A} (D : A -> Prop) (c1 c2 : A -> A -> Z) :
  coherent D c1 -> coherent D c2 -> coherent D (lex c1 c2).
Proof.
  intros [F1 T1] [F2 T2]. split.
  - intros a b Ha Hb. unfold lex.
    pose proof (F1 a b Ha Hb). pose proof (F1 b a Hb Ha).
    pose proof (F2 a b Ha Hb).
    destruct (Z.eqb_spec (c1 a b) 0), (Z.eqb_spec (c1 b a) 0);
      cbn [negb]; lia.
  - intros a b d Ha Hb Hd. unfold lex.
    pose proof (F1 a b Ha Hb). pose proof (F1 b a Hb Ha).
    pose proof (F1 b d Hb Hd). pose proof (F1 d b Hd Hb).
    pose proof (F1 a d Ha Hd). pose proof (F1 d a Hd Ha).
    pose proof (T1 a b d Ha Hb Hd). pose proof (T1 b d a Hb Hd Ha).
    pose proof (T1 d a b Hd Ha Hb). pose proof (T2 a b d Ha Hb Hd).
    destruct (Z.eqb_spec (c1 a b) 0), (Z.eqb_spec (c1 b d) 0),
             (Z.eqb_spec (c1 a d) 0); cbn [negb]; lia.
Qed.

Lemma coherent_weaken {A} (D D' : A -> Prop) (c : A -> A -> Z) :
  (forall a, D' a -> D a) -> coherent D c -> coherent D' c.
Proof.
  intros Hsub [F T]. split.
  - intros a b Ha Hb. apply F; apply Hsub; assumption.
  - intros a b d Ha Hb Hd. apply T; apply Hsub; assumption.
Qed.

(** A difference of integer keys is coherent. *)
Lemma coherent_key {A} (key : A -> Z) :
  coherent (fun _ => True) (fun a b => key a - key b).
Proof. split; intros; lia. Qed.

Lemma coherent_eliminated_diff : coherent (fun _ => True) eliminated_diff.
Proof.
  split.
  - intros a b _ _. unfold eliminated_diff.
    destruct (is_eliminated a), (is_eliminated b); cbn; lia.
  - intros a b d _ _ _. unfold eliminated_diff.
    destruct (is_eliminated a), (is_eliminated b), (is_eliminated d);
      cbn; lia.
Qed.

Lemma coherent_dup_diff : coherent (fun _ => True) dup_diff.
Proof.
  split.
  - intros a b _ _. unfold dup_diff.
    destruct (contains_duplicate_letters a), (contains_duplicate_letters b);
      cbn; lia.
  - intros a b d _ _ _. unfold dup_diff.
    destruct (contains_duplicate_letters a), (contains_duplicate_letters b),
             (contains_duplicate_letters d); cbn; lia.
Qed.

Lemma coherent_rank_diff : coherent (fun _ => True) rank_diff.
Proof.
  split.
  - intros a b _ _. unfold rank_diff.
    destruct (Z.ltb_spec (frequency_rank a) (frequency_rank b)),
             (Z.ltb_spec (frequency_rank b) (frequency_rank a)); lia.
  - intros a b d _ _ _. unfold rank_diff.
    destruct (Z.ltb_spec (frequency_rank a) (frequency_rank b)),
             (Z.ltb_spec (frequency_rank b) (frequency_rank a)),
             (Z.ltb_spec (frequency_rank b) (frequency_rank d)),
             (Z.ltb_spec (frequency_rank d) (frequency_rank b)),
             (Z.ltb_spec (frequency_rank a) (frequency_rank d)),
             (Z.ltb_spec (frequency_rank d) (frequency_rank a)); lia.
Qed.

(** On numbers the entropy comparison is coherent. *)
Lemma coherent_entropy_diff : coherent entropy_is_number entropy_diff.
Proof.
  split.
  - intros a b _ _. unfold entropy_diff.
    destruct (PrimFloat.ltb (entropy a) (entropy b)) eqn:Hab.
    + rewrite (FloatOrder.ltb_asym _ _ Hab). lia.
    + destruct (PrimFloat.ltb (entropy b) (entropy a)); lia.
  - intros a b d _ Hb _. unfold entropy_diff.
    destruct (PrimFloat.ltb (entropy a) (entropy b)) eqn:Hab; [lia|].
    destruct (PrimFloat.ltb (entropy b) (entropy d)) eqn:Hbd.
    { destruct (PrimFloat.ltb (entropy b) (entropy a)); lia. }
    rewrite (FloatOrder.ltb_neg_trans _ _ _ Hb Hab Hbd).
    intros _ _. destruct (PrimFloat.ltb (entropy d) (entropy a)); lia.
Qed.

(** The two positions the tag loop computes do not depend on each
    other. *)
Lemma order_positions_split order t1 t2 ps pA pB :
  fold_left
    (fun (pos : Z * Z) i =>
       let '(posA, posB) := pos in
       (if Ascii.eqb t1 (char_at order i) then Z.of_nat i else posA,
        if Ascii.eqb t2 (char_at order i) then Z.of_nat i else posB))
    ps (pA, pB)
  = (fold_left
       (fun posA i => if Ascii.eqb t1 (char_at order i) then Z.of_nat i else posA)
       ps pA,
     fold_left
       (fun posB i => if Ascii.eqb t2 (char_at order i) then Z.of_nat i else posB)
       ps pB).
Proof.
  revert pA pB. induction ps as [|i ps IH]; intros pA pB; [reflexivity|].
  cbn [fold_left]. apply IH.
Qed.

Lemma coherent_noun_type_diff : coherent (fun _ => True) noun_type_diff.
Proof.
  assert (Hkey : forall a b,
             noun_type_diff a b
             = (fun e => fold_left
                  (fun posA i =>
                     if Ascii.eqb (noun_type e)
                          (char_at (list_ascii_of_string "RSNP") i)
                     then Z.of_nat i else posA) (seq 0 4) 4) a
               - (fun e => fold_left
                  (fun posA i =>
                     if Ascii.eqb (noun_type e)
                          (char_at (list_ascii_of_string "RSNP") i)
                     then Z.of_nat i else posA) (seq 0 4) 4) b).
  { intros a b. unfold noun_type_diff, order_positions.
    rewrite order_positions_split. reflexivity. }
  destruct (coherent_key
              (fun e => fold_left
                 (fun posA i =>
                    if Ascii.eqb (noun_type e)
                         (char_at (list_ascii_of_string "RSNP") i)
                    then Z.of_nat i else posA) (seq 0 4) 4)) as [F T].
  split.
  - intros a b Ha Hb. rewrite !Hkey. apply F; exact I.
  - intros a b d Ha Hb Hd. rewrite !Hkey. apply T; exact I.
Qed.

Lemma coherent_verb_type_diff : coherent (fun _ => True) verb_type_diff.
Proof.
  assert (Hkey : forall a b,
             verb_type_diff a b
             = (fun e => fold_left
                  (fun posA i =>
                     if Ascii.eqb (verb_type e)
                          (char_at (list_ascii_of_string "NPST") i)
                     then Z.of_nat i else posA) (seq 0 4) 4) a
               - (fun e => fold_left
                  (fun posA i =>
                     if Ascii.eqb (verb_type e)
                          (char_at (list_ascii_of_string "NPST") i)
                     then Z.of_nat i else posA) (seq 0 4) 4) b).
  { intros a b. unfold verb_type_diff, order_positions.
    rewrite order_positions_split. reflexivity. }
  destruct (coherent_key
              (fun e => fold_left
                 (fun posA i =>
                    if Ascii.eqb (verb_type e)
                         (char_at (list_ascii_of_string "NPST") i)
                    then Z.of_nat i else posA) (seq 0 4) 4)) as [F T].
  split.
  - intros a b Ha Hb. rewrite !Hkey. apply F; exact I.
  - intros a b d Ha Hb Hd. rewrite !Hkey. apply T; exact I.
Qed.

(** Case analysis on the first characters of the strings compared. *)
Ltac head_cases :=
  repeat match goal with
         | |- context [Ascii.eqb ?x ?y] =>
             destruct (Ascii.eqb_spec x y); subst
         | H : context [Ascii.eqb ?x ?y] |- _ =>
             destruct (Ascii.eqb_spec x y); subst
         end;
  repeat match goal with
         | H : ?x <> ?y |- _ =>
             lazymatch type of x with
             | ascii =>
                 assert (char_code x <> char_code y)
                   by (intros He; apply H, char_code_inj, He);
                 clear H
             end
         end;
  repeat match goal with
         | c : ascii |- _ =>
             lazymatch goal with
             | H : 0 <= char_code c |- _ => fail
             | _ => pose proof (char_code_nonneg c)
             end
         end;
  change (char_code Ascii.zero) with 0 in *.

Lemma strncmp_flip n s1 s2 : strncmp s1 s2 n < 0 <-> 0 < strncmp s2 s1 n.
Proof.
  revert s1 s2. induction n as [|n IH]; intros s1 s2; [cbn; lia|].
  destruct s1 as [|c1 r1], s2 as [|c2 r2]; cbn [strncmp];
    head_cases; try lia; try congruence.
  apply IH.
Qed.

Lemma strncmp_trans n s1 s2 s3 :
  strncmp s1 s2 n <= 0 -> strncmp s2 s3 n <= 0 -> strncmp s1 s3 n <= 0.
Proof.
  revert s1 s2 s3. induction n as [|n IH]; intros s1 s2 s3; [cbn; lia|].
  destruct s1 as [|c1 r1], s2 as [|c2 r2], s3 as [|c3 r3]; cbn [strncmp];
    intros H12 H23; head_cases; try lia; try congruence.
  eapply IH; eassumption.
Qed.

Lemma coherent_strncmp :
  coherent (fun _ => True)
           (fun a b => strncmp (word a) (word b) WORDLE_WORD_LENGTH).
Proof.
  split.
  - intros a b _ _. apply strncmp_flip.
  - intros a b d _ _ _. apply strncmp_trans.
Qed.

Lemma tie_breaker_lex a b :
  compare_with_entropy_tie_breaker a b
  = lex dup_diff
      (lex noun_type_diff
         (lex verb_type_diff
            (lex rank_diff
               (fun a b => strncmp (word a) (word b) WORDLE_WORD_LENGTH))))
      a b.
Proof. reflexivity. Qed.

Lemma entropy_desc_lex a b :
  compare_dictionary_entries_by_entropy_desc a b
  = lex eliminated_diff (lex entropy_diff compare_with_entropy_tie_breaker)
      a b.
Proof. reflexivity. Qed.

Lemma coherent_tie_breaker :
  coherent (fun _ => True) compare_with_entropy_tie_breaker.
Proof.
  pose proof (coherent_lex _ _ _ coherent_dup_diff
                (coherent_lex _ _ _ coherent_noun_type_diff
                   (coherent_lex _ _ _ coherent_verb_type_diff
                      (coherent_lex _ _ _ coherent_rank_diff
                         coherent_strncmp)))) as [F T].
  split.
  - intros a b Ha Hb. rewrite !tie_breaker_lex. apply F; exact I.
  - intros a b d Ha Hb Hd. rewrite !tie_breaker_lex. apply T; exact I.
Qed.

Lemma coherent_entropy_desc :
  coherent entropy_is_number compare_dictionary_entries_by_entropy_desc.
Proof.
  pose proof (coherent_lex entropy_is_number _ _
                (coherent_weaken _ _ _ (fun _ _ => I) coherent_eliminated_diff)
                (coherent_lex _ _ _ coherent_entropy_diff
                   (coherent_weaken _ _ _ (fun _ _ => I) coherent_tie_breaker)))
    as [F T].
  split.
  - intros a b Ha Hb. rewrite !entropy_desc_lex. apply F; assumption.
  - intros a b d Ha Hb Hd. rewrite !entropy_desc_lex. apply T; assumption.
Qed.

End ComparatorFacts.

(** The sample views are views: each is in the order of its comparator. *)
Example sample_views_in_order :
  in_order Comparators.compare_dictionary_entries_by_entropy_desc eleven_words
  = true
  /\ in_order Comparators.compare_dictionary_entries_by_rank_desc
       eleven_words_by_rank = true
  /\ in_order Comparators.compare_dictionary_entries_by_entropy_desc
       plurals_by_entropy = true
  /\ in_order Comparators.compare_dictionary_entries_by_rank_desc
       plurals_by_rank = true.
Proof. repeat split; vm_compute; reflexivity. Qed.

(** C9: [compare_dictionary_entries_by_entropy_desc] puts every
    non-eliminated entry strictly before every eliminated one, whatever
    their entropies; and on entries whose entropy is a number, as every
    entropy the program stores is (the loader stores 0.0 and the engine
    a sum of [-p * log p] with [0 < p <= 1]), the relation "compares
    negative" is a strict weak ordering: irreflexive, transitive, with a
    transitive "neither before the other", and swapping the arguments
    flips the sign of the result. *)
Theorem entropy_desc_is_a_strict_weak_ordering :
  (forall a b : dictionary_entry,
      is_eliminated a = false -> is_eliminated b = true ->
      Comparators.compare_dictionary_entries_by_entropy_desc a b < 0
      /\ 0 < Comparators.compare_dictionary_entries_by_entropy_desc b a)
  /\ (forall a b c : dictionary_entry,
         entropy_is_number a -> entropy_is_number b -> entropy_is_number c ->
         let before x y :=
           Comparators.compare_dictionary_entries_by_entropy_desc x y < 0 in
         ~ before a a
         /\ (before a b <->
             0 < Comparators.compare_dictionary_entries_by_entropy_desc b a)
         /\ (before a b -> before b c -> before a c)
         /\ (~ before a b -> ~ before b a -> ~ before b c -> ~ before c b ->
             ~ before a c /\ ~ before c a)).
Proof.
  split.
  - intros a b Ha Hb.
    unfold Comparators.compare_dictionary_entries_by_entropy_desc,
      Comparators.eliminated_diff.
    rewrite Ha, Hb. cbn. lia.
  - intros a b c Ha Hb Hc before. unfold before.
    destruct ComparatorFacts.coherent_entropy_desc as [F T].
    pose proof (F a a Ha Ha). pose proof (F a b Ha Hb).
    pose proof (F b a Hb Ha). pose proof (F b c Hb Hc).
    pose proof (F c b Hc Hb). pose proof (F a c Ha Hc).
    pose proof (F c a Hc Ha).
    pose proof (T a b c Ha Hb Hc). pose proof (T b c a Hb Hc Ha).
    pose proof (T c a b Hc Ha Hb). pose proof (T c b a Hc Hb Ha).
    pose proof (T b a c Hb Ha Hc). pose proof (T a c b Ha Hc Hb).
    lia.
Qed.

Lemma entropy_desc_is_a_strict_weak_ordering_witness :
  let a := sample_entry "CRANE" 5.5 60 "S" "N" false false in
  let b := sample_entry "TRACE" 5.5 70 "S" "P" false false in
  let c := sample_entry "SPEED" 4.25 80 "S" "P" true false in
  let before x y :=
    Comparators.compare_dictionary_entries_by_entropy_desc x y < 0 in
  ~ before a a
  /\ (before a b <->
      0 < Comparators.compare_dictionary_entries_by_entropy_desc b a)
  /\ (before a b -> before b c -> before a c)
  /\ (~ before a b -> ~ before b a -> ~ before b c -> ~ before c b ->
      ~ before a c /\ ~ before c a).
Proof.
  apply (proj2 entropy_desc_is_a_strict_weak_ordering
           (sample_entry "CRANE" 5.5 60 "S" "N" false false)
           (sample_entry "TRACE" 5.5 70 "S" "P" false false)
           (sample_entry "SPEED" 4.25 80 "S" "P" true false));
    reflexivity.
Defined.

(** ** The strategy engine *)

Module StrategyFacts.
Import SolverLogic.

Lemma ltb_irrefl x : PrimFloat.ltb x x = false.
Proof.
  destruct (PrimFloat.ltb x x) eqn:H; [|reflexivity].
  rewrite (FloatOrder.ltb_asym _ _ H) in H. discriminate.
Qed.

(** Anything above a later running maximum is above an earlier one. *)
Lemma above_later_score s s' x :
  s' = s \/ PrimFloat.ltb s s' = true ->
  PrimFloat.ltb s x = false -> PrimFloat.ltb s' x = false.
Proof.
  intros [->|Hlt] Hx; [exact Hx|].
  destruct (PrimFloat.ltb s' x) eqn:H; [|reflexivity].
  rewrite (FloatOrder.ltb_trans _ _ _ Hlt H) in Hx. discriminate.
Qed.

(** In panic mode only the risk test is left in the main loop's filter,
    and it spares the endgame solvers. *)
Lemma main_pass_panic config mrc valid_count turn cand :
  valid_count <= 20 ->
  main_pass config mrc valid_count turn cand
  = (negb (is_eliminated cand) && (valid_count <=? 10))
    || negb (use_risk_filter config && is_risky_guess cand mrc).
Proof.
  intros Hp. unfold main_pass.
  replace (valid_count <=? 20) with true by (symmetry; apply Z.leb_le; lia).
  destruct (negb (is_eliminated cand) && (valid_count <=? 10));
    cbn [negb orb andb]; [reflexivity|].
  destruct (use_risk_filter config && is_risky_guess cand mrc); reflexivity.
Qed.

Lemma main_score_panic log10 config p_rank_sorted valid_count turn cand :
  valid_count <= 20 ->
  main_score log10 config p_rank_sorted valid_count turn cand = entropy cand.
Proof.
  intros Hp. unfold main_score.
  replace (valid_count <=? 20) with true by (symmetry; apply Z.leb_le; lia).
  rewrite andb_false_r. reflexivity.
Qed.

(** The main loop in panic mode, from any intermediate state that leaves
    room for the remaining candidates: it ends on a running maximum
    [score'] that no passing candidate exceeds. *)
Lemma main_loop_panic log10 config p_rank_sorted mrc valid_count turn
    max_evals cands :
  valid_count <= 20 ->
  forall best score evaluated,
    evaluated + Z.of_nat (length cands) <= max_evals ->
    exists score',
      (score' = score \/ PrimFloat.ltb score score' = true)
      /\ (forall cand, In cand cands ->
            main_pass config mrc valid_count turn cand = true ->
            PrimFloat.ltb score' (entropy cand) = false)
      /\ match main_loop log10 config p_rank_sorted mrc valid_count turn
                         max_evals cands best score evaluated with
         | Some b =>
             (best = Some b /\ score' = score)
             \/ (In b cands
                 /\ main_pass config mrc valid_count turn b = true
                 /\ score' = entropy b)
         | None => best = None /\ score' = score
         end.
Proof.
  intros Hp. induction cands as [|cand rest IH]; intros best score ev Hroom.
  - exists score. cbn [main_loop]. split; [left; reflexivity|].
    split; [intros c []|]. destruct best; [left|]; split; reflexivity.
  - cbn [main_loop length] in *.
    replace (max_evals <=? ev) with false by (symmetry; apply Z.leb_gt; lia).
    destruct (main_pass config mrc valid_count turn cand) eqn:Hpass.
    + rewrite main_score_panic by exact Hp.
      destruct (PrimFloat.ltb score (entropy cand)) eqn:Hlt.
      * destruct (IH (Some cand) (entropy cand) (ev + 1) ltac:(lia))
          as (s' & Hmono & Hmax & Hres).
        exists s'. split; [|split].
        -- right. destruct Hmono as [->|Hlt']; [exact Hlt|].
           exact (FloatOrder.ltb_trans _ _ _ Hlt Hlt').
        -- intros c [<-|Hin] Hc; [|exact (Hmax c Hin Hc)].
           apply (above_later_score (entropy cand)); [exact Hmono|].
           apply ltb_irrefl.
        -- destruct (main_loop _ _ _ _ _ _ _ rest _ _ _) as [b|].
           ++ right. destruct Hres as [[Hb Hs]|(Hin & Hb & Hs)].
              ** injection Hb as <-. split; [left; reflexivity|].
                 split; [exact Hpass|exact Hs].
              ** split; [right; exact Hin|]. split; assumption.
           ++ destruct Hres as [Hb _]. discriminate.
      * destruct (IH best score (ev + 1) ltac:(lia))
          as (s' & Hmono & Hmax & Hres).
        exists s'. split; [exact Hmono|split].
        -- intros c [<-|Hin] Hc; [|exact (Hmax c Hin Hc)].
           apply (above_later_score score); assumption.
        -- destruct (main_loop _ _ _ _ _ _ _ rest _ _ _) as [b|];
             [|exact Hres].
           destruct Hres as [Hb|(Hin & Hb & Hs)]; [left; exact Hb|].
           right. split; [right; exact Hin|]. split; assumption.
    + destruct (IH best score ev ltac:(lia)) as (s' & Hmono & Hmax & Hres).
      exists s'. split; [exact Hmono|split].
      * intros c [<-|Hin] Hc; [congruence|exact (Hmax c Hin Hc)].
      * destruct (main_loop _ _ _ _ _ _ _ rest _ _ _) as [b|];
          [|exact Hres].
        destruct Hres as [Hb|(Hin & Hb & Hs)]; [left; exact Hb|].
        right. split; [right; exact Hin|]. split; assumption.
Qed.

End StrategyFacts.

(** C1, as the code has it: in the main selection loop with
    [valid_count <= 20] the linguistic filter and the lookahead bonus are
    off and the risk filter is not.  A candidate passes exactly when it is
    an endgame solver (not eliminated, [valid_count <= 10]) or the risk
    filter (if configured) does not call it risky; its score is its
    entropy; every candidate is scanned; and the selection is a passing
    candidate whose entropy no passing candidate exceeds, or the first
    entry of the entropy view when no passing candidate has an entropy
    above the initial -1000. *)
Theorem panic_mode_keeps_only_the_risk_filter
    (log10 : float -> float) (config : HybridConfig)
    (p_entropy_sorted p_rank_sorted : list dictionary_entry) (count : Z)
    (min_required_counts : list Z) (valid_count turn : Z) :
  valid_count <= 20 ->
  let pass := SolverLogic.main_pass config min_required_counts valid_count turn in
  let cands := firstn (Z.to_nat count) p_entropy_sorted in
  (forall cand,
      pass cand
      = (negb (is_eliminated cand) && (valid_count <=? 10))
        || negb (use_risk_filter config
                 && SolverLogic.is_risky_guess cand min_required_counts))
  /\ (forall cand,
         SolverLogic.main_score log10 config p_rank_sorted valid_count turn cand
         = entropy cand)
  /\ match SolverLogic.main_selection log10 config p_entropy_sorted
             p_rank_sorted count min_required_counts valid_count turn with
     | Some best =>
         (In best cands /\ pass best = true
          /\ forall cand, In cand cands -> pass cand = true ->
                          PrimFloat.ltb (entropy best) (entropy cand) = false)
         \/ (head p_entropy_sorted = Some best
             /\ forall cand, In cand cands -> pass cand = true ->
                             PrimFloat.ltb (-1000) (entropy cand) = false)
     | None => p_entropy_sorted = []
     end.
Proof.
  intros Hp pass cands.
  split; [intros cand; apply StrategyFacts.main_pass_panic, Hp|].
  split; [intros cand; apply StrategyFacts.main_score_panic, Hp|].
  unfold SolverLogic.main_selection.
  replace (valid_count <=? 20) with true by (symmetry; apply Z.leb_le; lia).
  rewrite andb_false_r. fold cands.
  assert (Hloop :
            exists s',
              (forall cand, In cand cands -> pass cand = true ->
                            PrimFloat.ltb s' (entropy cand) = false)
              /\ match SolverLogic.main_loop log10 config p_rank_sorted
                         min_required_counts valid_count turn count cands
                         None (-1000)%float 0 with
                 | Some b =>
                     (None = Some b /\ s' = (-1000)%float)
                     \/ (In b cands /\ pass b = true /\ s' = entropy b)
                 | None => None = (None : option dictionary_entry)
                           /\ s' = (-1000)%float
                 end).
  { destruct (decide (0 <= count)) as [Hc|Hc].
    - destruct (StrategyFacts.main_loop_panic log10 config p_rank_sorted
                  min_required_counts valid_count turn count cands Hp
                  None (-1000)%float 0) as (s' & _ & Hmax & Hres).
      { unfold cands. rewrite length_take. lia. }
      exists s'. split; assumption.
    - assert (Hnil : cands = []).
      { unfold cands. replace (Z.to_nat count) with 0%nat by lia.
        reflexivity. }
      rewrite Hnil. exists (-1000)%float.
      split; [intros c []|]. cbn. split; reflexivity. }
  destruct Hloop as (s' & Hmax & Hres).
  destruct (SolverLogic.main_loop _ _ _ _ _ _ _ cands _ _ _) as [b|].
  - left. destruct Hres as [[Hb _]|(Hin & Hb & Hs)]; [discriminate|].
    subst s'. split; [exact Hin|]. split; [exact Hb|exact Hmax].
  - destruct Hres as [_ ->].
    destruct p_entropy_sorted as [|first rest]; [reflexivity|].
    right. split; [reflexivity|exact Hmax].
Qed.

Lemma panic_mode_keeps_only_the_risk_filter_witness :
  SolverLogic.main_selection sample_log legacy_reborn eleven_words
    eleven_words_by_rank 11 (CArray.zeros 26) 11 1
  <> None.
Proof.
  pose proof (panic_mode_keeps_only_the_risk_filter sample_log legacy_reborn
                eleven_words eleven_words_by_rank 11 (CArray.zeros 26) 11 1
                ltac:(lia)) as (_ & _ & H).
  destruct (SolverLogic.main_selection _ _ _ _ _ _ _ _); [discriminate|].
  discriminate H.
Defined.

(** C1 as stated fails: with eleven valid answers the risk filter of
    "Legacy Reborn" rejects "SPEED", the entry of highest entropy, and the
    selection is "CRANE"; without the risk filter the same call selects
    "SPEED". *)
Lemma risk_filter_rejects_in_panic_mode :
  11 <= 20
  /\ SolverLogic.main_pass legacy_reborn (CArray.zeros 26) 11 1
       (sample_entry "SPEED" 3.25 40 "S" "P" true false) = false
  /\ SolverLogic.main_pass legacy_reborn_no_risk (CArray.zeros 26) 11 1
       (sample_entry "SPEED" 3.25 40 "S" "P" true false) = true
  /\ SolverLogic.main_selection sample_log legacy_reborn eleven_words
       eleven_words_by_rank 11 (CArray.zeros 26) 11 1
     = Some (sample_entry "CRANE" 3 55 "S" "P" false false)
  /\ SolverLogic.main_selection sample_log legacy_reborn_no_risk eleven_words
       eleven_words_by_rank 11 (CArray.zeros 26) 11 1
     = Some (sample_entry "SPEED" 3.25 40 "S" "P" true false).
Proof.
  split; [lia|]. repeat split; vm_compute; reflexivity.
Qed.

(** ** Totality and fallback of the strategy engine *)

Module FallbackFacts.
Import SolverLogic.

(** A candidate the override stages accept is accepted by the main
    loop. *)
Lemma standard_pass_main_pass config mrc valid_count turn cand :
  standard_pass config mrc turn cand = true ->
  main_pass config mrc valid_count turn cand = true.
Proof.
  unfold standard_pass, main_pass.
  destruct (negb (is_eliminated cand) && (valid_count <=? 10));
    cbn [negb]; [reflexivity|].
  destruct (apply_ling config turn), (valid_count <=? 20),
           (is_linguistically_sound cand); cbn [negb andb];
    try discriminate; auto.
Qed.

(** Outside panic mode the tie-breaker's filter is the main loop's. *)
Lemma rank_pass_main_pass config mrc valid_count turn cand :
  20 < valid_count ->
  rank_pass config mrc valid_count turn cand
  = main_pass config mrc valid_count turn cand.
Proof.
  intros Hv. unfold rank_pass, main_pass, standard_pass.
  replace (valid_count <=? 20) with false by (symmetry; apply Z.leb_gt; lia).
  replace (valid_count <=? 10) with false by (symmetry; apply Z.leb_gt; lia).
  rewrite andb_false_r. reflexivity.
Qed.

Lemma in_firstn_le {A} (x : A) (l : list A) (n m : nat) :
  (n <= m)%nat -> In x (firstn n l) -> In x (firstn m l).
Proof.
  revert n m. induction l as [|y l IH]; intros n m Hle Hin.
  - rewrite firstn_nil in Hin. destruct Hin.
  - destruct n as [|n]; [destruct Hin|].
    destruct m as [|m]; [lia|].
    cbn [firstn] in *. destruct Hin as [->|Hin]; [left; reflexivity|].
    right. apply (IH n m); [lia|exact Hin].
Qed.

Lemma scan_limit_le (count limit : Z) :
  (Z.to_nat (if (count <? limit)%Z then count else limit)
   <= Z.to_nat count)%nat.
Proof. destruct (Z.ltb_spec count limit); lia. Qed.

Section NothingPasses.

Variable log10 : float -> float.
Variables (config : HybridConfig) (mrc : list Z) (valid_count turn : Z).

Lemma coverage_scan_none p_rank_sorted count :
  (forall cand, In cand (firstn (Z.to_nat count) p_rank_sorted) ->
                standard_pass config mrc turn cand = false) ->
  coverage_scan config p_rank_sorted count mrc turn = None.
Proof.
  intros Hnone. unfold coverage_scan.
  assert (Hsub : forall cand,
             In cand (firstn (Z.to_nat (if count <? 100 then count else 100))
                             p_rank_sorted) ->
             standard_pass config mrc turn cand = false).
  { intros cand Hin. apply Hnone.
    eapply in_firstn_le; [apply scan_limit_le|exact Hin]. }
  revert Hsub. generalize (firstn (Z.to_nat (if count <? 100 then count else 100))
                                  p_rank_sorted).
  intros l. generalize (-1). induction l as [|cand l IH]; intros z Hsub;
    [reflexivity|].
  cbn [fold_left]. rewrite (Hsub cand) by (left; reflexivity).
  destruct (is_eliminated cand); apply IH; intros c Hc; apply Hsub; right;
    exact Hc.
Qed.

Lemma biased_scan_none score_of p_entropy_sorted count :
  (forall cand, In cand (firstn (Z.to_nat count) p_entropy_sorted) ->
                standard_pass config mrc turn cand = false) ->
  biased_scan score_of config p_entropy_sorted count mrc turn = None.
Proof.
  intros Hnone. unfold biased_scan.
  assert (Hsub : forall cand,
             In cand (firstn (Z.to_nat (if count <? 30 then count else 30))
                             p_entropy_sorted) ->
             standard_pass config mrc turn cand = false).
  { intros cand Hin. apply Hnone.
    eapply in_firstn_le; [apply scan_limit_le|exact Hin]. }
  revert Hsub. generalize (firstn (Z.to_nat (if count <? 30 then count else 30))
                                  p_entropy_sorted).
  intros l. generalize (-1) (-1)%float.
  induction l as [|cand l IH]; intros z h Hsub; [reflexivity|].
  cbn [fold_left]. rewrite (Hsub cand) by (left; reflexivity).
  apply IH. intros c Hc. apply Hsub. right. exact Hc.
Qed.

Lemma heatmap_scan_none heatmap cands best best_score scanned :
  (forall cand, In cand cands -> standard_pass config mrc turn cand = false) ->
  heatmap_scan config heatmap mrc turn cands best best_score scanned = best.
Proof.
  intros Hnone. induction cands as [|cand rest IH]; [reflexivity|].
  cbn [heatmap_scan]. destruct (20 <=? scanned); [reflexivity|].
  rewrite (Hnone cand) by (left; reflexivity).
  apply IH. intros c Hc. apply Hnone. right. exact Hc.
Qed.

Lemma main_loop_none p_rank_sorted max_evals cands best score evaluated :
  (forall cand, In cand cands ->
                main_pass config mrc valid_count turn cand = false) ->
  main_loop log10 config p_rank_sorted mrc valid_count turn max_evals cands
            best score evaluated = best.
Proof.
  intros Hnone. induction cands as [|cand rest IH]; [reflexivity|].
  cbn [main_loop]. destruct (max_evals <=? evaluated); [reflexivity|].
  rewrite (Hnone cand) by (left; reflexivity).
  apply IH. intros c Hc. apply Hnone. right. exact Hc.
Qed.

Lemma find_none {A} (f : A -> bool) (l : list A) :
  (forall x, In x l -> f x = false) -> List.find f l = None.
Proof.
  induction l as [|x l IH]; intros H; [reflexivity|].
  cbn [List.find]. rewrite (H x) by (left; reflexivity).
  apply IH. intros y Hy. apply H. right. exact Hy.
Qed.

Lemma main_selection_some p_entropy_sorted p_rank_sorted count :
  p_entropy_sorted <> [] ->
  exists best,
    main_selection log10 config p_entropy_sorted p_rank_sorted count mrc
                   valid_count turn = Some best.
Proof.
  intros Hne. unfold main_selection.
  destruct (main_loop _ _ _ _ _ _ _ _ _ _ _) as [b|]; [eauto|].
  destruct p_entropy_sorted as [|first rest]; [contradiction|].
  exists first. reflexivity.
Qed.

Lemma best_rank_candidate_some p_rank_sorted count :
  p_rank_sorted <> [] ->
  exists cand,
    best_rank_candidate config p_rank_sorted count mrc valid_count turn
    = Some cand.
Proof.
  intros Hne. unfold best_rank_candidate.
  destruct (List.find _ _) as [c|]; [eauto|].
  destruct p_rank_sorted as [|first rest]; [contradiction|].
  exists first. reflexivity.
Qed.

Lemma get_smart_hybrid_guess_some p_entropy_sorted p_rank_sorted count :
  count <> 0 -> p_entropy_sorted <> [] -> p_rank_sorted <> [] ->
  exists e,
    get_smart_hybrid_guess log10 p_entropy_sorted p_rank_sorted count config
                           mrc valid_count turn = Some e.
Proof.
  intros Hc He Hr. unfold get_smart_hybrid_guess.
  replace (count =? 0) with false by (symmetry; apply Z.eqb_neq; exact Hc).
  repeat match goal with
         | |- context [match ?o with Some x => Some x | None => _ end] =>
             lazymatch o with
             | context [match _ with Some _ => _ | None => _ end] => fail
             | _ => destruct o as [?|]; [eauto|]
             end
         end.
  destruct (main_selection_some p_entropy_sorted p_rank_sorted count He)
    as [b ->].
  destruct (best_rank_candidate_some p_rank_sorted count Hr) as [r ->].
  destruct (_ && _); [|eauto]. destruct (PrimFloat.ltb _ _); eauto.
Qed.

End NothingPasses.

End FallbackFacts.

(** C2, as the code has it: on views that hold [count] entries,
    [get_smart_hybrid_guess] returns NULL exactly when [count] is 0.  When
    no candidate of either view passes the main loop's filter, the
    override stages find nothing and the main loop falls back to the
    first entry of the entropy view; the rank tie-breaker then still runs
    outside panic mode, so the result is the first entry of the rank view
    when the tolerance is positive, [valid_count > 20] and the two first
    entries' entropies differ by less than the tolerance, and the first
    entry of the entropy view otherwise. *)
Theorem smart_guess_is_total_and_falls_back
    (log10 : float -> float)
    (p_entropy_sorted p_rank_sorted : list dictionary_entry) (count : Z)
    (config : HybridConfig) (min_required_counts : list Z)
    (valid_count turn : Z) :
  0 <= count ->
  (Z.to_nat count <= length p_entropy_sorted)%nat ->
  (Z.to_nat count <= length p_rank_sorted)%nat ->
  let result :=
    SolverLogic.get_smart_hybrid_guess log10 p_entropy_sorted p_rank_sorted
      count config min_required_counts valid_count turn in
  (result = None <-> count = 0)
  /\ (0 < count ->
      (forall cand,
          In cand (firstn (Z.to_nat count) p_entropy_sorted)
          \/ In cand (firstn (Z.to_nat count) p_rank_sorted) ->
          SolverLogic.main_pass config min_required_counts valid_count turn
            cand = false) ->
      exists first_by_entropy first_by_rank,
        head p_entropy_sorted = Some first_by_entropy
        /\ head p_rank_sorted = Some first_by_rank
        /\ result
           = Some (if PrimFloat.ltb 0 (rank_priority_tolerance config)
                      && negb (valid_count <=? 20)
                      && PrimFloat.ltb
                           (entropy first_by_entropy - entropy first_by_rank)
                           (rank_priority_tolerance config)
                   then first_by_rank
                   else first_by_entropy)).
Proof.
  intros Hc He Hr result. split.
  - split.
    + intros Hnone. destruct (Z.eq_dec count 0) as [H0|Hn0]; [exact H0|].
      destruct (FallbackFacts.get_smart_hybrid_guess_some log10 config
                  min_required_counts valid_count turn p_entropy_sorted
                  p_rank_sorted count Hn0) as [e Hsome].
      * intros ->. cbn in He. lia.
      * intros ->. cbn in Hr. lia.
      * unfold result in Hnone. congruence.
    + intros ->. reflexivity.
  - intros Hpos Hnone.
    destruct p_entropy_sorted as [|fe rest_e]; [cbn in He; lia|].
    destruct p_rank_sorted as [|fr rest_r]; [cbn in Hr; lia|].
    exists fe, fr. split; [reflexivity|]. split; [reflexivity|].
    assert (Hstd_e : forall cand,
               In cand (firstn (Z.to_nat count) (fe :: rest_e)) ->
               SolverLogic.standard_pass config min_required_counts turn cand
               = false).
    { intros cand Hin.
      destruct (SolverLogic.standard_pass _ _ _ cand) eqn:Hs; [|reflexivity].
      rewrite <- (FallbackFacts.standard_pass_main_pass _ _ valid_count _ _ Hs).
      apply Hnone. left. exact Hin. }
    assert (Hstd_r : forall cand,
               In cand (firstn (Z.to_nat count) (fr :: rest_r)) ->
               SolverLogic.standard_pass config min_required_counts turn cand
               = false).
    { intros cand Hin.
      destruct (SolverLogic.standard_pass _ _ _ cand) eqn:Hs; [|reflexivity].
      rewrite <- (FallbackFacts.standard_pass_main_pass _ _ valid_count _ _ Hs).
      apply Hnone. right. exact Hin. }
    unfold result, SolverLogic.get_smart_hybrid_guess.
    replace (count =? 0) with false by (symmetry; apply Z.eqb_neq; lia).
    rewrite (FallbackFacts.coverage_scan_none _ _ _ _ _ Hstd_r).
    rewrite !(FallbackFacts.biased_scan_none _ _ _ _ _ _ Hstd_e).
    rewrite (FallbackFacts.heatmap_scan_none _ _ _ _ _ _ _ _ Hstd_e).
    unfold SolverLogic.main_selection.
    rewrite (FallbackFacts.main_loop_none log10 config min_required_counts
               valid_count turn)
      by (intros c Hin; apply Hnone; left; exact Hin).
    repeat match goal with
           | |- context [if ?b then @None dictionary_entry else None] =>
               replace (if b then @None dictionary_entry else None)
                 with (@None dictionary_entry) by (destruct b; reflexivity)
           end.
    cbn [head].
    destruct (PrimFloat.ltb 0 (rank_priority_tolerance config)) eqn:Htol;
      cbn [andb]; [|reflexivity].
    destruct (Z.leb_spec valid_count 20) as [Hpanic|Hfree]; cbn [negb andb];
      [reflexivity|].
    unfold SolverLogic.best_rank_candidate.
    rewrite FallbackFacts.find_none.
    + cbn [head].
      destruct (PrimFloat.ltb (entropy fe - entropy fr)
                              (rank_priority_tolerance config));
        reflexivity.
    + intros c Hin. rewrite FallbackFacts.rank_pass_main_pass by exact Hfree.
      apply Hnone. right. exact Hin.
Qed.

Lemma smart_guess_is_total_and_falls_back_witness :
  SolverLogic.get_smart_hybrid_guess sample_log plurals_by_entropy
    plurals_by_rank 21 legacy_reborn (CArray.zeros 26) 21 1 <> None.
Proof.
  intros Hnone.
  apply (proj1 (smart_guess_is_total_and_falls_back sample_log
                  plurals_by_entropy plurals_by_rank 21 legacy_reborn
                  (CArray.zeros 26) 21 1 ltac:(lia) ltac:(cbn; lia)
                  ltac:(cbn; lia))) in Hnone.
  discriminate Hnone.
Defined.

(** C2 as stated fails where the rank tie-breaker runs: on twenty-one
    plural nouns "Legacy Reborn" rejects every candidate, and the guess
    returned is "RATES", the first entry of the rank view, not "TALES",
    the first entry of the entropy view. *)
Lemma fallback_can_be_the_first_rank_entry :
  forallb
    (fun cand =>
       negb (SolverLogic.main_pass legacy_reborn (CArray.zeros 26) 21 1 cand))
    plurals_by_entropy = true
  /\ head plurals_by_entropy = Some (plural "TALES" 4.5 40)
  /\ SolverLogic.get_smart_hybrid_guess sample_log plurals_by_entropy
       plurals_by_rank 21 legacy_reborn (CArray.zeros 26) 21 1
     = Some (plural "RATES" 4.375 80)
  /\ plural "RATES" 4.375 80 <> plural "TALES" 4.5 40.
Proof.
  split; [vm_compute; reflexivity|].
  split; [reflexivity|].
  split; [vm_compute; reflexivity|].
  intros H. apply (f_equal frequency_rank) in H. discriminate H.
Qed.
(* ===================================================================== *)
(** * Part III: further properties of the sources *)
(* ===================================================================== *)

(** ** The feedback pattern, position by position *)

Module PatternFacts.
Import FeedbackCodec CArrayFacts YellowFacts.

Lemma char_at_insert (pat : list ascii) i j c :
  char_at (<[i := c]> pat) j
  = if decide (i = j /\ (i < length pat)%nat) then c else char_at pat j.
Proof.
  case_decide as H.
  - destruct H as [<- Hlt]. apply char_at_insert_eq, Hlt.
  - destruct (decide (i = j)) as [<-|Hne].
    + rewrite list_insert_ge by lia. reflexivity.
    + apply char_at_insert_ne, Hne.
Qed.

Lemma length_greens guess answer ps st :
  length (fst (fold_left (greens_step guess answer) ps st)) = length (fst st).
Proof.
  revert st. induction ps as [|i ps IH]; intros [pat cnt]; [reflexivity|].
  cbn [fold_left]. rewrite IH. unfold greens_step.
  destruct (Ascii.eqb _ _); cbn [fst]; [apply length_insert|reflexivity].
Qed.

Lemma length_yellows guess ps st :
  length (fst (fold_left (yellows_step guess) ps st)) = length (fst st).
Proof.
  revert st. induction ps as [|i ps IH]; intros [pat cnt]; [reflexivity|].
  cbn [fold_left]. rewrite IH. unfold yellows_step.
  destruct (negb _); [|reflexivity].
  destruct (0 <? _); cbn [fst]; [apply length_insert|reflexivity].
Qed.

Lemma length_pattern guess answer :
  length (get_feedback_pattern guess answer) = WORDLE_WORD_LENGTH.
Proof.
  unfold get_feedback_pattern. rewrite length_yellows, length_greens.
  apply length_replicate.
Qed.

(** The first loop writes 'G' exactly where the letters agree. *)
Lemma greens_green guess answer ps : forall st j,
  char_at (fst (fold_left (greens_step guess answer) ps st)) j = "G"%char
  <-> char_at (fst st) j = "G"%char
      \/ (In j ps /\ (j < length (fst st))%nat
          /\ char_at guess j = char_at answer j).
Proof.
  induction ps as [|i ps IH]; intros [pat cnt] j.
  - cbn. tauto.
  - cbn [fold_left]. rewrite IH. unfold greens_step.
    destruct (Ascii.eqb_spec (char_at guess i) (char_at answer i)) as [He|Hne];
      cbn [fst].
    + rewrite length_insert, char_at_insert. cbn [In].
      case_decide as Hd.
      * destruct Hd as [<- Hlt]. tauto.
      * split; [tauto|]. intros [H|[[<-|H] [Hlt Hj]]]; tauto.
    + cbn [In]. split; [tauto|].
      intros [H|[[<-|H] [Hlt Hj]]]; tauto.
Qed.

(** The second loop neither writes nor overwrites a 'G'. *)
Lemma yellows_green guess ps : forall st j,
  char_at (fst (fold_left (yellows_step guess) ps st)) j = "G"%char
  <-> char_at (fst st) j = "G"%char.
Proof.
  induction ps as [|i ps IH]; intros [pat cnt] j; [reflexivity|].
  cbn [fold_left]. rewrite IH. unfold yellows_step.
  destruct (Ascii.eqb_spec (char_at pat i) "G") as [He|Hne]; cbn [negb fst];
    [reflexivity|].
  destruct (0 <? _); cbn [fst]; [|reflexivity].
  rewrite char_at_insert. case_decide as Hd; [|reflexivity].
  destruct Hd as [<- _]. split; [discriminate|]. intros H. contradiction.
Qed.

Lemma green_iff_agree guess answer i :
  (i < WORDLE_WORD_LENGTH)%nat ->
  char_at (get_feedback_pattern guess answer) i = "G"%char
  <-> char_at guess i = char_at answer i.
Proof.
  intros Hi. unfold get_feedback_pattern.
  rewrite yellows_green, greens_green. cbn [fst].
  rewrite length_replicate. split.
  - intros [H|(_ & _ & H)]; [|exact H].
    unfold char_at in H. rewrite nth_lookup in H.
    rewrite lookup_replicate_2 in H by exact Hi. discriminate.
  - intros H. right. split; [|split; [exact Hi|exact H]].
    apply in_seq. unfold WORDLE_WORD_LENGTH in *. lia.
Qed.

(** Two lists of the word length that agree at every position. *)
Lemma char_at_ext (s t : list ascii) :
  length s = WORDLE_WORD_LENGTH -> length t = WORDLE_WORD_LENGTH ->
  (forall i, (i < WORDLE_WORD_LENGTH)%nat -> char_at s i = char_at t i) ->
  s = t.
Proof.
  intros Hs Ht H. apply (nth_ext _ _ Ascii.zero Ascii.zero); [congruence|].
  intros n Hn. apply H. lia.
Qed.

Lemma word_ok_length wd : word_ok wd = true -> length wd = WORDLE_WORD_LENGTH.
Proof.
  unfold word_ok. intros H. apply andb_true_iff in H as [H _].
  apply Nat.eqb_eq in H. exact H.
Qed.

Lemma is_upper_range c : is_upper c = true <-> 0 <= letter_index c < 26.
Proof. unfold is_upper. rewrite andb_true_iff, Z.leb_le, Z.ltb_lt. tauto. Qed.

Lemma word_ok_c_string wd : word_ok wd = true -> c_string wd.
Proof.
  unfold word_ok, c_string. intros H. apply andb_true_iff in H as [_ H].
  rewrite forallb_forall in H. apply List.Forall_forall. intros c Hc Hz.
  specialize (H c Hc). subst c. discriminate H.
Qed.

Lemma all_green_iff guess answer :
  length guess = WORDLE_WORD_LENGTH -> length answer = WORDLE_WORD_LENGTH ->
  get_feedback_pattern guess answer = word_of "GGGGG" <-> guess = answer.
Proof.
  intros Hg Ha. split.
  - intros Hp. apply char_at_ext; [exact Hg|exact Ha|].
    intros i Hi. apply green_iff_agree; [exact Hi|]. rewrite Hp.
    unfold WORDLE_WORD_LENGTH in Hi.
    destruct i as [|[|[|[|[|i]]]]]; try reflexivity. lia.
  - intros ->. apply char_at_ext; [apply length_pattern|reflexivity|].
    intros i Hi. transitivity "G"%char.
    + apply green_iff_agree; [exact Hi|reflexivity].
    + unfold WORDLE_WORD_LENGTH in Hi.
      destruct i as [|[|[|[|[|i]]]]]; try reflexivity. lia.
Qed.

Lemma strncmp_refl n s : strncmp s s n = 0.
Proof.
  revert s. induction n as [|n IH]; intros [|c s]; try reflexivity.
  cbn [strncmp]. rewrite Ascii.eqb_refl.
  destruct (Ascii.eqb c Ascii.zero); [reflexivity|apply IH].
Qed.

Lemma strncmp_eq n s1 s2 :
  c_string s1 -> c_string s2 -> strncmp s1 s2 n = 0 ->
  firstn n s1 = firstn n s2.
Proof.
  revert s1 s2. induction n as [|n IH]; intros s1 s2 H1 H2 Hcmp;
    [reflexivity|].
  destruct H1 as [|c1 s1 Hc1 H1], H2 as [|c2 s2 Hc2 H2]; cbn in Hcmp.
  - reflexivity.
  - exfalso. apply Hc2, StringFacts.char_code_zero. lia.
  - exfalso. apply Hc1, StringFacts.char_code_zero. lia.
  - destruct (Ascii.eqb_spec c1 c2) as [->|Hne].
    + destruct (Ascii.eqb_spec c2 Ascii.zero) as [Hz|_]; [contradiction|].
      cbn [firstn]. f_equal. apply IH; assumption.
    + exfalso. apply Hne, StringFacts.char_code_inj. lia.
Qed.

Lemma strncmp_words guess answer :
  word_ok guess = true -> word_ok answer = true ->
  strncmp guess answer WORDLE_WORD_LENGTH = 0 <-> guess = answer.
Proof.
  intros Hg Ha. split.
  - intros H. apply strncmp_eq in H; try (apply word_ok_c_string; assumption).
    rewrite <- (word_ok_length _ Hg) in H at 1.
    rewrite <- (word_ok_length _ Ha) in H.
    rewrite !firstn_all in H. exact H.
  - intros ->. apply strncmp_refl.
Qed.

End PatternFacts.

(** X1: on five-letter upper-case words, the pattern
    [get_feedback_pattern] writes has the word length, and position [i]
    of it is Green exactly when the guess and the answer have the same
    character there; positions past the end read as the terminator. *)
Theorem green_exactly_where_the_letters_agree (guess answer : list ascii) :
  word_ok guess = true -> word_ok answer = true ->
  length (FeedbackCodec.get_feedback_pattern guess answer) = WORDLE_WORD_LENGTH
  /\ forall i : nat,
       char_at (FeedbackCodec.get_feedback_pattern guess answer) i = "G"%char
       <-> (i < WORDLE_WORD_LENGTH)%nat /\ char_at guess i = char_at answer i.
Proof.
  intros _ _.
  split; [apply PatternFacts.length_pattern|]. intros i.
  destruct (decide (i < WORDLE_WORD_LENGTH)%nat) as [Hi|Hi].
  - rewrite (PatternFacts.green_iff_agree _ _ _ Hi). tauto.
  - split; [|tauto]. unfold char_at. rewrite nth_overflow; [discriminate|].
    rewrite PatternFacts.length_pattern. lia.
Qed.

Lemma green_exactly_where_the_letters_agree_witness :
  length (FeedbackCodec.get_feedback_pattern (word_of "CRANE")
                                             (word_of "TRACE"))
  = WORDLE_WORD_LENGTH
  /\ forall i : nat,
       char_at (FeedbackCodec.get_feedback_pattern (word_of "CRANE")
                                                   (word_of "TRACE")) i
       = "G"%char
       <-> (i < WORDLE_WORD_LENGTH)%nat
           /\ char_at (word_of "CRANE") i = char_at (word_of "TRACE") i.
Proof.
  apply (green_exactly_where_the_letters_agree
           (word_of "CRANE") (word_of "TRACE"));
    reflexivity.
Defined.

(** X2: on five-letter upper-case words the win tests agree: the
    feedback is "GGGGG" exactly when the guess is the answer, which is
    exactly when [strncmp] of the two words over five characters is 0
    (the simulation's test) and when [strcmp] of the feedback with
    "GGGGG" is 0 (the interactive game's test). *)
Theorem all_green_exactly_on_the_answer (guess answer : list ascii) :
  word_ok guess = true -> word_ok answer = true ->
  (FeedbackCodec.get_feedback_pattern guess answer = word_of "GGGGG"
   <-> guess = answer)
  /\ (strncmp guess answer 5 = 0 <-> guess = answer)
  /\ (strcmp (FeedbackCodec.get_feedback_pattern guess answer)
             (word_of "GGGGG") = 0
      <-> guess = answer).
Proof.
  intros Hg Ha.
  pose proof (PatternFacts.all_green_iff guess answer
                (PatternFacts.word_ok_length _ Hg)
                (PatternFacts.word_ok_length _ Ha)) as Hall.
  split; [exact Hall|]. split.
  - apply PatternFacts.strncmp_words; assumption.
  - rewrite <- Hall. split.
    + intros H. apply StringFacts.strcmp_eq in H; [exact H| |].
      * apply StringFacts.pattern_c_string.
      * unfold c_string. repeat constructor; discriminate.
    + intros ->. apply StringFacts.strcmp_refl.
Qed.

Lemma all_green_exactly_on_the_answer_witness :
  (FeedbackCodec.get_feedback_pattern (word_of "CRANE") (word_of "TRACE")
   = word_of "GGGGG" <-> word_of "CRANE" = word_of "TRACE")
  /\ (strncmp (word_of "CRANE") (word_of "TRACE") 5 = 0
      <-> word_of "CRANE" = word_of "TRACE")
  /\ (strcmp (FeedbackCodec.get_feedback_pattern
                (word_of "CRANE") (word_of "TRACE"))
             (word_of "GGGGG") = 0
      <-> word_of "CRANE" = word_of "TRACE").
Proof.
  apply (all_green_exactly_on_the_answer (word_of "CRANE") (word_of "TRACE"));
    reflexivity.
Defined.

(** ** The number of Yellow marks *)

Module YellowCountFacts.
Import FeedbackCodec CArrayFacts YellowFacts PatternFacts.

(** Second loop: the Yellows written for a letter are the smaller of the
    tally it starts with and the non-Green positions holding it. *)
Lemma fold_yellows_min guess c ps :
  List.NoDup ps ->
  forall pat cnt,
    (forall j, In j ps -> (j < length pat)%nat /\ char_at pat j <> "Y"%char) ->
    (forall k, 0 <= CArray.get cnt k) ->
    count_pos (fun i =>
                 Ascii.eqb
                   (char_at (fst (fold_left (yellows_step guess) ps (pat, cnt))) i)
                   "Y"%char
                 && Ascii.eqb (char_at guess i) c) ps
    = Z.min (CArray.get cnt (letter_index c))
            (count_pos (fun i => negb (Ascii.eqb (char_at pat i) "G"%char)
                                 && Ascii.eqb (char_at guess i) c) ps).
Proof.
  induction 1 as [|i ps Hni Hnd IH]; intros pat cnt Hps Hnn.
  - cbn [fold_left]. rewrite !count_pos_nil. specialize (Hnn (letter_index c)).
    lia.
  - destruct (Hps i) as [Hlt HnY]; [left; reflexivity|].
    pose proof (fold_yellows_inv guess c ps Hnd) as Hinv.
    cbn [fold_left]. rewrite !count_pos_cons.
    set (li := letter_index (char_at guess i)).
    destruct (negb (Ascii.eqb (char_at pat i) "G")
              && (0 <? CArray.get cnt li)) eqn:Hcase.
    + apply andb_true_iff in Hcase as [Hng Hpos].
      replace (yellows_step guess (pat, cnt) i)
        with (<[i := "Y"%char]> pat, CArray.decr cnt li)
        by (unfold yellows_step; fold li; rewrite Hng, Hpos; reflexivity).
      apply Z.ltb_lt in Hpos.
      assert (Hr : 0 <= li < Z.of_nat (length cnt)) by (apply get_in_range; lia).
      assert (Hps' : forall j, In j ps ->
                 (j < length (<[i := "Y"%char]> pat))%nat
                 /\ char_at (<[i := "Y"%char]> pat) j <> "Y"%char).
      { intros j Hj. rewrite length_insert.
        assert (i <> j) by (intros ->; contradiction).
        rewrite char_at_insert_ne by assumption. apply Hps. right. exact Hj. }
      assert (Hnn' : forall k, 0 <= CArray.get (CArray.decr cnt li) k).
      { intros k. rewrite get_decr. specialize (Hnn k).
        case_decide as Hk; [destruct Hk as [-> _]|]; lia. }
      specialize (IH _ _ Hps' Hnn').
      specialize (Hinv _ _ Hps' Hnn'). cbv zeta in Hinv.
      destruct Hinv as (_ & Hkeep & _).
      rewrite (Hkeep i Hni), char_at_insert_eq by exact Hlt.
      rewrite Ascii.eqb_refl, IH, Hng. cbn [andb].
      rewrite (count_pos_ext
                 (fun j => negb (Ascii.eqb (char_at (<[i := "Y"%char]> pat) j) "G")
                           && Ascii.eqb (char_at guess j) c)
                 (fun j => negb (Ascii.eqb (char_at pat j) "G")
                           && Ascii.eqb (char_at guess j) c)).
      2:{ intros j Hj. rewrite char_at_insert_ne; [reflexivity|].
          intros ->. contradiction. }
      pose proof (count_pos_nonneg
                    (fun j => negb (Ascii.eqb (char_at pat j) "G")
                              && Ascii.eqb (char_at guess j) c) ps) as Hk.
      rewrite get_decr.
      destruct (Ascii.eqb_spec (char_at guess i) c) as [He|Hne].
      * subst c. fold li.
        rewrite decide_True by (split; [reflexivity|exact Hr]). lia.
      * rewrite decide_False; [lia|]. intros [He _].
        apply Hne. apply letter_index_inj. symmetry. exact He.
    + replace (yellows_step guess (pat, cnt) i) with (pat, cnt)
        by (unfold yellows_step; fold li;
            destruct (negb _); [cbn [andb] in Hcase; rewrite Hcase|];
            reflexivity).
      assert (Hps' : forall j, In j ps ->
                 (j < length pat)%nat /\ char_at pat j <> "Y"%char).
      { intros j Hj. apply Hps. right. exact Hj. }
      specialize (IH _ _ Hps' Hnn).
      specialize (Hinv _ _ Hps' Hnn). cbv zeta in Hinv.
      destruct Hinv as (_ & Hkeep & _).
      rewrite (Hkeep i Hni), IH.
      destruct (Ascii.eqb_spec (char_at pat i) "Y") as [He|_];
        [contradiction|]. cbn [andb].
      pose proof (count_pos_nonneg
                    (fun j => negb (Ascii.eqb (char_at pat j) "G")
                              && Ascii.eqb (char_at guess j) c) ps) as Hk.
      destruct (Ascii.eqb (char_at pat i) "G"); cbn [negb andb] in *; [lia|].
      apply Z.ltb_ge in Hcase.
      destruct (Ascii.eqb_spec (char_at guess i) c) as [He|Hne]; [|lia].
      subst c. fold li. specialize (Hnn li). lia.
Qed.

Lemma yellow_exact guess answer c :
  0 <= letter_index c < 26 ->
  yellow_count guess (get_feedback_pattern guess answer) c
  = Z.min (unmatched_count guess answer c) (misplaced_count guess answer c).
Proof.
  intros Hc.
  unfold yellow_count, unmatched_count, misplaced_count, get_feedback_pattern.
  set (init_pat := replicate WORDLE_WORD_LENGTH "B"%char).
  assert (Hinit : forall j, char_at init_pat j <> "Y"%char).
  { intros j. unfold char_at, init_pat. rewrite nth_lookup.
    destruct (replicate _ _ !! j) eqn:Hl; cbn; [|discriminate].
    apply lookup_replicate_1 in Hl as [-> _]. discriminate. }
  assert (Hz : forall k, 0 <= CArray.get (CArray.zeros 26) k).
  { intros k. rewrite get_zeros. lia. }
  pose proof (fold_greens_inv guess answer c positions init_pat
                (CArray.zeros 26) (length_zeros 26) Hc Hz Hinit) as Hg.
  pose proof (greens_green guess answer positions (init_pat, CArray.zeros 26))
    as Hgg.
  destruct (fold_left (greens_step guess answer) positions
              (init_pat, CArray.zeros 26)) as [pat1 cnt1] eqn:Hgreens.
  cbv zeta in Hg. cbn [fst snd] in Hg, Hgg.
  destruct Hg as (_ & Hlen & Hnn & HnY & Hcnt).
  rewrite get_zeros, Z.add_0_l in Hcnt.
  rewrite (fold_yellows_min guess c positions (List.seq_NoDup _ 0) pat1 cnt1).
  - rewrite Hcnt. f_equal. apply count_pos_ext. intros i Hi.
    destruct (Ascii.eqb_spec (char_at guess i) c) as [He|Hne];
      [|rewrite andb_false_r; reflexivity].
    rewrite !andb_true_r. f_equal.
    destruct (Ascii.eqb_spec (char_at pat1 i) "G") as [HG|HnG],
             (Ascii.eqb_spec (char_at guess i) (char_at answer i)) as [Ha|Hna];
      try reflexivity; exfalso.
    + apply Hgg in HG as [HG|(_ & _ & HG)]; [|contradiction].
      unfold char_at, init_pat in HG. rewrite nth_lookup in HG.
      destruct (replicate _ _ !! i) eqn:Hl; cbn in HG; [|discriminate].
      apply lookup_replicate_1 in Hl as [-> _]. discriminate.
    + apply HnG, Hgg. right. split; [exact Hi|]. split; [|exact Ha].
      unfold init_pat. rewrite length_replicate.
      apply in_seq in Hi. lia.
  - intros j Hj. split; [|apply HnY]. rewrite Hlen. unfold init_pat.
    rewrite length_replicate. apply in_seq in Hj. lia.
  - exact Hnn.
Qed.

(** Base-3 digits determine the pattern. *)
Lemma color_digit_inj c d :
  colour c -> colour d -> color_digit c = color_digit d -> c = d.
Proof.
  intros [Hc|[Hc|Hc]] [Hd|[Hd|Hd]]; subst c d; cbn; intros H;
    try reflexivity; discriminate H.
Qed.

Lemma pattern_value_inj p q :
  length p = WORDLE_WORD_LENGTH -> length q = WORDLE_WORD_LENGTH ->
  Forall colour p -> Forall colour q ->
  pattern_value p = pattern_value q -> p = q.
Proof.
  intros Hp Hq Cp Cq Hv.
  assert (Hd : forall i, (i < WORDLE_WORD_LENGTH)%nat ->
                 color_digit (char_at p i) = color_digit (char_at q i)).
  { unfold pattern_value, positions, WORDLE_WORD_LENGTH in *.
    cbn [seq fold_right] in Hv.
    pose proof (FeedbackFacts.color_digit_range (char_at p 0)).
    pose proof (FeedbackFacts.color_digit_range (char_at p 1)).
    pose proof (FeedbackFacts.color_digit_range (char_at p 2)).
    pose proof (FeedbackFacts.color_digit_range (char_at p 3)).
    pose proof (FeedbackFacts.color_digit_range (char_at p 4)).
    pose proof (FeedbackFacts.color_digit_range (char_at q 0)).
    pose proof (FeedbackFacts.color_digit_range (char_at q 1)).
    pose proof (FeedbackFacts.color_digit_range (char_at q 2)).
    pose proof (FeedbackFacts.color_digit_range (char_at q 3)).
    pose proof (FeedbackFacts.color_digit_range (char_at q 4)).
    change (Z.of_nat 0) with 0 in Hv; change (Z.of_nat 1) with 1 in Hv;
    change (Z.of_nat 2) with 2 in Hv; change (Z.of_nat 3) with 3 in Hv;
    change (Z.of_nat 4) with 4 in Hv.
    intros i Hi. destruct i as [|[|[|[|[|i]]]]]; lia. }
  apply char_at_ext; [exact Hp|exact Hq|]. intros i Hi.
  apply color_digit_inj; [| |apply Hd, Hi].
  - rewrite List.Forall_forall in Cp. apply Cp. unfold char_at.
    apply nth_In. lia.
  - rewrite List.Forall_forall in Cq. apply Cq. unfold char_at.
    apply nth_In. lia.
Qed.

End YellowCountFacts.

(** X3: on five-letter upper-case words and for an upper-case letter,
    the positions [get_feedback_pattern] marks Yellow for it are exactly
    the smaller of two counts: the occurrences of the letter in the
    answer that are not matched Green, and the positions of the guess
    that hold the letter without being Green. *)
Theorem yellow_marks_are_the_smaller_side
    (guess answer : list ascii) (c : ascii) :
  word_ok guess = true -> word_ok answer = true ->
  is_upper c = true ->
  yellow_count guess (FeedbackCodec.get_feedback_pattern guess answer) c
  = Z.min (unmatched_count guess answer c) (misplaced_count guess answer c).
Proof.
  intros _ _ Hc.
  apply YellowCountFacts.yellow_exact, PatternFacts.is_upper_range, Hc.
Qed.

Lemma yellow_marks_are_the_smaller_side_witness :
  yellow_count (word_of "GEESE")
    (FeedbackCodec.get_feedback_pattern (word_of "GEESE") (word_of "ELDER"))
    "E"
  = Z.min (unmatched_count (word_of "GEESE") (word_of "ELDER") "E")
          (misplaced_count (word_of "GEESE") (word_of "ELDER") "E").
Proof.
  apply (yellow_marks_are_the_smaller_side (word_of "GEESE") (word_of "ELDER")
           "E"%char);
    reflexivity.
Defined.

(** X4: on five-letter upper-case words, two guess/answer pairs get the
    same pattern index from [compute_feedback_index] exactly when
    [get_feedback_pattern] gives them the same pattern: the 243 buckets
    of the histogram are the feedback patterns, no two patterns share a
    bucket. *)
Theorem same_index_exactly_for_the_same_pattern
    (guess1 answer1 guess2 answer2 : list ascii) :
  word_ok guess1 = true -> word_ok answer1 = true ->
  word_ok guess2 = true -> word_ok answer2 = true ->
  FeedbackCodec.compute_feedback_index guess1 answer1
  = FeedbackCodec.compute_feedback_index guess2 answer2
  <-> FeedbackCodec.get_feedback_pattern guess1 answer1
      = FeedbackCodec.get_feedback_pattern guess2 answer2.
Proof.
  intros _ _ _ _.
  rewrite !FeedbackFacts.compute_feedback_index_pattern. split.
  - apply YellowCountFacts.pattern_value_inj;
      try apply PatternFacts.length_pattern;
      apply StringFacts.pattern_colours.
  - intros ->. reflexivity.
Qed.

Lemma same_index_exactly_for_the_same_pattern_witness :
  FeedbackCodec.compute_feedback_index (word_of "CRANE") (word_of "TRACE")
  = FeedbackCodec.compute_feedback_index (word_of "GEESE") (word_of "ELDER")
  <-> FeedbackCodec.get_feedback_pattern (word_of "CRANE") (word_of "TRACE")
      = FeedbackCodec.get_feedback_pattern (word_of "GEESE") (word_of "ELDER").
Proof.
  apply (same_index_exactly_for_the_same_pattern
           (word_of "CRANE") (word_of "TRACE")
           (word_of "GEESE") (word_of "ELDER"));
    reflexivity.
Defined.

(** ** The pattern histogram and the two entropy passes *)

Module TallyFacts.
Import CArrayFacts.

Lemma total_insert (a : list Z) (n : nat) (v : Z) :
  (n < length a)%nat ->
  total (<[n := v]> a) = total a + (v - default 0 (a !! n)).
Proof.
  unfold total. revert n.
  induction a as [|x a IH]; intros n Hn; [cbn in Hn; lia|].
  destruct n as [|n].
  - change (<[0%nat := v]> (x :: a)) with (v :: a).
    change ((x :: a) !! 0%nat) with (Some x).
    cbn [fold_right default from_option id]. lia.
  - change (<[S n := v]> (x :: a)) with (x :: <[n := v]> a).
    change ((x :: a) !! S n) with (a !! n).
    cbn [fold_right]. rewrite IH by (cbn in Hn; lia). lia.
Qed.

Lemma total_incr (a : list Z) (i : Z) :
  0 <= i < Z.of_nat (length a) -> total (CArray.incr a i) = total a + 1.
Proof.
  intros Hi. unfold CArray.incr, CArray.set, CArray.get.
  rewrite !decide_True by lia. rewrite total_insert by lia. lia.
Qed.

Lemma total_zeros n : total (CArray.zeros n) = 0.
Proof. induction n as [|n IH]; [reflexivity|]. cbn. exact IH. Qed.

(** Every item that lands inside the array adds one to the sum. *)
Lemma total_fold_incr {A} (f : A -> Z) (l : list A) init :
  (forall a, In a l -> 0 <= f a < Z.of_nat (length init)) ->
  total (fold_left (fun bins a => CArray.incr bins (f a)) l init)
  = total init + Z.of_nat (length l).
Proof.
  revert init. induction l as [|a l IH]; intros init Hf;
    [cbn [fold_left length]; lia|].
  cbn [fold_left length]. rewrite IH.
  - rewrite total_incr by (apply Hf; left; reflexivity). lia.
  - intros b Hb. unfold CArray.incr. rewrite length_set. apply Hf.
    right. exact Hb.
Qed.

Lemma index_range guess answer :
  0 <= FeedbackCodec.compute_feedback_index guess answer < 243.
Proof.
  rewrite FeedbackFacts.compute_feedback_index_pattern.
  pose proof (FeedbackFacts.pattern_value_range
                (FeedbackCodec.get_feedback_pattern guess answer)). lia.
Qed.

End TallyFacts.

(** X5: on five-letter upper-case words, the histogram
    [calculate_entropy_internal] builds for a guess has 243 buckets;
    bucket [k] holds the number of answers whose pattern index is [k];
    and the buckets add up to the number of answers, so no answer is
    counted outside the array. *)
Theorem pattern_histogram_counts_every_answer
    (guess : list ascii) (answers : list dictionary_entry) :
  word_ok guess = true ->
  Forall (fun a => word_ok (word a) = true) answers ->
  length (tally_patterns guess answers) = MAX_PATTERNS
  /\ (forall k : Z,
         0 <= k < 243 ->
         CArray.get (tally_patterns guess answers) k
         = Z.of_nat
             (length
                (List.filter
                   (fun a =>
                      FeedbackCodec.compute_feedback_index guess (word a) =? k)
                   answers)))
  /\ total (tally_patterns guess answers) = Z.of_nat (length answers).
Proof.
  intros _ _.
  unfold tally_patterns. split; [|split].
  - rewrite (HistogramFacts.length_fold_incr
               (fun a => FeedbackCodec.compute_feedback_index guess (word a))).
    apply CArrayFacts.length_zeros.
  - intros k Hk.
    rewrite (HistogramFacts.get_fold_incr
               (fun a => FeedbackCodec.compute_feedback_index guess (word a)))
      by (rewrite CArrayFacts.length_zeros; exact Hk).
    rewrite CArrayFacts.get_zeros. lia.
  - rewrite (TallyFacts.total_fold_incr
               (fun a => FeedbackCodec.compute_feedback_index guess (word a))).
    + rewrite TallyFacts.total_zeros. lia.
    + intros a _. rewrite CArrayFacts.length_zeros.
      apply TallyFacts.index_range.
Qed.

Lemma pattern_histogram_counts_every_answer_witness :
  length (tally_patterns (word_of "CRANE")
            [sample_entry "TRACE" 0 50 "S" "P" false false;
             sample_entry "CRATE" 0 50 "S" "N" false false])
  = MAX_PATTERNS
  /\ (forall k : Z,
         0 <= k < 243 ->
         CArray.get
           (tally_patterns (word_of "CRANE")
              [sample_entry "TRACE" 0 50 "S" "P" false false;
               sample_entry "CRATE" 0 50 "S" "N" false false]) k
         = Z.of_nat
             (length
                (List.filter
                   (fun a =>
                      FeedbackCodec.compute_feedback_index
                        (word_of "CRANE") (word a) =? k)
                   [sample_entry "TRACE" 0 50 "S" "P" false false;
                    sample_entry "CRATE" 0 50 "S" "N" false false])))
  /\ total (tally_patterns (word_of "CRANE")
              [sample_entry "TRACE" 0 50 "S" "P" false false;
               sample_entry "CRATE" 0 50 "S" "N" false false])
     = Z.of_nat
         (length [sample_entry "TRACE" 0 50 "S" "P" false false;
                  sample_entry "CRATE" 0 50 "S" "N" false false]).
Proof.
  apply (pattern_histogram_counts_every_answer (word_of "CRANE")
           [sample_entry "TRACE" 0 50 "S" "P" false false;
            sample_entry "CRATE" 0 50 "S" "N" false false]).
  - reflexivity.
  - repeat constructor.
Defined.

(** X6: the two entropy passes agree on the valid entries.  On a pool
    with at least one valid entry, [calculate_entropy_on_dictionary]
    (hard mode) leaves at every index what
    [calculate_entropy_for_candidates] (normal mode) leaves there when it
    is given the valid entries of the pool as answers, except that it
    sets the entropy of an eliminated entry to 0. *)
Theorem entropy_passes_agree_on_valid_entries
    (log : float -> float) (pool : list dictionary_entry) :
  valid_entries pool <> [] ->
  forall (i : nat) (e : dictionary_entry),
    calculate_entropy_for_candidates log pool (Z.of_nat (length pool))
      (valid_entries pool) (Z.of_nat (length (valid_entries pool))) !! i
    = Some e ->
    calculate_entropy_on_dictionary log true pool (Z.of_nat (length pool)) !! i
    = Some (if is_eliminated e then set_entropy e 0%float else e).
Proof.
  intros Hne i e.
  unfold calculate_entropy_for_candidates, calculate_entropy_on_dictionary.
  rewrite EntropyFacts.firstn_length_all, EntropyFacts.valid_count_length.
  fold (valid_entries pool). rewrite Z.add_0_l.
  destruct (Z.eqb_spec (Z.of_nat (length (valid_entries pool))) 0) as [H0|_].
  { destruct (valid_entries pool); [contradiction|cbn in H0; lia]. }
  cbn [negb]. rewrite !PrefixFacts.lookup_update_prefix.
  destruct (pool !! i) as [x|] eqn:Hx; cbn [fmap option_fmap option_map];
    [|discriminate].
  apply lookup_lt_Some in Hx as Hlt. rewrite !decide_True by lia.
  intros [= <-]. destruct x as [w h r n v d el]. destruct el; reflexivity.
Qed.

Lemma entropy_passes_agree_on_valid_entries_witness :
  calculate_entropy_on_dictionary sample_log true
    [sample_entry "TRACE" 0 50 "S" "P" false false;
     sample_entry "SPEED" 2.5 50 "S" "P" true true] 2 !! 1%nat
  = Some (sample_entry "SPEED" 0 50 "S" "P" true true).
Proof.
  apply (entropy_passes_agree_on_valid_entries sample_log
           [sample_entry "TRACE" 0 50 "S" "P" false false;
            sample_entry "SPEED" 2.5 50 "S" "P" true true]
           ltac:(discriminate) 1%nat
           (sample_entry "SPEED" 0 50 "S" "P" true true)).
  reflexivity.
Defined.

(** ** The other comparators *)

Module OrderFacts.
Import Comparators ComparatorFacts.

(** What coherence gives: the strict part is a strict weak ordering. *)
Lemma coherent_order {A} (D : A -> Prop) (c : A -> A -> Z) :
  coherent D c ->
  forall a b d : A, D a -> D b -> D d ->
    ~ c a a < 0
    /\ (c a b < 0 <-> 0 < c b a)
    /\ (c a b < 0 -> c b d < 0 -> c a d < 0)
    /\ (~ c a b < 0 -> ~ c b a < 0 -> ~ c b d < 0 -> ~ c d b < 0 ->
        ~ c a d < 0 /\ ~ c d a < 0).
Proof.
  intros [F T] a b d Ha Hb Hd.
  pose proof (F a a Ha Ha). pose proof (F a b Ha Hb).
  pose proof (F b a Hb Ha). pose proof (F b d Hb Hd).
  pose proof (F d b Hd Hb). pose proof (F a d Ha Hd).
  pose proof (F d a Hd Ha).
  pose proof (T a b d Ha Hb Hd). pose proof (T b d a Hb Hd Ha).
  pose proof (T d a b Hd Ha Hb). pose proof (T d b a Hd Hb Ha).
  pose proof (T b a d Hb Ha Hd). pose proof (T a d b Ha Hd Hb).
  lia.
Qed.

Lemma coherent_ext {A} (D : A -> Prop) (c c' : A -> A -> Z) :
  (forall a b, c' a b = c a b) -> coherent D c -> coherent D c'.
Proof.
  intros He [F T]. split.
  - intros a b Ha Hb. rewrite !He. apply F; assumption.
  - intros a b d Ha Hb Hd. rewrite !He. apply T; assumption.
Qed.

Lemma coherent_rank_tie_breaker :
  coherent entropy_is_number compare_with_rank_tie_breaker.
Proof.
  apply (coherent_ext _
           (lex dup_diff
              (lex noun_type_diff
                 (lex verb_type_diff
                    (lex entropy_diff
                       (fun a b =>
                          strncmp (word a) (word b) WORDLE_WORD_LENGTH))))));
    [reflexivity|].
  apply coherent_lex;
    [apply (coherent_weaken (fun _ => True)); [auto|apply coherent_dup_diff]|].
  apply coherent_lex;
    [apply (coherent_weaken (fun _ => True));
       [auto|apply coherent_noun_type_diff]|].
  apply coherent_lex;
    [apply (coherent_weaken (fun _ => True));
       [auto|apply coherent_verb_type_diff]|].
  apply coherent_lex; [apply coherent_entropy_diff|].
  apply (coherent_weaken (fun _ => True)); [auto|apply coherent_strncmp].
Qed.

Lemma coherent_rank_desc :
  coherent entropy_is_number compare_dictionary_entries_by_rank_desc.
Proof.
  apply (coherent_ext _
           (lex eliminated_diff
              (lex rank_diff compare_with_rank_tie_breaker)));
    [reflexivity|].
  apply coherent_lex;
    [apply (coherent_weaken (fun _ => True));
       [auto|apply coherent_eliminated_diff]|].
  apply coherent_lex;
    [apply (coherent_weaken (fun _ => True)); [auto|apply coherent_rank_diff]|].
  apply coherent_rank_tie_breaker.
Qed.

Lemma coherent_no_filter :
  coherent entropy_is_number
           compare_dictionary_entries_by_entropy_no_filter_desc.
Proof.
  apply (coherent_ext _
           (lex entropy_diff
              (lex eliminated_diff compare_with_entropy_tie_breaker)));
    [reflexivity|].
  apply coherent_lex; [apply coherent_entropy_diff|].
  apply (coherent_weaken (fun _ => True)); [auto|].
  apply coherent_lex; [apply coherent_eliminated_diff|].
  apply coherent_tie_breaker.
Qed.

Lemma master_lex a b :
  compare_master_entries_eliminated_then_alpha a b
  = lex eliminated_diff
        (fun a b => strncmp (word a) (word b) WORDLE_WORD_LENGTH) a b.
Proof.
  unfold compare_master_entries_eliminated_then_alpha, lex, eliminated_diff.
  destruct (is_eliminated a), (is_eliminated b); reflexivity.
Qed.

Lemma coherent_master :
  coherent (fun _ => True) compare_master_entries_eliminated_then_alpha.
Proof.
  apply (coherent_ext _ _ _ master_lex).
  apply coherent_lex; [apply coherent_eliminated_diff|apply coherent_strncmp].
Qed.

(** The three comparators that test the flag first never put an
    eliminated entry before a valid one. *)
Lemma entropy_desc_flag a b :
  compare_dictionary_entries_by_entropy_desc a b <= 0 ->
  is_eliminated a = true -> is_eliminated b = true.
Proof.
  unfold compare_dictionary_entries_by_entropy_desc, eliminated_diff.
  intros H Ha. rewrite Ha in H. destruct (is_eliminated b); [reflexivity|].
  cbn in H. lia.
Qed.

Lemma rank_desc_flag a b :
  compare_dictionary_entries_by_rank_desc a b <= 0 ->
  is_eliminated a = true -> is_eliminated b = true.
Proof.
  unfold compare_dictionary_entries_by_rank_desc, eliminated_diff.
  intros H Ha. rewrite Ha in H. destruct (is_eliminated b); [reflexivity|].
  cbn in H. lia.
Qed.

Lemma master_flag a b :
  compare_master_entries_eliminated_then_alpha a b <= 0 ->
  is_eliminated a = true -> is_eliminated b = true.
Proof.
  unfold compare_master_entries_eliminated_then_alpha.
  intros H Ha. rewrite Ha in H. destruct (is_eliminated b); [reflexivity|].
  cbn in H. lia.
Qed.

(** Without a difference in entropy the normal-mode comparator does the
    same. *)
Lemma no_filter_flag a b :
  PrimFloat.ltb (entropy a) (entropy b) = false ->
  PrimFloat.ltb (entropy b) (entropy a) = false ->
  compare_dictionary_entries_by_entropy_no_filter_desc a b <= 0 ->
  is_eliminated a = true -> is_eliminated b = true.
Proof.
  unfold compare_dictionary_entries_by_entropy_no_filter_desc, entropy_diff,
    eliminated_diff.
  intros H1 H2 H Ha. rewrite H1, H2, Ha in H.
  destruct (is_eliminated b); [reflexivity|]. cbn in H. lia.
Qed.

Lemma in_order_tail cmp a view :
  in_order cmp (a :: view) = true -> in_order cmp view = true.
Proof.
  destruct view as [|b view]; [reflexivity|]. cbn [in_order].
  intros H. apply andb_true_iff in H as [_ H]. exact H.
Qed.

(** In a view in order, everything after an eliminated entry is
    eliminated. *)
Lemma in_order_eliminated_tail cmp view :
  (forall a b, In a view -> In b view ->
               cmp a b <= 0 -> is_eliminated a = true -> is_eliminated b = true) ->
  forall a rest,
    view = a :: rest -> in_order cmp view = true -> is_eliminated a = true ->
    List.Forall (fun e => is_eliminated e = true) rest.
Proof.
  intros Hflag a rest ->. revert a Hflag.
  induction rest as [|b rest IH]; intros a Hflag Hord Ha; [constructor|].
  cbn [in_order] in Hord. apply andb_true_iff in Hord as [Hab Hord].
  apply Z.leb_le in Hab.
  assert (Hb : is_eliminated b = true).
  { apply (Hflag a b); [left; reflexivity|right; left; reflexivity| |];
      assumption. }
  constructor; [exact Hb|].
  apply (IH b); [|exact Hord|exact Hb].
  intros x y Hx Hy. apply Hflag; right; assumption.
Qed.

Lemma valid_entries_eliminated l :
  List.Forall (fun e => is_eliminated e = true) l ->
  valid_entries l = [] /\ List.filter is_eliminated l = l.
Proof.
  induction 1 as [|e l He _ [IH1 IH2]]; [split; reflexivity|].
  unfold valid_entries in *. cbn [List.filter]. rewrite He. cbn [negb].
  rewrite IH1, IH2. split; reflexivity.
Qed.

Lemma in_order_valid_first cmp view :
  (forall a b, In a view -> In b view ->
               cmp a b <= 0 -> is_eliminated a = true -> is_eliminated b = true) ->
  in_order cmp view = true ->
  view = valid_entries view ++ List.filter is_eliminated view.
Proof.
  induction view as [|a view IH]; intros Hflag Hord; [reflexivity|].
  destruct (is_eliminated a) eqn:Ha.
  - pose proof (in_order_eliminated_tail cmp (a :: view) Hflag a view
                  eq_refl Hord Ha) as Hall.
    apply valid_entries_eliminated in Hall as [Hv Hf].
    unfold valid_entries in *. cbn [List.filter]. rewrite Ha. cbn [negb].
    rewrite Hv, Hf. reflexivity.
  - unfold valid_entries in *. cbn [List.filter]. rewrite Ha. cbn [negb app].
    f_equal. apply IH.
    + intros x y Hx Hy. apply Hflag; right; assumption.
    + apply (in_order_tail cmp a), Hord.
Qed.

(** The loop that looks for the first eliminated entry. *)
Lemma first_eliminated_valid l i n :
  List.Forall (fun e => is_eliminated e = false) l ->
  GameLoop.first_eliminated l i n = n.
Proof.
  intros H. revert i. induction H as [|e l He _ IH]; intros i; [reflexivity|].
  cbn [GameLoop.first_eliminated]. rewrite He. apply IH.
Qed.

Lemma first_eliminated_app l1 e l2 i n :
  List.Forall (fun e => is_eliminated e = false) l1 ->
  is_eliminated e = true ->
  GameLoop.first_eliminated (l1 ++ e :: l2) i n = i + Z.of_nat (length l1).
Proof.
  intros H He. revert i. induction H as [|x l Hx _ IH]; intros i.
  - cbn [app GameLoop.first_eliminated length]. rewrite He. lia.
  - cbn [app GameLoop.first_eliminated length]. rewrite Hx, IH. lia.
Qed.

Lemma valid_entries_valid l :
  List.Forall (fun e => is_eliminated e = false) (valid_entries l).
Proof.
  apply List.Forall_forall. intros e He. unfold valid_entries in He.
  apply filter_In in He as [_ He]. apply negb_true_iff in He. exact He.
Qed.

Lemma filter_eliminated_head l e rest :
  List.filter is_eliminated l = e :: rest -> is_eliminated e = true.
Proof.
  intros H. assert (Hin : In e (List.filter is_eliminated l))
    by (rewrite H; left; reflexivity).
  apply filter_In in Hin as [_ He]. exact He.
Qed.

End OrderFacts.

(** X7: [compare_dictionary_entries_by_rank_desc] puts every valid entry
    strictly before every eliminated one; among entries with the same
    flag the higher frequency rank comes first; and on entries whose
    entropy is a number (the entropy is one of its tie-breaks) its strict
    part is a strict weak ordering whose sign flips when the arguments
    are swapped. *)
Theorem rank_desc_is_a_strict_weak_ordering :
  (forall a b : dictionary_entry,
      is_eliminated a = false -> is_eliminated b = true ->
      Comparators.compare_dictionary_entries_by_rank_desc a b < 0
      /\ 0 < Comparators.compare_dictionary_entries_by_rank_desc b a)
  /\ (forall a b : dictionary_entry,
         is_eliminated a = is_eliminated b ->
         frequency_rank b < frequency_rank a ->
         Comparators.compare_dictionary_entries_by_rank_desc a b < 0)
  /\ (forall a b c : dictionary_entry,
         entropy_is_number a -> entropy_is_number b -> entropy_is_number c ->
         let before x y :=
           Comparators.compare_dictionary_entries_by_rank_desc x y < 0 in
         ~ before a a
         /\ (before a b <->
             0 < Comparators.compare_dictionary_entries_by_rank_desc b a)
         /\ (before a b -> before b c -> before a c)
         /\ (~ before a b -> ~ before b a -> ~ before b c -> ~ before c b ->
             ~ before a c /\ ~ before c a)).
Proof.
  split; [|split].
  - intros a b Ha Hb.
    unfold Comparators.compare_dictionary_entries_by_rank_desc,
      Comparators.eliminated_diff.
    rewrite Ha, Hb. cbn. lia.
  - intros a b Hf Hr.
    unfold Comparators.compare_dictionary_entries_by_rank_desc,
      Comparators.eliminated_diff, Comparators.rank_diff.
    rewrite Hf. destruct (is_eliminated b); cbn [andb negb Z.eqb];
      (replace (frequency_rank a <? frequency_rank b) with false
         by (symmetry; apply Z.ltb_ge; lia));
      (replace (frequency_rank b <? frequency_rank a) with true
         by (symmetry; apply Z.ltb_lt; lia)); cbn; lia.
  - intros a b c Ha Hb Hc before. unfold before.
    apply (OrderFacts.coherent_order _ _ OrderFacts.coherent_rank_desc);
      assumption.
Qed.

Lemma rank_desc_is_a_strict_weak_ordering_witness :
  let a := sample_entry "CRANE" 5.5 70 "S" "N" false false in
  let b := sample_entry "TRACE" 5.5 60 "S" "P" false false in
  let c := sample_entry "SPEED" 4.25 80 "S" "P" true true in
  let before x y :=
    Comparators.compare_dictionary_entries_by_rank_desc x y < 0 in
  (before a c /\ 0 < Comparators.compare_dictionary_entries_by_rank_desc c a)
  /\ before a b
  /\ ~ before a a
  /\ (before a b <->
      0 < Comparators.compare_dictionary_entries_by_rank_desc b a)
  /\ (before a b -> before b c -> before a c)
  /\ (~ before a b -> ~ before b a -> ~ before b c -> ~ before c b ->
      ~ before a c /\ ~ before c a).
Proof.
  split; [|split].
  - apply (proj1 rank_desc_is_a_strict_weak_ordering
             (sample_entry "CRANE" 5.5 70 "S" "N" false false)
             (sample_entry "SPEED" 4.25 80 "S" "P" true true));
      reflexivity.
  - apply (proj1 (proj2 rank_desc_is_a_strict_weak_ordering)
             (sample_entry "CRANE" 5.5 70 "S" "N" false false)
             (sample_entry "TRACE" 5.5 60 "S" "P" false false));
      [reflexivity|cbn; lia].
  - apply (proj2 (proj2 rank_desc_is_a_strict_weak_ordering)
             (sample_entry "CRANE" 5.5 70 "S" "N" false false)
             (sample_entry "TRACE" 5.5 60 "S" "P" false false)
             (sample_entry "SPEED" 4.25 80 "S" "P" true true));
      reflexivity.
Defined.

(** X8: [compare_dictionary_entries_by_entropy_no_filter_desc] (normal
    mode) puts the entry of the strictly higher entropy first whatever
    the elimination flags; when neither entropy is below the other it
    puts a valid entry before an eliminated one; and on entries whose
    entropy is a number its strict part is a strict weak ordering whose
    sign flips when the arguments are swapped. *)
Theorem entropy_no_filter_desc_is_a_strict_weak_ordering :
  (forall a b : dictionary_entry,
      PrimFloat.ltb (entropy b) (entropy a) = true ->
      Comparators.compare_dictionary_entries_by_entropy_no_filter_desc a b < 0
      /\ 0 < Comparators.compare_dictionary_entries_by_entropy_no_filter_desc
               b a)
  /\ (forall a b : dictionary_entry,
         PrimFloat.ltb (entropy a) (entropy b) = false ->
         PrimFloat.ltb (entropy b) (entropy a) = false ->
         is_eliminated a = false -> is_eliminated b = true ->
         Comparators.compare_dictionary_entries_by_entropy_no_filter_desc a b
         < 0)
  /\ (forall a b c : dictionary_entry,
         entropy_is_number a -> entropy_is_number b -> entropy_is_number c ->
         let before x y :=
           Comparators.compare_dictionary_entries_by_entropy_no_filter_desc
             x y < 0 in
         ~ before a a
         /\ (before a b <->
             0 < Comparators.compare_dictionary_entries_by_entropy_no_filter_desc
                   b a)
         /\ (before a b -> before b c -> before a c)
         /\ (~ before a b -> ~ before b a -> ~ before b c -> ~ before c b ->
             ~ before a c /\ ~ before c a)).
Proof.
  split; [|split].
  - intros a b Hlt. pose proof (FloatOrder.ltb_asym _ _ Hlt) as Hge.
    unfold Comparators.compare_dictionary_entries_by_entropy_no_filter_desc,
      Comparators.entropy_diff.
    rewrite Hlt, Hge. cbn. lia.
  - intros a b H1 H2 Ha Hb.
    unfold Comparators.compare_dictionary_entries_by_entropy_no_filter_desc,
      Comparators.entropy_diff, Comparators.eliminated_diff.
    rewrite H1, H2, Ha, Hb. cbn. lia.
  - intros a b c Ha Hb Hc before. unfold before.
    apply (OrderFacts.coherent_order _ _ OrderFacts.coherent_no_filter);
      assumption.
Qed.

Lemma entropy_no_filter_desc_is_a_strict_weak_ordering_witness :
  let a := sample_entry "SLATE" 5.5 70 "S" "N" false true in
  let b := sample_entry "TRACE" 4.25 60 "S" "P" false false in
  let c := sample_entry "SPEED" 4.25 80 "S" "P" true true in
  let before x y :=
    Comparators.compare_dictionary_entries_by_entropy_no_filter_desc x y < 0 in
  (before a b
   /\ 0 < Comparators.compare_dictionary_entries_by_entropy_no_filter_desc b a)
  /\ before b c
  /\ ~ before a a
  /\ (before a b <->
      0 < Comparators.compare_dictionary_entries_by_entropy_no_filter_desc b a)
  /\ (before a b -> before b c -> before a c)
  /\ (~ before a b -> ~ before b a -> ~ before b c -> ~ before c b ->
      ~ before a c /\ ~ before c a).
Proof.
  split; [|split].
  - apply (proj1 entropy_no_filter_desc_is_a_strict_weak_ordering
             (sample_entry "SLATE" 5.5 70 "S" "N" false true)
             (sample_entry "TRACE" 4.25 60 "S" "P" false false));
      reflexivity.
  - apply (proj1 (proj2 entropy_no_filter_desc_is_a_strict_weak_ordering)
             (sample_entry "TRACE" 4.25 60 "S" "P" false false)
             (sample_entry "SPEED" 4.25 80 "S" "P" true true));
      reflexivity.
  - apply (proj2 (proj2 entropy_no_filter_desc_is_a_strict_weak_ordering)
             (sample_entry "SLATE" 5.5 70 "S" "N" false true)
             (sample_entry "TRACE" 4.25 60 "S" "P" false false)
             (sample_entry "SPEED" 4.25 80 "S" "P" true true));
      reflexivity.
Defined.

(** X9: [compare_master_entries_eliminated_then_alpha], which has no
    floating-point key, is a strict weak ordering on all entries: its
    strict part is irreflexive and transitive, "neither before the other"
    is transitive, and swapping the arguments flips the sign.  It puts
    every valid entry strictly before every eliminated one, and two
    entries with the same flag and five-letter upper-case words compare
    equal only when the words are the same. *)
Theorem eliminated_then_alpha_is_a_strict_weak_ordering
    (a b c : dictionary_entry) :
  let cmp := Comparators.compare_master_entries_eliminated_then_alpha in
  ~ cmp a a < 0
  /\ (cmp a b < 0 <-> 0 < cmp b a)
  /\ (cmp a b < 0 -> cmp b c < 0 -> cmp a c < 0)
  /\ (~ cmp a b < 0 -> ~ cmp b a < 0 -> ~ cmp b c < 0 -> ~ cmp c b < 0 ->
      ~ cmp a c < 0 /\ ~ cmp c a < 0)
  /\ (is_eliminated a = false -> is_eliminated b = true -> cmp a b < 0)
  /\ (is_eliminated a = is_eliminated b ->
      word_ok (word a) = true -> word_ok (word b) = true ->
      (cmp a b = 0 <-> word a = word b)).
Proof.
  intros cmp.
  pose proof (OrderFacts.coherent_order _ _ OrderFacts.coherent_master
                a b c I I I) as (H1 & H2 & H3 & H4).
  split; [exact H1|]. split; [exact H2|]. split; [exact H3|].
  split; [exact H4|]. split.
  - intros Ha Hb. unfold cmp,
      Comparators.compare_master_entries_eliminated_then_alpha.
    rewrite Ha, Hb. cbn. lia.
  - intros Hf Ha Hb. unfold cmp,
      Comparators.compare_master_entries_eliminated_then_alpha.
    rewrite Hf. destruct (is_eliminated b); cbn [andb negb];
      apply PatternFacts.strncmp_words; assumption.
Qed.

Lemma eliminated_then_alpha_is_a_strict_weak_ordering_witness :
  Comparators.compare_master_entries_eliminated_then_alpha
    (sample_entry "TRACE" 0 50 "S" "P" false false)
    (sample_entry "CRANE" 0 50 "S" "N" false true) < 0
  /\ (Comparators.compare_master_entries_eliminated_then_alpha
        (sample_entry "TRACE" 0 50 "S" "P" false false)
        (sample_entry "TRACE" 1 60 "S" "N" true false) = 0
      <-> word (sample_entry "TRACE" 0 50 "S" "P" false false)
          = word (sample_entry "TRACE" 1 60 "S" "N" true false)).
Proof.
  split.
  - apply (eliminated_then_alpha_is_a_strict_weak_ordering
             (sample_entry "TRACE" 0 50 "S" "P" false false)
             (sample_entry "CRANE" 0 50 "S" "N" false true)
             (sample_entry "CRANE" 0 50 "S" "N" false true));
      reflexivity.
  - apply (eliminated_then_alpha_is_a_strict_weak_ordering
             (sample_entry "TRACE" 0 50 "S" "P" false false)
             (sample_entry "TRACE" 1 60 "S" "N" true false)
             (sample_entry "CRANE" 0 50 "S" "N" false true));
      reflexivity.
Defined.

(** X10: in a view that is in the order of
    [compare_dictionary_entries_by_entropy_desc], of
    [compare_dictionary_entries_by_rank_desc] or of
    [compare_master_entries_eliminated_then_alpha], the valid entries
    come first: the view is its valid entries followed by its eliminated
    ones. *)
Theorem valid_entries_lead_a_sorted_view (view : list dictionary_entry) :
  in_order Comparators.compare_dictionary_entries_by_entropy_desc view = true
  \/ in_order Comparators.compare_dictionary_entries_by_rank_desc view = true
  \/ in_order Comparators.compare_master_entries_eliminated_then_alpha view
     = true ->
  view = valid_entries view ++ List.filter is_eliminated view.
Proof.
  intros [H|[H|H]]; revert H; apply OrderFacts.in_order_valid_first;
    intros a b _ _.
  - apply OrderFacts.entropy_desc_flag.
  - apply OrderFacts.rank_desc_flag.
  - apply OrderFacts.master_flag.
Qed.

Lemma valid_entries_lead_a_sorted_view_witness :
  let view := [sample_entry "CRATE" 2.5 52 "S" "N" false false;
               sample_entry "TRACE" 2.25 60 "S" "P" false false;
               sample_entry "SPEED" 3.5 40 "S" "P" true true;
               sample_entry "STALE" 1.5 45 "N" "N" false true] in
  view = valid_entries view ++ List.filter is_eliminated view.
Proof.
  apply (valid_entries_lead_a_sorted_view
           [sample_entry "CRATE" 2.5 52 "S" "N" false false;
            sample_entry "TRACE" 2.25 60 "S" "P" false false;
            sample_entry "SPEED" 3.5 40 "S" "P" true true;
            sample_entry "STALE" 1.5 45 "N" "N" false true]).
  left. vm_compute. reflexivity.
Defined.

(** X11: hard mode's shrinking of the dictionary.  When the first
    [current_count] entries of the master array are in the order of
    [compare_master_entries_eliminated_then_alpha] (as the sort leaves
    them), the loop that looks for the first eliminated entry returns the
    number of valid entries among them, and the prefix of that length
    holds exactly those valid entries: no valid entry is dropped and no
    eliminated one is kept. *)
Theorem hard_mode_count_is_the_number_of_valid_entries
    (p_data : list dictionary_entry) (current_count : Z) :
  0 <= current_count ->
  (Z.to_nat current_count <= length p_data)%nat ->
  in_order Comparators.compare_master_entries_eliminated_then_alpha
           (firstn (Z.to_nat current_count) p_data) = true ->
  let new_count := GameLoop.shrunk_count p_data current_count in
  new_count
  = Z.of_nat (length (valid_entries (firstn (Z.to_nat current_count) p_data)))
  /\ firstn (Z.to_nat new_count) p_data
     = valid_entries (firstn (Z.to_nat current_count) p_data).
Proof.
  intros H0 Hlen Hord new_count. unfold new_count, GameLoop.shrunk_count.
  set (l := firstn (Z.to_nat current_count) p_data) in *.
  assert (Hl : length l = Z.to_nat current_count)
    by (unfold l; rewrite length_firstn; lia).
  pose proof (OrderFacts.in_order_valid_first _ l
                (fun a b _ _ => OrderFacts.master_flag a b) Hord) as Hsplit.
  pose proof (OrderFacts.valid_entries_valid l) as Hvalid.
  assert (Hcount : GameLoop.first_eliminated l 0 current_count
                   = Z.of_nat (length (valid_entries l))).
  { destruct (List.filter is_eliminated l) as [|e rest] eqn:Hel.
    - rewrite app_nil_r in Hsplit. rewrite <- Hsplit.
      rewrite OrderFacts.first_eliminated_valid
        by (rewrite Hsplit; exact Hvalid). lia.
    - rewrite Hsplit at 1.
      rewrite OrderFacts.first_eliminated_app;
        [lia|exact Hvalid|].
      apply (OrderFacts.filter_eliminated_head l e rest Hel). }
  split; [exact Hcount|]. rewrite Hcount, Nat2Z.id.
  assert (Hle : (length (valid_entries l) <= Z.to_nat current_count)%nat).
  { rewrite <- Hl. rewrite Hsplit at 2. rewrite length_app. lia. }
  transitivity (firstn (length (valid_entries l)) l).
  - unfold l in *. rewrite firstn_firstn. f_equal. lia.
  - rewrite Hsplit at 2. rewrite firstn_app, Nat.sub_diag, firstn_all.
    cbn [firstn]. apply app_nil_r.
Qed.

Lemma hard_mode_count_is_the_number_of_valid_entries_witness :
  let p_data := [sample_entry "CRATE" 2.5 52 "S" "N" false false;
                 sample_entry "TRACE" 2.25 60 "S" "P" false false;
                 sample_entry "SPEED" 3.5 40 "S" "P" true true;
                 sample_entry "STALE" 1.5 45 "N" "N" false true] in
  GameLoop.shrunk_count p_data 4 = 2
  /\ firstn (Z.to_nat (GameLoop.shrunk_count p_data 4)) p_data
     = valid_entries (firstn 4 p_data).
Proof.
  apply (hard_mode_count_is_the_number_of_valid_entries
           [sample_entry "CRATE" 2.5 52 "S" "N" false false;
            sample_entry "TRACE" 2.25 60 "S" "P" false false;
            sample_entry "SPEED" 3.5 40 "S" "P" true true;
            sample_entry "STALE" 1.5 45 "N" "N" false true] 4);
    [lia|cbn; lia|vm_compute; reflexivity].
Defined.

(** ** Letter tallies and the letter minimums *)

Module CountFacts.
Import CArrayFacts YellowFacts PatternFacts.

(** A loop that bumps one slot per position that passes a test. *)
Lemma fold_cond_incr (f : list Z -> nat -> list Z) (test : nat -> bool)
    (idx : nat -> Z) (ps : list nat) :
  (forall a i, f a i = if test i then CArray.incr a (idx i) else a) ->
  forall init k,
    (forall i, test i = true -> 0 <= idx i < Z.of_nat (length init)) ->
    length (fold_left f ps init) = length init
    /\ CArray.get (fold_left f ps init) k
       = CArray.get init k + count_pos (fun i => test i && (idx i =? k)) ps.
Proof.
  intros Hf. induction ps as [|i ps IH]; intros init k Hr.
  - cbn [fold_left]. rewrite count_pos_nil. split; [reflexivity|lia].
  - cbn [fold_left]. rewrite count_pos_cons, Hf.
    destruct (test i) eqn:Ht; cbn [andb].
    + destruct (IH (CArray.incr init (idx i)) k) as [Hl Hg].
      { intros j Hj. unfold CArray.incr. rewrite length_set. apply Hr, Hj. }
      unfold CArray.incr in Hl. rewrite length_set in Hl.
      split; [exact Hl|]. rewrite Hg, get_incr.
      destruct (Z.eqb_spec (idx i) k) as [He|Hne].
      * rewrite decide_True by (split; [congruence|apply Hr, Ht]). lia.
      * rewrite decide_False by (intros [He _]; congruence). lia.
    + destruct (IH init k Hr) as [Hl Hg]. split; [exact Hl|]. rewrite Hg. lia.
Qed.

Lemma in_range_eq (wd : list ascii) (i : nat) (c : ascii) :
  0 <= letter_index c < 26 ->
  (0 <=? letter_index (char_at wd i)) && (letter_index (char_at wd i) <? 26)
  && (letter_index (char_at wd i) =? letter_index c)
  = Ascii.eqb (char_at wd i) c.
Proof.
  intros Hc. destruct (Ascii.eqb_spec (char_at wd i) c) as [->|Hne].
  - rewrite Z.eqb_refl.
    replace (0 <=? letter_index c) with true by (symmetry; apply Z.leb_le; lia).
    replace (letter_index c <? 26) with true by (symmetry; apply Z.ltb_lt; lia).
    reflexivity.
  - replace (letter_index (char_at wd i) =? letter_index c) with false;
      [apply andb_false_r|].
    symmetry. apply Z.eqb_neq. intros He. apply Hne, letter_index_inj, He.
Qed.

(** [letter_counts] holds the occurrences of every letter. *)
Lemma letter_counts_spec wd :
  length (SolverLogic.letter_counts wd) = 26%nat
  /\ forall c, 0 <= letter_index c < 26 ->
       CArray.get (SolverLogic.letter_counts wd) (letter_index c)
       = occurrences wd c.
Proof.
  unfold SolverLogic.letter_counts.
  pose proof (fold_cond_incr
                (fun guess_counts i =>
                   let idx := letter_index (char_at wd i) in
                   if (0 <=? idx) && (idx <? 26)
                   then CArray.incr guess_counts idx else guess_counts)
                (fun i => (0 <=? letter_index (char_at wd i))
                          && (letter_index (char_at wd i) <? 26))
                (fun i => letter_index (char_at wd i))
                (seq 0 5) (fun a i => eq_refl)) as H.
  split.
  - apply (H (CArray.zeros 26) 0). intros i Hi. rewrite length_zeros.
    apply andb_true_iff in Hi as [H1 H2].
    apply Z.leb_le in H1. apply Z.ltb_lt in H2. lia.
  - intros c Hc.
    destruct (H (CArray.zeros 26) (letter_index c)) as [_ Hg].
    { intros i Hi. rewrite length_zeros.
      apply andb_true_iff in Hi as [H1 H2].
      apply Z.leb_le in H1. apply Z.ltb_lt in H2. lia. }
    etransitivity; [exact Hg|].
    rewrite get_zeros, Z.add_0_l. unfold occurrences.
    apply count_pos_ext. intros i _. apply in_range_eq, Hc.
Qed.

(** The tally of [update_min_required_counts] holds the marked
    positions of every letter. *)
Lemma current_turn_counts_spec guess pat :
  length (SolverLogic.current_turn_counts guess pat) = 26%nat
  /\ forall c, 0 <= letter_index c < 26 ->
       CArray.get (SolverLogic.current_turn_counts guess pat) (letter_index c)
       = marked_count guess pat c.
Proof.
  unfold SolverLogic.current_turn_counts.
  assert (Hstep : forall (a : list Z) (i : nat),
             (if Ascii.eqb (char_at pat i) "G" || Ascii.eqb (char_at pat i) "Y"
              then
                let char_idx := letter_index (char_at guess i) in
                if (0 <=? char_idx) && (char_idx <? 26)
                then CArray.incr a char_idx else a
              else a)
             = if (Ascii.eqb (char_at pat i) "G" || Ascii.eqb (char_at pat i) "Y")
                  && ((0 <=? letter_index (char_at guess i))
                      && (letter_index (char_at guess i) <? 26))
               then CArray.incr a (letter_index (char_at guess i)) else a).
  { intros a i. destruct (_ || _); reflexivity. }
  pose proof (fold_cond_incr _ _ _ (seq 0 5) Hstep) as H.
  assert (Hr : forall i,
             (Ascii.eqb (char_at pat i) "G" || Ascii.eqb (char_at pat i) "Y")
             && ((0 <=? letter_index (char_at guess i))
                 && (letter_index (char_at guess i) <? 26)) = true ->
             0 <= letter_index (char_at guess i)
             < Z.of_nat (length (CArray.zeros 26))).
  { intros i Hi. rewrite length_zeros.
    apply andb_true_iff in Hi as [_ Hi]. apply andb_true_iff in Hi as [H1 H2].
    apply Z.leb_le in H1. apply Z.ltb_lt in H2. lia. }
  split.
  - apply (H (CArray.zeros 26) 0 Hr).
  - intros c Hc. destruct (H (CArray.zeros 26) (letter_index c) Hr) as [_ Hg].
    etransitivity; [exact Hg|].
    rewrite get_zeros, Z.add_0_l. unfold marked_count.
    apply count_pos_ext. intros i _.
    rewrite <- andb_assoc, in_range_eq by exact Hc. reflexivity.
Qed.

(** The second loop of [update_min_required_counts] on a list of
    distinct slots. *)
Lemma fold_raise (cur : list Z) (ks : list Z) :
  List.NoDup ks ->
  forall a,
    (forall i, In i ks -> 0 <= i < Z.of_nat (length a)) ->
    let a' :=
      fold_left
        (fun mrc i =>
           if CArray.get mrc i <? CArray.get cur i
           then CArray.set mrc i (CArray.get cur i) else mrc)
        ks a in
    length a' = length a
    /\ forall k,
         (In k ks -> CArray.get a' k = Z.max (CArray.get a k) (CArray.get cur k))
         /\ (~ In k ks -> CArray.get a' k = CArray.get a k).
Proof.
  induction 1 as [|i ks Hni Hnd IH]; intros a Hr.
  - cbn. split; [reflexivity|]. intros k. split; [contradiction|reflexivity].
  - cbn [fold_left].
    set (a1 := if CArray.get a i <? CArray.get cur i
               then CArray.set a i (CArray.get cur i) else a).
    assert (Hl1 : length a1 = length a).
    { unfold a1. destruct (_ <? _); [apply length_set|reflexivity]. }
    assert (Hi : 0 <= i < Z.of_nat (length a)) by (apply Hr; left; reflexivity).
    assert (Hg1 : forall k,
               CArray.get a1 k
               = if decide (k = i) then Z.max (CArray.get a i) (CArray.get cur i)
                 else CArray.get a k).
    { intros k. unfold a1. destruct (Z.ltb_spec (CArray.get a i) (CArray.get cur i)).
      - case_decide as Hk.
        + subst k. rewrite get_set_eq by exact Hi. lia.
        + apply get_set_ne. congruence.
      - case_decide as Hk; [subst k; lia|reflexivity]. }
    destruct (IH a1) as [Hl Hg].
    { intros j Hj. rewrite Hl1. apply Hr. right. exact Hj. }
    cbv zeta in *. split; [congruence|]. intros k.
    destruct (Hg k) as [Hin Hout]. split.
    + intros [<-|Hk].
      * rewrite (Hout Hni), Hg1, decide_True by reflexivity. reflexivity.
      * rewrite (Hin Hk), !Hg1.
        rewrite decide_False by (intros ->; contradiction). reflexivity.
    + intros Hk. rewrite Hout by (intros Hk'; apply Hk; right; exact Hk').
      rewrite Hg1, decide_False; [reflexivity|].
      intros ->. apply Hk. left. reflexivity.
Qed.

Lemma in_indices n k : In k (indices n) <-> 0 <= k < Z.of_nat n.
Proof.
  unfold indices. rewrite in_map_iff. split.
  - intros (i & <- & Hi). apply in_seq in Hi. lia.
  - intros Hk. exists (Z.to_nat k). split; [lia|]. apply in_seq. lia.
Qed.

Lemma NoDup_indices n : List.NoDup (indices n).
Proof.
  unfold indices. generalize (List.seq_NoDup n 0). generalize (seq 0 n).
  induction 1 as [|i l Hni _ IH]; cbn [List.map]; constructor; [|exact IH].
  intros Hin. apply in_map_iff in Hin as (j & He & Hj).
  apply Nat2Z.inj in He. subst j. contradiction.
Qed.

Lemma update_spec guess pat mrc :
  length mrc = 26%nat ->
  length (SolverLogic.update_min_required_counts guess pat mrc) = 26%nat
  /\ forall k, 0 <= k < 26 ->
       CArray.get (SolverLogic.update_min_required_counts guess pat mrc) k
       = Z.max (CArray.get mrc k)
               (CArray.get (SolverLogic.current_turn_counts guess pat) k).
Proof.
  intros Hlen. unfold SolverLogic.update_min_required_counts.
  pose proof (fold_raise (SolverLogic.current_turn_counts guess pat)
                (indices 26) (NoDup_indices 26) mrc) as H.
  cbv zeta in H. destruct H as [Hl Hg].
  { intros i Hi. apply in_indices in Hi. rewrite Hlen. exact Hi. }
  split; [congruence|]. intros k Hk. apply Hg, in_indices. exact Hk.
Qed.

(** Counting over a test that is the disjoint union of two tests. *)
Lemma count_pos_add (h f g : nat -> bool) ps :
  (forall i, In i ps ->
             (if h i then 1 else 0)
             = (if f i then 1 else 0) + (if g i then 1 else 0)) ->
  count_pos h ps = count_pos f ps + count_pos g ps.
Proof.
  induction ps as [|i ps IH]; intros H; [reflexivity|].
  rewrite !count_pos_cons, IH by (intros j Hj; apply H; right; exact Hj).
  rewrite (H i) by (left; reflexivity). lia.
Qed.

(** With the true feedback, the marked positions of a letter are at most
    its occurrences in the answer. *)
Lemma marked_le_occurrences guess answer c :
  marked_count guess (FeedbackCodec.get_feedback_pattern guess answer) c
  <= occurrences answer c.
Proof.
  set (pat := FeedbackCodec.get_feedback_pattern guess answer).
  pose proof (yellow_le_unmatched guess answer c) as Hy. fold pat in Hy.
  unfold yellow_count, unmatched_count in Hy.
  unfold marked_count, occurrences.
  rewrite (count_pos_add _
             (fun i => Ascii.eqb (char_at answer i) c
                       && Ascii.eqb (char_at guess i) (char_at answer i))
             (fun i => Ascii.eqb (char_at pat i) "Y"%char
                       && Ascii.eqb (char_at guess i) c)).
  - rewrite (count_pos_add (fun i => Ascii.eqb (char_at answer i) c)
               (fun i => Ascii.eqb (char_at answer i) c
                         && Ascii.eqb (char_at guess i) (char_at answer i))
               (fun i => Ascii.eqb (char_at answer i) c
                         && negb (Ascii.eqb (char_at guess i) (char_at answer i)))).
    + lia.
    + intros i _. destruct (Ascii.eqb (char_at answer i) c),
        (Ascii.eqb (char_at guess i) (char_at answer i)); reflexivity.
  - intros i Hi. apply in_seq in Hi.
    pose proof (green_iff_agree guess answer i ltac:(lia)) as Hg. fold pat in Hg.
    destruct (Ascii.eqb_spec (char_at pat i) "G") as [HG|HnG].
    + rewrite HG. apply Hg in HG. rewrite HG, Ascii.eqb_refl.
      cbn [orb andb]. rewrite andb_true_r.
      destruct (Ascii.eqb (char_at answer i) c); reflexivity.
    + destruct (Ascii.eqb_spec (char_at guess i) (char_at answer i)) as [Ha|Hna].
      * exfalso. apply HnG, Hg, Ha.
      * rewrite andb_false_r. cbn [orb].
        destruct (Ascii.eqb (char_at pat i) "Y" && Ascii.eqb (char_at guess i) c);
          reflexivity.
Qed.

(** Every slot of a 26-entry table is the slot of an upper-case letter. *)
Lemma letter_of_index k :
  0 <= k < 26 -> exists c, is_upper c = true /\ letter_index c = k.
Proof.
  intros Hk. exists (ascii_of_nat (Z.to_nat (k + 65))).
  assert (He : letter_index (ascii_of_nat (Z.to_nat (k + 65))) = k).
  { unfold letter_index, char_code. rewrite nat_ascii_embedding by lia.
    change (Z.of_nat (nat_of_ascii "A")) with 65. lia. }
  split; [|exact He]. apply is_upper_range. rewrite He. exact Hk.
Qed.

Lemma risky_spec e mrc :
  SolverLogic.is_risky_guess e mrc = true
  <-> exists c, is_upper c = true
                /\ 1 < occurrences (word e) c
                /\ CArray.get mrc (letter_index c) < occurrences (word e) c.
Proof.
  unfold SolverLogic.is_risky_guess. rewrite existsb_exists.
  destruct (letter_counts_spec (word e)) as [_ Hc]. split.
  - intros (k & Hk & Ht). apply in_indices in Hk.
    destruct (letter_of_index k Hk) as (c & Hu & <-).
    exists c. split; [exact Hu|].
    rewrite Hc in Ht by (apply is_upper_range, Hu).
    apply andb_true_iff in Ht as [H1 H2].
    apply Z.ltb_lt in H1. apply Z.ltb_lt in H2. split; assumption.
  - intros (c & Hu & H1 & H2). apply is_upper_range in Hu.
    exists (letter_index c). split; [apply in_indices; exact Hu|].
    rewrite Hc by exact Hu. apply andb_true_iff.
    split; apply Z.ltb_lt; assumption.
Qed.

(** The minimums stay below the answer's letter counts. *)
Lemma update_sound guess answer mrc :
  length mrc = 26%nat ->
  sound_minimums mrc answer ->
  sound_minimums
    (SolverLogic.update_min_required_counts guess
       (FeedbackCodec.get_feedback_pattern guess answer) mrc)
    answer.
Proof.
  intros Hlen Hs c Hc.
  destruct (update_spec guess
              (FeedbackCodec.get_feedback_pattern guess answer) _ Hlen)
    as [_ Hg].
  pose proof Hc as Hr. apply is_upper_range in Hr.
  rewrite Hg by exact Hr.
  destruct (current_turn_counts_spec guess
              (FeedbackCodec.get_feedback_pattern guess answer)) as [_ Ht].
  rewrite Ht by exact Hr.
  pose proof (marked_le_occurrences guess answer c).
  specialize (Hs c Hc). lia.
Qed.

End CountFacts.

(** X12: [update_min_required_counts] on a 26-slot table keeps its size and
    leaves in every slot the larger of the old minimum and this turn's
    tally, so no minimum ever decreases; the tally of an upper-case
    letter is the number of positions marked Green or Yellow where the
    guess has that letter. *)
Theorem update_min_required_counts_takes_the_maximum
    (guess result_pattern : list ascii) (min_required_counts : list Z) :
  length min_required_counts = 26%nat ->
  let updated :=
    SolverLogic.update_min_required_counts guess result_pattern
                                           min_required_counts in
  length updated = 26%nat
  /\ (forall k : Z,
         0 <= k < 26 ->
         CArray.get min_required_counts k <= CArray.get updated k)
  /\ (forall c : ascii,
         is_upper c = true ->
         CArray.get updated (letter_index c)
         = Z.max (CArray.get min_required_counts (letter_index c))
                 (marked_count guess result_pattern c)).
Proof.
  intros Hlen updated.
  destruct (CountFacts.update_spec guess result_pattern _ Hlen) as [Hl Hg].
  split; [exact Hl|]. split.
  - intros k Hk. unfold updated. rewrite Hg by exact Hk. lia.
  - intros c Hc. apply PatternFacts.is_upper_range in Hc.
    unfold updated. rewrite Hg by exact Hc. f_equal.
    apply CountFacts.current_turn_counts_spec, Hc.
Qed.

Lemma update_min_required_counts_takes_the_maximum_witness :
  let updated :=
    SolverLogic.update_min_required_counts (word_of "SPEED") (word_of "BBGYB")
                                           (CArray.zeros 26) in
  length updated = 26%nat
  /\ (forall k : Z,
         0 <= k < 26 -> CArray.get (CArray.zeros 26) k <= CArray.get updated k)
  /\ (forall c : ascii,
         is_upper c = true ->
         CArray.get updated (letter_index c)
         = Z.max (CArray.get (CArray.zeros 26) (letter_index c))
                 (marked_count (word_of "SPEED") (word_of "BBGYB") c)).
Proof.
  apply (update_min_required_counts_takes_the_maximum
           (word_of "SPEED") (word_of "BBGYB") (CArray.zeros 26)).
  reflexivity.
Defined.

(** X13: the letter minimums stay true of the answer.  On five-letter
    upper-case words, if no upper-case letter is required more often
    than the answer has it, the same holds after
    [update_min_required_counts] is run with a guess and the pattern
    [get_feedback_pattern] gives that guess against the answer. *)
Theorem letter_minimums_stay_sound
    (guess answer : list ascii) (min_required_counts : list Z) :
  word_ok guess = true -> word_ok answer = true ->
  length min_required_counts = 26%nat ->
  sound_minimums min_required_counts answer ->
  sound_minimums
    (SolverLogic.update_min_required_counts guess
       (FeedbackCodec.get_feedback_pattern guess answer) min_required_counts)
    answer.
Proof. intros _ _. apply CountFacts.update_sound. Qed.

Lemma letter_minimums_stay_sound_witness :
  CArray.get
    (SolverLogic.update_min_required_counts (word_of "SPEED")
       (FeedbackCodec.get_feedback_pattern (word_of "SPEED") (word_of "ELDER"))
       (CArray.zeros 26))
    (letter_index "E")
  <= occurrences (word_of "ELDER") "E".
Proof.
  apply (letter_minimums_stay_sound (word_of "SPEED") (word_of "ELDER")
           (CArray.zeros 26) eq_refl eq_refl eq_refl
           (fun c _ =>
              eq_ind_r (fun z => z <= occurrences (word_of "ELDER") c)
                       (YellowFacts.count_pos_nonneg _ _)
                       (CArrayFacts.get_zeros 26 (letter_index c)))
           "E"%char eq_refl).
Defined.

(** X14: [is_risky_guess] rejects an entry exactly when some upper-case
    letter occurs in its word more than once and more often than the
    minimum known for that letter. *)
Theorem risky_exactly_on_an_unconfirmed_repeat
    (pEntry : dictionary_entry) (min_required_counts : list Z) :
  SolverLogic.is_risky_guess pEntry min_required_counts = true
  <-> exists c : ascii,
        is_upper c = true
        /\ 1 < occurrences (word pEntry) c
        /\ CArray.get min_required_counts (letter_index c)
           < occurrences (word pEntry) c.
Proof. apply CountFacts.risky_spec. Qed.

(** X15: learning never makes a guess risky.  An entry the risk filter
    accepts under some 26-slot minimums is still accepted after
    [update_min_required_counts] has processed another turn, whatever
    the guess and the pattern. *)
Theorem learning_never_makes_a_guess_risky
    (pEntry : dictionary_entry) (guess result_pattern : list ascii)
    (min_required_counts : list Z) :
  length min_required_counts = 26%nat ->
  SolverLogic.is_risky_guess pEntry min_required_counts = false ->
  SolverLogic.is_risky_guess pEntry
    (SolverLogic.update_min_required_counts guess result_pattern
                                            min_required_counts) = false.
Proof.
  intros Hlen Hsafe.
  destruct (SolverLogic.is_risky_guess pEntry
              (SolverLogic.update_min_required_counts _ _ _)) eqn:Hr;
    [|reflexivity].
  apply CountFacts.risky_spec in Hr as (c & Hc & H1 & H2).
  assert (Hrisky : SolverLogic.is_risky_guess pEntry min_required_counts = true).
  { apply CountFacts.risky_spec. exists c. split; [exact Hc|].
    split; [exact H1|].
    destruct (CountFacts.update_spec guess result_pattern _ Hlen) as [_ Hg].
    rewrite Hg in H2 by (apply PatternFacts.is_upper_range, Hc). lia. }
  congruence.
Qed.

Lemma learning_never_makes_a_guess_risky_witness :
  SolverLogic.is_risky_guess
    (sample_entry "ELDER" 0 50 "S" "N" true false)
    (SolverLogic.update_min_required_counts (word_of "CRANE")
       (word_of "BYBBY")
       (SolverLogic.update_min_required_counts (word_of "GEESE")
          (word_of "BGYBB") (CArray.zeros 26))) = false.
Proof.
  apply (learning_never_makes_a_guess_risky
           (sample_entry "ELDER" 0 50 "S" "N" true false)
           (word_of "CRANE") (word_of "BYBBY")
           (SolverLogic.update_min_required_counts (word_of "GEESE")
              (word_of "BGYBB") (CArray.zeros 26)));
    reflexivity.
Defined.

(** ** The loader's helpers *)

Module LoaderFacts.
Import LoadDictionary YellowFacts PatternFacts.

(** The guard of [contains_duplicate_letter] lets the upper-case letters
    through. *)
Lemma guard_is_upper ch :
  (char_code ch <? char_code "A") || (char_code "Z" <? char_code ch)
  = negb (is_upper ch).
Proof.
  unfold is_upper, letter_index.
  change (char_code "A") with 65. change (char_code "Z") with 90.
  destruct (Z.ltb_spec (char_code ch) 65), (Z.ltb_spec 90 (char_code ch)),
           (Z.leb_spec 0 (char_code ch - 65)),
           (Z.ltb_spec (char_code ch - 65) 26); cbn; reflexivity || lia.
Qed.

Lemma seen_get_set letterSeen c d :
  0 <= letter_index c < Z.of_nat (length letterSeen) ->
  0 <= letter_index d ->
  seen_get (seen_set letterSeen (letter_index c)) (letter_index d)
  = if Ascii.eqb c d then true else seen_get letterSeen (letter_index d).
Proof.
  intros Hc Hd. unfold seen_get, seen_set.
  destruct (Ascii.eqb_spec c d) as [->|Hne].
  - rewrite list_lookup_insert_eq by lia. reflexivity.
  - rewrite list_lookup_insert_ne; [reflexivity|].
    intros He. apply Hne, letter_index_inj. lia.
Qed.

Lemma duplicate_scan_spec wd ps : forall letterSeen,
  length letterSeen = 26%nat ->
  duplicate_scan wd ps letterSeen = true
  <-> exists c,
        is_upper c = true
        /\ ((seen_get letterSeen (letter_index c) = true
             /\ 1 <= count_pos (fun i => Ascii.eqb (char_at wd i) c) ps)
            \/ 2 <= count_pos (fun i => Ascii.eqb (char_at wd i) c) ps).
Proof.
  induction ps as [|i ps IH]; intros letterSeen Hlen.
  - cbn [duplicate_scan]. split; [discriminate|].
    intros (c & _ & [[_ H]|H]); rewrite count_pos_nil in H; lia.
  - cbn [duplicate_scan]. rewrite guard_is_upper.
    destruct (is_upper (char_at wd i)) eqn:Hu; cbn [negb].
    + pose proof Hu as Hr. apply is_upper_range in Hr.
      destruct (seen_get letterSeen (letter_index (char_at wd i))) eqn:Hs.
      * split; [intros _|reflexivity]. exists (char_at wd i).
        split; [exact Hu|]. left. split; [exact Hs|].
        rewrite count_pos_cons, Ascii.eqb_refl.
        pose proof (count_pos_nonneg
                      (fun j => Ascii.eqb (char_at wd j) (char_at wd i)) ps).
        lia.
      * rewrite IH by (unfold seen_set; rewrite length_insert; exact Hlen).
        split.
        -- intros (c & Hc & H). exists c. split; [exact Hc|].
           pose proof Hc as Hcr. apply is_upper_range in Hcr.
           pose proof (count_pos_nonneg
                         (fun j => Ascii.eqb (char_at wd j) c) ps) as Hn.
           rewrite count_pos_cons. cbv beta.
           rewrite seen_get_set in H by (rewrite ?Hlen; lia).
           destruct (Ascii.eqb_spec (char_at wd i) c) as [He|Hne].
           ++ right. destruct H as [[_ H]|H]; lia.
           ++ destruct H as [[H1 H2]|H];
                [left; split; [exact H1|lia]|right; lia].
        -- intros (c & Hc & H). exists c. split; [exact Hc|].
           pose proof Hc as Hcr. apply is_upper_range in Hcr.
           pose proof (count_pos_nonneg
                         (fun j => Ascii.eqb (char_at wd j) c) ps) as Hn.
           rewrite count_pos_cons in H. cbv beta in H.
           rewrite seen_get_set by (rewrite ?Hlen; lia).
           destruct (Ascii.eqb_spec (char_at wd i) c) as [He|Hne].
           ++ subst c. rewrite Hs in H.
              destruct H as [[H1 _]|H]; [discriminate|].
              left. split; [reflexivity|lia].
           ++ destruct H as [[H1 H2]|H];
                [left; split; [exact H1|lia]|right; lia].
    + rewrite IH by exact Hlen.
      split; intros (c & Hc & H); exists c; (split; [exact Hc|]).
      * rewrite count_pos_cons. cbv beta.
        destruct (Ascii.eqb_spec (char_at wd i) c) as [He|Hne];
          [subst c; congruence|].
        rewrite Z.add_0_l. exact H.
      * rewrite count_pos_cons in H. cbv beta in H.
        destruct (Ascii.eqb_spec (char_at wd i) c) as [He|Hne];
          [subst c; congruence|].
        rewrite Z.add_0_l in H. exact H.
Qed.

Lemma contains_duplicate_letter_spec wd :
  contains_duplicate_letter wd = true
  <-> exists c, is_upper c = true /\ 2 <= occurrences wd c.
Proof.
  unfold contains_duplicate_letter.
  rewrite duplicate_scan_spec by apply length_replicate.
  unfold occurrences. split; intros (c & Hc & H); exists c;
    (split; [exact Hc|]).
  - destruct H as [[H _]|H]; [|exact H].
    unfold seen_get in H.
    destruct (replicate 26 false !! Z.to_nat (letter_index c)) eqn:Hl;
      cbn in H; [|discriminate].
    apply lookup_replicate_1 in Hl as [-> _]. discriminate.
  - right. exact H.
Qed.

End LoaderFacts.

(** X16: [contains_duplicate_letter] returns [true] exactly when some
    upper-case letter occurs at two or more of the five positions of the
    word; characters outside 'A'..'Z' are never counted. *)
Theorem duplicate_flag_exactly_on_a_repeated_letter (wd : list ascii) :
  LoadDictionary.contains_duplicate_letter wd = true
  <-> exists c : ascii, is_upper c = true /\ 2 <= occurrences wd c.
Proof. apply LoaderFacts.contains_duplicate_letter_spec. Qed.

(** X17: a word in which [contains_duplicate_letter] finds no repeated
    letter is never rejected by the risk filter, whatever the letter
    minimums are. *)
Theorem words_without_repeats_are_never_risky
    (pEntry : dictionary_entry) (min_required_counts : list Z) :
  LoadDictionary.contains_duplicate_letter (word pEntry) = false ->
  SolverLogic.is_risky_guess pEntry min_required_counts = false.
Proof.
  intros Hd.
  destruct (SolverLogic.is_risky_guess pEntry min_required_counts) eqn:Hr;
    [|reflexivity].
  apply CountFacts.risky_spec in Hr as (c & Hc & H1 & _).
  assert (Hdup : LoadDictionary.contains_duplicate_letter (word pEntry) = true).
  { apply LoaderFacts.contains_duplicate_letter_spec. exists c.
    split; [exact Hc|lia]. }
  congruence.
Qed.

Lemma words_without_repeats_are_never_risky_witness :
  SolverLogic.is_risky_guess (sample_entry "CRANE" 0 50 "S" "N" false false)
                             (CArray.zeros 26) = false.
Proof.
  apply (words_without_repeats_are_never_risky
           (sample_entry "CRANE" 0 50 "S" "N" false false) (CArray.zeros 26)).
  reflexivity.
Defined.

(** ** The recommendation box *)

Module RecommendationFacts.
Import SolverLogic.

Lemma meets_filtered_criteria_spec e :
  meets_filtered_criteria e = true ->
  contains_duplicate_letters e = false /\ is_linguistically_sound e = true.
Proof.
  unfold meets_filtered_criteria, is_linguistically_sound.
  destruct (contains_duplicate_letters e); [discriminate|].
  destruct (Ascii.eqb (noun_type e) "P"); [discriminate|]. cbn [orb].
  destruct (Ascii.eqb (noun_type e) "R"); [discriminate|].
  destruct (Ascii.eqb_spec (verb_type e) "N") as [->|_];
    [intros _; split; reflexivity|].
  destruct (Ascii.eqb_spec (verb_type e) "P") as [->|_];
    [intros _; split; reflexivity|].
  discriminate.
Qed.

(** What the loop returns lies before the first eliminated entry and is
    the first entry there that meets the criteria. *)
Lemma first_filtered_some l e :
  first_filtered l = Some e ->
  exists before rest,
    l = before ++ e :: rest
    /\ is_eliminated e = false
    /\ meets_filtered_criteria e = true
    /\ List.Forall (fun x => is_eliminated x = false
                             /\ meets_filtered_criteria x = false) before.
Proof.
  induction l as [|x l IH]; [discriminate|]. cbn [first_filtered].
  destruct (is_eliminated x) eqn:Hx; [discriminate|].
  destruct (meets_filtered_criteria x) eqn:Hm.
  - intros [= <-]. exists [], l. repeat split; auto.
  - intros H. destruct (IH H) as (before & rest & -> & He & Hme & Hb).
    exists (x :: before), rest. repeat split; auto.
Qed.

Lemma first_filtered_find cmp l :
  (forall a b, In a l -> In b l ->
               cmp a b <= 0 -> is_eliminated a = true -> is_eliminated b = true) ->
  in_order cmp l = true ->
  first_filtered l
  = List.find (fun e => negb (is_eliminated e) && meets_filtered_criteria e) l.
Proof.
  induction l as [|a l IH]; intros Hflag Hord; [reflexivity|].
  cbn [first_filtered List.find].
  destruct (is_eliminated a) eqn:Ha; cbn [negb andb].
  - symmetry. apply FallbackFacts.find_none. intros x Hx.
    pose proof (OrderFacts.in_order_eliminated_tail cmp (a :: l) Hflag a l
                  eq_refl Hord Ha) as Hall.
    rewrite List.Forall_forall in Hall. rewrite (Hall x Hx). reflexivity.
  - destruct (meets_filtered_criteria a); [reflexivity|].
    apply IH.
    + intros x y Hx Hy. apply Hflag; right; assumption.
    + apply (OrderFacts.in_order_tail cmp a), Hord.
Qed.

End RecommendationFacts.

(** X18: what [find_filtered_candidate] returns.  A result is one of the
    first [count] entries of the view, is valid, has no repeated letter
    (by its flag), passes the linguistic filter, and every entry before
    it is valid and fails the criteria.  On a view whose first [count]
    entries are in the order of
    [compare_dictionary_entries_by_entropy_desc] or of
    [compare_dictionary_entries_by_rank_desc], stopping at the first
    eliminated entry loses nothing: the result is the first valid entry
    among them that meets the criteria, and NULL only when there is
    none. *)
Theorem filtered_candidate_is_the_first_valid_match
    (p_sorted_array : list dictionary_entry) (count : Z) :
  (forall e : dictionary_entry,
      SolverLogic.find_filtered_candidate p_sorted_array count = Some e ->
      is_eliminated e = false
      /\ contains_duplicate_letters e = false
      /\ SolverLogic.is_linguistically_sound e = true
      /\ exists before rest,
           firstn (Z.to_nat count) p_sorted_array = before ++ e :: rest
           /\ List.Forall
                (fun x => is_eliminated x = false
                          /\ SolverLogic.meets_filtered_criteria x = false)
                before)
  /\ (in_order Comparators.compare_dictionary_entries_by_entropy_desc
               (firstn (Z.to_nat count) p_sorted_array) = true
      \/ in_order Comparators.compare_dictionary_entries_by_rank_desc
                  (firstn (Z.to_nat count) p_sorted_array) = true ->
      SolverLogic.find_filtered_candidate p_sorted_array count
      = List.find
          (fun e => negb (is_eliminated e)
                    && SolverLogic.meets_filtered_criteria e)
          (firstn (Z.to_nat count) p_sorted_array)).
Proof.
  unfold SolverLogic.find_filtered_candidate. split.
  - intros e H.
    destruct (RecommendationFacts.first_filtered_some _ _ H)
      as (before & rest & Hl & He & Hm & Hb).
    destruct (RecommendationFacts.meets_filtered_criteria_spec _ Hm)
      as [Hd Hs].
    split; [exact He|]. split; [exact Hd|]. split; [exact Hs|].
    exists before, rest. split; assumption.
  - intros [H|H]; revert H; apply RecommendationFacts.first_filtered_find;
      intros a b _ _.
    + apply OrderFacts.entropy_desc_flag.
    + apply OrderFacts.rank_desc_flag.
Qed.

Lemma filtered_candidate_is_the_first_valid_match_witness :
  SolverLogic.find_filtered_candidate eleven_words 11
  = List.find
      (fun e => negb (is_eliminated e)
                && SolverLogic.meets_filtered_criteria e)
      (firstn 11 eleven_words)
  /\ is_eliminated (sample_entry "CRANE" 3 55 "S" "P" false false) = false.
Proof.
  split.
  - apply (proj2 (filtered_candidate_is_the_first_valid_match eleven_words 11)).
    left. vm_compute. reflexivity.
  - apply (proj1 (filtered_candidate_is_the_first_valid_match eleven_words 11)
             (sample_entry "CRANE" 3 55 "S" "P" false false)).
    vm_compute. reflexivity.
Defined.

(** X19: [get_best_guess_candidates] fails exactly when [count] is 0.
    Otherwise, on views that are not empty, it fills the four slots
    "Entropy Raw (Max Info)", "Entropy Filtered", "Rank Raw (Most
    Common)" and "Rank Filtered", in this order, and no slot is NULL:
    the raw slots hold the first entry of each view, and each filtered
    slot holds either that same first entry or a valid entry among the
    first [count] of its view that meets the filtered criteria. *)
Theorem recommendations_are_never_null
    (p_entropy_sorted p_rank_sorted : list dictionary_entry) (count : Z) :
  (SolverLogic.get_best_guess_candidates p_entropy_sorted p_rank_sorted count
   = None <-> count = 0)
  /\ (count <> 0 -> p_entropy_sorted <> [] -> p_rank_sorted <> [] ->
      exists raw_e filtered_e raw_r filtered_r : dictionary_entry,
        SolverLogic.get_best_guess_candidates p_entropy_sorted p_rank_sorted
          count
        = Some [SolverLogic.mk_candidate "Entropy Raw (Max Info)" (Some raw_e);
                SolverLogic.mk_candidate "Entropy Filtered" (Some filtered_e);
                SolverLogic.mk_candidate "Rank Raw (Most Common)" (Some raw_r);
                SolverLogic.mk_candidate "Rank Filtered" (Some filtered_r)]
        /\ head p_entropy_sorted = Some raw_e
        /\ head p_rank_sorted = Some raw_r
        /\ (filtered_e = raw_e
            \/ (is_eliminated filtered_e = false
                /\ SolverLogic.meets_filtered_criteria filtered_e = true
                /\ In filtered_e (firstn (Z.to_nat count) p_entropy_sorted)))
        /\ (filtered_r = raw_r
            \/ (is_eliminated filtered_r = false
                /\ SolverLogic.meets_filtered_criteria filtered_r = true
                /\ In filtered_r (firstn (Z.to_nat count) p_rank_sorted)))).
Proof.
  unfold SolverLogic.get_best_guess_candidates. split.
  - destruct (Z.eqb_spec count 0) as [->|Hne]; split; intros H;
      try reflexivity; try discriminate; contradiction.
  - intros Hc He Hr.
    destruct (Z.eqb_spec count 0) as [H0|_]; [contradiction|].
    destruct p_entropy_sorted as [|fe rest_e]; [contradiction|].
    destruct p_rank_sorted as [|fr rest_r]; [contradiction|].
    cbn [head]. unfold SolverLogic.find_filtered_candidate.
    assert (Hfound : forall l e,
               SolverLogic.first_filtered l = Some e ->
               is_eliminated e = false
               /\ SolverLogic.meets_filtered_criteria e = true /\ In e l).
    { intros l e H.
      destruct (RecommendationFacts.first_filtered_some _ _ H)
        as (before & rest & -> & Hv & Hm & _).
      split; [exact Hv|]. split; [exact Hm|].
      apply in_or_app. right. left. reflexivity. }
    destruct (SolverLogic.first_filtered
                (firstn (Z.to_nat count) (fe :: rest_e))) as [e1|] eqn:H1;
      destruct (SolverLogic.first_filtered
                  (firstn (Z.to_nat count) (fr :: rest_r))) as [e3|] eqn:H3;
      eexists _, _, _, _;
      (split; [reflexivity|]); (split; [reflexivity|]);
      (split; [reflexivity|]); split;
      try (left; reflexivity); right;
      eauto.
Qed.

Lemma recommendations_are_never_null_witness :
  exists raw_e filtered_e raw_r filtered_r : dictionary_entry,
    SolverLogic.get_best_guess_candidates eleven_words eleven_words_by_rank 11
    = Some [SolverLogic.mk_candidate "Entropy Raw (Max Info)" (Some raw_e);
            SolverLogic.mk_candidate "Entropy Filtered" (Some filtered_e);
            SolverLogic.mk_candidate "Rank Raw (Most Common)" (Some raw_r);
            SolverLogic.mk_candidate "Rank Filtered" (Some filtered_r)]
    /\ head eleven_words = Some raw_e
    /\ head eleven_words_by_rank = Some raw_r
    /\ (filtered_e = raw_e
        \/ (is_eliminated filtered_e = false
            /\ SolverLogic.meets_filtered_criteria filtered_e = true
            /\ In filtered_e (firstn (Z.to_nat 11) eleven_words)))
    /\ (filtered_r = raw_r
        \/ (is_eliminated filtered_r = false
            /\ SolverLogic.meets_filtered_criteria filtered_r = true
            /\ In filtered_r (firstn (Z.to_nat 11) eleven_words_by_rank))).
Proof.
  apply (proj2 (recommendations_are_never_null
                  eleven_words eleven_words_by_rank 11));
    [lia|discriminate|discriminate].
Defined.

(** ** The dictionary filter and the turns of a game *)

Module FilterFacts.
Import SolverLogic GameLoop.

(** *** Loops over a prefix *)

Lemma firstn_update_prefix {A} count (f : A -> A) (p : list A) :
  firstn (Z.to_nat count) (update_prefix count f p)
  = List.map f (firstn (Z.to_nat count) p).
Proof.
  unfold update_prefix. set (n := Z.to_nat count).
  rewrite firstn_app, length_map, length_firstn.
  rewrite (firstn_all2 (n := n) (List.map f (firstn n p)))
    by (rewrite length_map, length_firstn; lia).
  destruct (decide (n <= length p)%nat) as [Hle|Hgt].
  - replace (n - Nat.min n (length p))%nat with 0%nat by lia.
    cbn [firstn]. apply app_nil_r.
  - rewrite skipn_all2 by lia. rewrite firstn_nil. apply app_nil_r.
Qed.

Lemma keys_update_prefix count (f : dictionary_entry -> dictionary_entry) p :
  (forall e, word (f e) = word e /\ is_eliminated (f e) = is_eliminated e) ->
  List.map (fun e => (word e, is_eliminated e)) (update_prefix count f p)
  = List.map (fun e => (word e, is_eliminated e)) p.
Proof.
  intros Hf. unfold update_prefix. rewrite List.map_app, List.map_map.
  rewrite (List.map_ext (fun e => (word (f e), is_eliminated (f e)))
                        (fun e => (word e, is_eliminated e)))
    by (intros e; destruct (Hf e) as [-> ->]; reflexivity).
  rewrite <- List.map_app, firstn_skipn. reflexivity.
Qed.

Lemma words_by_keys (l l' : list dictionary_entry) :
  List.map (fun e => (word e, is_eliminated e)) l
  = List.map (fun e => (word e, is_eliminated e)) l' ->
  List.map word (valid_entries l) = List.map word (valid_entries l').
Proof.
  revert l'. induction l as [|a l IH]; intros [|b l'] H; try discriminate;
    [reflexivity|].
  cbn [List.map] in H. injection H as Hw He Hrest.
  unfold valid_entries in *. cbn [List.filter]. rewrite He.
  destruct (is_eliminated b); cbn [negb List.map].
  - apply IH, Hrest.
  - rewrite Hw. f_equal. apply IH, Hrest.
Qed.

Lemma words_ok_by_keys (l l' : list dictionary_entry) :
  List.map (fun e => (word e, is_eliminated e)) l
  = List.map (fun e => (word e, is_eliminated e)) l' ->
  Forall (fun e => word_ok (word e) = true) l ->
  Forall (fun e => word_ok (word e) = true) l'.
Proof.
  revert l'. induction l as [|a l IH]; intros [|b l'] H Hall; try discriminate;
    [constructor|].
  cbn [List.map] in H. injection H as Hw He Hrest.
  apply Forall_cons_1 in Hall as [Ha Hall].
  constructor; [rewrite <- Hw; exact Ha|apply IH; assumption].
Qed.

(** The words in play depend on the count and on the words and flags of
    the array only. *)
Lemma words_in_play_keys st st' :
  current_count st' = current_count st ->
  List.map (fun e => (word e, is_eliminated e)) (p_data st')
  = List.map (fun e => (word e, is_eliminated e)) (p_data st) ->
  words_in_play st' = words_in_play st.
Proof.
  intros Hc Hk. unfold words_in_play. rewrite Hc. apply words_by_keys.
  rewrite <- !firstn_map, Hk. reflexivity.
Qed.

Lemma well_formed_keys total st st' :
  current_count st' = current_count st ->
  min_required_counts st' = min_required_counts st ->
  List.map (fun e => (word e, is_eliminated e)) (p_data st')
  = List.map (fun e => (word e, is_eliminated e)) (p_data st) ->
  well_formed total st -> well_formed total st'.
Proof.
  intros Hc Hm Hk (H1 & H2 & H3 & H4). unfold well_formed.
  rewrite Hc, Hm. split; [exact H1|]. split; [|split; [exact H3|]].
  - apply (f_equal (@length _)) in Hk. rewrite !length_map in Hk.
    rewrite Hk. exact H2.
  - apply (words_ok_by_keys (p_data st)); [symmetry; exact Hk|exact H4].
Qed.

Lemma in_words (l : list dictionary_entry) wd :
  In wd (List.map word (valid_entries l))
  <-> exists e, In e l /\ is_eliminated e = false /\ word e = wd.
Proof.
  unfold valid_entries. rewrite in_map_iff. split.
  - intros (e & Hw & Hin). apply filter_In in Hin as [Hin Hv].
    apply negb_true_iff in Hv. exists e. auto.
  - intros (e & Hin & Hv & Hw). exists e. split; [exact Hw|].
    apply filter_In. split; [exact Hin|]. rewrite Hv. reflexivity.
Qed.

(** *** The filter on the state *)

Lemma p_data_apply_feedback guess r st :
  p_data (apply_feedback guess r st)
  = filter_dictionary_by_constraints (p_data st) (current_count st) guess r.
Proof. reflexivity. Qed.

Lemma count_apply_feedback guess r st :
  current_count (apply_feedback guess r st) = current_count st.
Proof. reflexivity. Qed.

Lemma minimums_apply_feedback guess r st :
  min_required_counts (apply_feedback guess r st)
  = update_min_required_counts guess r (min_required_counts st).
Proof. reflexivity. Qed.

(** A word is in play after a turn exactly when it was in play before
    and gives the pattern of the turn. *)
Lemma in_play_apply_feedback guess r st wd :
  c_string r ->
  In wd (words_in_play (apply_feedback guess r st))
  <-> In wd (words_in_play st)
      /\ FeedbackCodec.get_feedback_pattern guess wd = r.
Proof.
  intros Hr. unfold words_in_play.
  rewrite p_data_apply_feedback, count_apply_feedback.
  unfold filter_dictionary_by_constraints. rewrite firstn_update_prefix.
  generalize (firstn (Z.to_nat (current_count st)) (p_data st)). intros l.
  rewrite !in_words. split.
  - intros (e' & Hin & Hv & Hw). apply in_map_iff in Hin as (e & He & Hin).
    subst e'. destruct (is_eliminated e) eqn:Hel; [congruence|].
    destruct (strcmp _ _ =? 0) eqn:Hc; cbn [negb] in Hv, Hw;
      [|discriminate Hv].
    split; [exists e; auto|]. subst wd. apply Z.eqb_eq in Hc.
    apply StringFacts.strcmp_eq in Hc;
      [exact Hc|apply StringFacts.pattern_c_string|exact Hr].
  - intros [(e & Hin & Hv & Hw) Hp]. exists e.
    split; [|split; assumption].
    apply in_map_iff. exists e. split; [|exact Hin].
    rewrite Hv, Hw, Hp, StringFacts.strcmp_refl. reflexivity.
Qed.

Lemma Forall_update_prefix {A} (P : A -> Prop) count (f : A -> A) p :
  (forall x, P x -> P (f x)) ->
  Forall P p -> Forall P (update_prefix count f p).
Proof.
  intros Hf Hp. unfold update_prefix. apply Forall_app. split.
  - assert (H : Forall P (firstn (Z.to_nat count) p))
      by apply Forall_take, Hp.
    induction H as [|x l Hx _ IH]; cbn [List.map]; constructor;
      [apply Hf, Hx|exact IH].
  - apply Forall_drop, Hp.
Qed.

Lemma well_formed_apply_feedback total guess r st :
  well_formed total st -> well_formed total (apply_feedback guess r st).
Proof.
  intros (H1 & H2 & H3 & H4). unfold well_formed.
  rewrite p_data_apply_feedback, count_apply_feedback,
    minimums_apply_feedback.
  split; [exact H1|]. split; [|split].
  - unfold filter_dictionary_by_constraints.
    rewrite PrefixFacts.length_update_prefix. exact H2.
  - apply CountFacts.update_spec, H3.
  - unfold filter_dictionary_by_constraints.
    apply Forall_update_prefix; [|exact H4].
    intros e He. destruct (is_eliminated e); [exact He|].
    destruct (negb _); exact He.
Qed.

(** *** Normal mode *)

Lemma normal_mode_scan_spec log total st :
  match normal_mode_scan log total st with
  | Some st' =>
      current_count st' = current_count st
      /\ min_required_counts st' = min_required_counts st
      /\ List.map (fun e => (word e, is_eliminated e)) (p_data st')
         = List.map (fun e => (word e, is_eliminated e)) (p_data st)
  | None => valid_entries (firstn (Z.to_nat total) (p_data st)) = []
  end.
Proof.
  unfold normal_mode_scan. cbv zeta.
  fold (valid_entries (firstn (Z.to_nat total) (p_data st))).
  destruct (Z.eqb_spec
              (Z.of_nat (length (valid_entries
                                   (firstn (Z.to_nat total) (p_data st))))) 0)
    as [H0|_].
  - destruct (valid_entries _); [reflexivity|cbn [length] in H0; lia].
  - cbn [current_count min_required_counts p_data].
    split; [reflexivity|]. split; [reflexivity|].
    unfold calculate_entropy_for_candidates. apply keys_update_prefix.
    intros e. split; reflexivity.
Qed.

(** *** Hard mode *)

Lemma valid_entries_twice l : valid_entries (valid_entries l) = valid_entries l.
Proof.
  unfold valid_entries. induction l as [|a l IH]; [reflexivity|].
  cbn [List.filter]. destruct (negb (is_eliminated a)) eqn:Ha;
    [|exact IH].
  cbn [List.filter]. rewrite Ha, IH. reflexivity.
Qed.

(** Once the first [count] entries are sorted, the prefix the shrunk
    count leaves holds their valid entries. *)
Lemma firstn_shrunk sorted count :
  in_order Comparators.compare_master_entries_eliminated_then_alpha
           (firstn (Z.to_nat count) sorted) = true ->
  firstn (Z.to_nat (shrunk_count sorted count)) sorted
  = valid_entries (firstn (Z.to_nat count) sorted)
  /\ (0 <= count -> 0 <= shrunk_count sorted count <= count).
Proof.
  intros Hord. unfold shrunk_count.
  pose proof (OrderFacts.in_order_valid_first _ _
                (fun a b _ _ => OrderFacts.master_flag a b) Hord) as Hsplit.
  pose proof (OrderFacts.valid_entries_valid
                (firstn (Z.to_nat count) sorted)) as Hvalid.
  pose proof (length_firstn (Z.to_nat count) sorted) as Hlen.
  set (l := firstn (Z.to_nat count) sorted) in *.
  destruct (List.filter is_eliminated l) as [|e rest] eqn:Hel.
  - rewrite app_nil_r in Hsplit.
    rewrite OrderFacts.first_eliminated_valid
      by (rewrite Hsplit; exact Hvalid).
    split; [|lia]. rewrite <- Hsplit. reflexivity.
  - assert (He : is_eliminated e = true)
      by apply (OrderFacts.filter_eliminated_head l e rest Hel).
    assert (Hcount : first_eliminated l 0 count
                     = Z.of_nat (length (valid_entries l))).
    { rewrite Hsplit at 1.
      rewrite OrderFacts.first_eliminated_app; [lia|exact Hvalid|exact He]. }
    assert (Hle : (length (valid_entries l) < Z.to_nat count)%nat).
    { apply (f_equal (@length _)) in Hsplit.
      rewrite length_app in Hsplit. cbn [length] in Hsplit. lia. }
    rewrite Hcount, Nat2Z.id. split; [|lia].
    transitivity (firstn (length (valid_entries l)) l).
    + unfold l in *. rewrite firstn_firstn. f_equal. lia.
    + rewrite Hsplit at 2. rewrite firstn_app, Nat.sub_diag, firstn_all.
      cbn [firstn]. apply app_nil_r.
Qed.

Lemma qsorted_length cmp count before after :
  qsorted cmp count before after -> length after = length before.
Proof.
  intros (Hperm & Hrest & _).
  rewrite <- (firstn_skipn (Z.to_nat count) after),
          <- (firstn_skipn (Z.to_nat count) before), !length_app.
  rewrite Hrest. f_equal. symmetry. apply Permutation_length, Hperm.
Qed.

Lemma qsorted_Forall (P : dictionary_entry -> Prop) cmp count before after :
  qsorted cmp count before after -> Forall P before -> Forall P after.
Proof.
  intros (Hperm & Hrest & _) Hall.
  rewrite <- (firstn_skipn (Z.to_nat count) after). apply Forall_app. split.
  - apply (Permutation_Forall Hperm), Forall_take, Hall.
  - rewrite Hrest. apply Forall_drop, Hall.
Qed.

Lemma hard_mode_shrink_spec sorted st :
  qsorted Comparators.compare_master_entries_eliminated_then_alpha
          (current_count st) (p_data st) sorted ->
  match hard_mode_shrink sorted st with
  | Some st' =>
      p_data st' = sorted
      /\ min_required_counts st' = min_required_counts st
      /\ (0 <= current_count st -> 0 <= current_count st' <= current_count st)
      /\ forall wd, In wd (words_in_play st') <-> In wd (words_in_play st)
  | None => words_in_play st = []
  end.
Proof.
  intros (Hperm & _ & Hord).
  destruct (firstn_shrunk sorted (current_count st) Hord) as [Hfirst Hbound].
  assert (Hin : forall wd,
             In wd (List.map word
                      (valid_entries
                         (firstn (Z.to_nat (current_count st)) sorted)))
             <-> In wd (words_in_play st)).
  { intros wd. unfold words_in_play. rewrite !in_words.
    split; intros (e & He & Hrest); exists e; (split; [|exact Hrest]).
    - apply (Permutation_in _ (Permutation_sym Hperm)), He.
    - apply (Permutation_in _ Hperm), He. }
  unfold hard_mode_shrink. cbv zeta.
  destruct (Z.eqb_spec (shrunk_count sorted (current_count st)) 0) as [H0|_].
  - rewrite H0 in Hfirst. cbn [Z.to_nat firstn] in Hfirst.
    rewrite <- Hfirst in Hin.
    destruct (words_in_play st) as [|wd rest]; [reflexivity|].
    exfalso. apply (Hin wd). left. reflexivity.
  - cbn [p_data min_required_counts current_count].
    split; [reflexivity|]. split; [reflexivity|]. split; [exact Hbound|].
    intros wd. rewrite <- Hin. unfold words_in_play.
    cbn [p_data current_count]. rewrite Hfirst, valid_entries_twice.
    reflexivity.
Qed.

Lemma hard_mode_entropy_spec log malloc_ok st :
  current_count (hard_mode_entropy log malloc_ok st) = current_count st
  /\ min_required_counts (hard_mode_entropy log malloc_ok st)
     = min_required_counts st
  /\ List.map (fun e => (word e, is_eliminated e))
              (p_data (hard_mode_entropy log malloc_ok st))
     = List.map (fun e => (word e, is_eliminated e)) (p_data st).
Proof.
  split; [reflexivity|]. split; [reflexivity|].
  unfold hard_mode_entropy. cbn [p_data].
  unfold calculate_entropy_on_dictionary. cbv zeta.
  destruct (_ =? 0); [reflexivity|].
  destruct (negb malloc_ok); [reflexivity|].
  apply keys_update_prefix. intros e.
  destruct (is_eliminated e) eqn:He; cbn [word is_eliminated set_entropy];
    split; first [reflexivity|exact He].
Qed.

Lemma well_formed_shrink total sorted st st' :
  qsorted Comparators.compare_master_entries_eliminated_then_alpha
          (current_count st) (p_data st) sorted ->
  hard_mode_shrink sorted st = Some st' ->
  well_formed total st -> well_formed total st'.
Proof.
  intros Hq Hs (H1 & H2 & H3 & H4).
  pose proof (hard_mode_shrink_spec sorted st Hq) as Hspec.
  rewrite Hs in Hspec. destruct Hspec as (Hp & Hm & Hb & _).
  unfold well_formed. rewrite Hp, Hm.
  split; [specialize (Hb (proj1 H1)); lia|]. split; [|split; [exact H3|]].
  - rewrite (qsorted_length _ _ _ _ Hq). exact H2.
  - apply (qsorted_Forall _ _ _ _ _ Hq), H4.
Qed.

(** *** The turns *)

Lemma target_in_scan total st target :
  current_count st <= total ->
  In target (words_in_play st) ->
  valid_entries (firstn (Z.to_nat total) (p_data st)) <> [].
Proof.
  intros Hle Hin Hnil. unfold words_in_play in Hin.
  apply in_words in Hin as (e & Hin & Hv & _).
  apply (FallbackFacts.in_firstn_le _ _ _ (Z.to_nat total)) in Hin; [|lia].
  assert (He : In e (valid_entries (firstn (Z.to_nat total) (p_data st)))).
  { unfold valid_entries. apply filter_In. split; [exact Hin|].
    rewrite Hv. reflexivity. }
  rewrite Hnil in He. destruct He.
Qed.

Section Simulation.

Variable log : float -> float.
Variables (g_isHardMode : bool) (config : HybridConfig) (master_count : Z).
Variable target : list ascii.

(** What a pass of the simulation keeps true. *)
Lemma simulated_turn_invariant current_guess st next :
  simulated_turn log g_isHardMode config master_count target current_guess
                 st next ->
  well_formed master_count st ->
  In target (words_in_play st) ->
  sound_minimums (min_required_counts st) target ->
  match next with
  | Some st' =>
      well_formed master_count st'
      /\ In target (words_in_play st')
      /\ sound_minimums (min_required_counts st') target
  | None => strncmp current_guess target 5 = 0
  end.
Proof.
  intros Hturn Hwf Hin Hs.
  pose proof (well_formed_apply_feedback master_count current_guess
                (FeedbackCodec.get_feedback_pattern current_guess target)
                st Hwf) as Hwf1.
  assert (Hin1 : In target
                   (words_in_play
                      (apply_feedback current_guess
                         (FeedbackCodec.get_feedback_pattern
                            current_guess target) st))).
  { apply in_play_apply_feedback;
      [apply StringFacts.pattern_c_string|]. split; [exact Hin|reflexivity]. }
  assert (Hs1 : sound_minimums
                  (min_required_counts
                     (apply_feedback current_guess
                        (FeedbackCodec.get_feedback_pattern
                           current_guess target) st)) target).
  { rewrite minimums_apply_feedback. apply CountFacts.update_sound;
      [apply Hwf|exact Hs]. }
  destruct Hturn as [Hwon|Hne Hmode|sorted Hne Hmode Hq]; [exact Hwon| |].
  - revert Hwf1 Hin1 Hs1.
    generalize (apply_feedback current_guess
                  (FeedbackCodec.get_feedback_pattern current_guess target)
                  st).
    intros st1 Hwf1 Hin1 Hs1.
    pose proof (normal_mode_scan_spec log master_count st1) as Hspec.
    destruct (normal_mode_scan log master_count st1) as [st'|].
    + destruct Hspec as (Hc & Hm & Hk).
      split; [apply (well_formed_keys _ st1); assumption|].
      split; [rewrite (words_in_play_keys st1 st' Hc Hk); exact Hin1|].
      rewrite Hm. exact Hs1.
    + exfalso. revert Hspec. apply (target_in_scan _ _ target);
        [apply Hwf1|exact Hin1].
  - rewrite <- (count_apply_feedback current_guess
                  (FeedbackCodec.get_feedback_pattern current_guess target)
                  st) in Hq.
    revert Hq Hwf1 Hin1 Hs1.
    generalize (apply_feedback current_guess
                  (FeedbackCodec.get_feedback_pattern current_guess target)
                  st).
    intros st1 Hq Hwf1 Hin1 Hs1.
    pose proof (hard_mode_shrink_spec sorted st1 Hq) as Hspec.
    destruct (hard_mode_shrink sorted st1) as [st'|] eqn:Hshrink.
    + split; [apply (well_formed_shrink _ sorted st1); assumption|].
      destruct Hspec as (_ & Hm & _ & Hw).
      split; [apply Hw, Hin1|]. rewrite Hm. exact Hs1.
    + rewrite Hspec in Hin1. destruct Hin1.
Qed.

Lemma simulated_game_invariant st guesses st' :
  simulated_game log g_isHardMode config master_count target st guesses st' ->
  well_formed master_count st ->
  In target (words_in_play st) ->
  sound_minimums (min_required_counts st) target ->
  well_formed master_count st'
  /\ In target (words_in_play st')
  /\ sound_minimums (min_required_counts st') target.
Proof.
  induction 1 as [st|st g st1 guesses st2 Hturn _ IH]; intros Hwf Hin Hs;
    [auto|].
  destruct (simulated_turn_invariant g st (Some st1) Hturn Hwf Hin Hs)
    as (Hwf1 & Hin1 & Hs1).
  apply IH; assumption.
Qed.

End Simulation.

Section Interaction.

Variable log : float -> float.
Variables (g_isHardMode : bool) (total_dictionary_size : Z).

Lemma interactive_turn_spec user_guess result_pattern st st' :
  interactive_turn log g_isHardMode total_dictionary_size user_guess
                   result_pattern st (Some st') ->
  c_string result_pattern ->
  well_formed total_dictionary_size st ->
  well_formed total_dictionary_size st'
  /\ forall wd,
       In wd (words_in_play st')
       <-> In wd (words_in_play st)
           /\ FeedbackCodec.get_feedback_pattern user_guess wd
              = result_pattern.
Proof.
  intros Hturn Hr Hwf.
  pose proof (well_formed_apply_feedback total_dictionary_size user_guess
                result_pattern st Hwf) as Hwf1.
  pose proof (fun wd => in_play_apply_feedback user_guess result_pattern
                          st wd Hr) as Hin1.
  remember (Some st') as next eqn:Hnext.
  destruct Hturn as [Hwon|Hne Hmode|sorted malloc_ok Hne Hmode Hq];
    [discriminate Hnext| |].
  - revert Hnext Hwf1 Hin1.
    generalize (apply_feedback user_guess result_pattern st).
    intros st1 Hnext Hwf1 Hin1.
    pose proof (normal_mode_scan_spec log total_dictionary_size st1) as Hspec.
    rewrite Hnext in Hspec. destruct Hspec as (Hc & Hm & Hk).
    split; [apply (well_formed_keys _ st1); assumption|].
    intros wd. rewrite (words_in_play_keys st1 st' Hc Hk). apply Hin1.
  - rewrite <- (count_apply_feedback user_guess result_pattern st) in Hq.
    revert Hq Hnext Hwf1 Hin1.
    generalize (apply_feedback user_guess result_pattern st).
    intros st1 Hq Hnext Hwf1 Hin1.
    pose proof (hard_mode_shrink_spec sorted st1 Hq) as Hspec.
    destruct (hard_mode_shrink sorted st1) as [st2|] eqn:Hshrink;
      [|discriminate Hnext].
    cbn [option_map] in Hnext. injection Hnext as Hst'.
    destruct (hard_mode_entropy_spec log malloc_ok st2) as (Hc & Hm & Hk).
    rewrite Hst' in Hc, Hm, Hk.
    pose proof (well_formed_shrink _ sorted st1 st2 Hq Hshrink Hwf1) as Hwf2.
    split; [apply (well_formed_keys _ st2); assumption|].
    intros wd. rewrite (words_in_play_keys st2 st' Hc Hk).
    destruct Hspec as (_ & _ & _ & Hw). rewrite Hw. apply Hin1.
Qed.

Lemma interactive_game_spec st history st' :
  interactive_game log g_isHardMode total_dictionary_size st history st' ->
  Forall (fun turn : list ascii * list ascii => c_string (snd turn))
         history ->
  well_formed total_dictionary_size st ->
  well_formed total_dictionary_size st'
  /\ forall wd,
       In wd (words_in_play st')
       <-> In wd (words_in_play st)
           /\ Forall
                (fun turn : list ascii * list ascii =>
                   FeedbackCodec.get_feedback_pattern (fst turn) wd
                   = snd turn)
                history.
Proof.
  induction 1 as [st|st g r st1 history st2 Hturn _ IH]; intros Hcs Hwf.
  - split; [exact Hwf|]. intros wd. split; [auto|tauto].
  - apply Forall_cons_1 in Hcs as [Hr Hcs]. cbn [snd] in Hr.
    destruct (interactive_turn_spec g r st st1 Hturn Hr Hwf) as [Hwf1 Hin1].
    destruct (IH Hcs Hwf1) as [Hwf2 Hin2].
    split; [exact Hwf2|]. intros wd. rewrite Hin2, Hin1. split.
    + intros [[H0 Hg] Hrest]. split; [exact H0|].
      constructor; [exact Hg|exact Hrest].
    + intros [H0 Hall]. apply Forall_cons_1 in Hall as [Hg Hrest].
      cbn [fst snd] in Hg. auto.
Qed.

End Interaction.

(** The normal-mode pass, by the state it leads to. *)
Lemma sim_normal_to log g_isHardMode config master_count target
    current_guess st st' :
  strncmp current_guess target 5 <> 0 ->
  use_normal_mode_scan g_isHardMode config = true ->
  normal_mode_scan log master_count
    (apply_feedback current_guess
       (FeedbackCodec.get_feedback_pattern current_guess target) st)
  = Some st' ->
  simulated_turn log g_isHardMode config master_count target current_guess
                 st (Some st').
Proof. intros Hne Hmode <-. apply sim_normal; assumption. Qed.

Lemma int_normal_to log total_dictionary_size user_guess result_pattern
    st st' :
  strcmp result_pattern (word_of "GGGGG") <> 0 ->
  normal_mode_scan log total_dictionary_size
    (apply_feedback user_guess result_pattern st)
  = Some st' ->
  interactive_turn log false total_dictionary_size user_guess result_pattern
                   st (Some st').
Proof. intros Hne <-. apply int_normal; [exact Hne|reflexivity]. Qed.

Lemma colours_c_string r : Forall colour r -> c_string r.
Proof.
  intros H. unfold c_string. eapply Forall_impl; [exact H|].
  intros c [Hc | [Hc | Hc]]; subst c; discriminate.
Qed.

End FilterFacts.

(** X20: [filter_dictionary_by_constraints] is idempotent, and two calls
    commute: running it again with the same guess and pattern changes
    nothing, and the dictionary after two turns does not depend on the
    order in which their feedback is applied. *)
Theorem filtering_is_idempotent_and_order_independent
    (p_dictionary : list dictionary_entry) (count1 count2 : Z)
    (guess1 pattern1 guess2 pattern2 : list ascii) :
  SolverLogic.filter_dictionary_by_constraints
    (SolverLogic.filter_dictionary_by_constraints
       p_dictionary count1 guess1 pattern1)
    count1 guess1 pattern1
  = SolverLogic.filter_dictionary_by_constraints
      p_dictionary count1 guess1 pattern1
  /\ SolverLogic.filter_dictionary_by_constraints
       (SolverLogic.filter_dictionary_by_constraints
          p_dictionary count1 guess1 pattern1)
       count2 guess2 pattern2
     = SolverLogic.filter_dictionary_by_constraints
         (SolverLogic.filter_dictionary_by_constraints
            p_dictionary count2 guess2 pattern2)
         count1 guess1 pattern1.
Proof.
  unfold SolverLogic.filter_dictionary_by_constraints.
  split; apply list_eq; intros i;
    rewrite !PrefixFacts.lookup_update_prefix;
    destruct (p_dictionary !! i) as [e|];
    cbn [fmap option_fmap option_map]; try reflexivity; f_equal.
  - case_decide; cbn [id]; [|reflexivity].
    destruct (is_eliminated e) eqn:He; [rewrite He; reflexivity|].
    destruct (strcmp _ _ =? 0) eqn:Hc; cbn [negb].
    + rewrite He, Hc. reflexivity.
    + reflexivity.
  - destruct (decide (Z.of_nat i < count1)), (decide (Z.of_nat i < count2));
      cbn [id]; try reflexivity.
    destruct (is_eliminated e) eqn:He; [rewrite !He; reflexivity|].
    destruct (strcmp (FeedbackCodec.get_feedback_pattern guess1 (word e))
                     pattern1 =? 0) eqn:H1;
      destruct (strcmp (FeedbackCodec.get_feedback_pattern guess2 (word e))
                       pattern2 =? 0) eqn:H2;
      cbn [negb is_eliminated set_eliminated word];
      rewrite ?He, ?H1, ?H2; cbn [negb is_eliminated set_eliminated word];
      reflexivity.
Qed.

(** X21: the words in play in an interactive game are those consistent
    with every turn.  Take a state the loop runs on (count within the
    array, 26 minimums, every word five upper-case letters) and any
    number of passes through the body of the interactive loop, each
    with an upper-case five-letter guess and a pattern the prompt
    accepts, in normal or in hard mode, with the entropies rewritten and,
    in hard mode, the array sorted and the count shrunk between the
    turns.  Then the state is again one the loop runs on, and a word is
    in play at the end exactly when it was in play at the start and
    gives, with every guess of the history, the pattern that was entered
    for it. *)
Theorem survivors_are_consistent_with_every_turn
    (log : float -> float) (g_isHardMode : bool) (total_dictionary_size : Z)
    (st st' : GameLoop.game_state)
    (history : list (list ascii * list ascii)) :
  well_formed total_dictionary_size st ->
  Forall (fun turn : list ascii * list ascii =>
            word_ok (fst turn) = true /\ pattern_ok (snd turn))
         history ->
  GameLoop.interactive_game log g_isHardMode total_dictionary_size
                            st history st' ->
  well_formed total_dictionary_size st'
  /\ forall wd : list ascii,
       In wd (words_in_play st')
       <-> In wd (words_in_play st)
           /\ Forall
                (fun turn : list ascii * list ascii =>
                   FeedbackCodec.get_feedback_pattern (fst turn) wd
                   = snd turn)
                history.
Proof.
  intros Hwf Hhist Hgame.
  apply (FilterFacts.interactive_game_spec log g_isHardMode
           total_dictionary_size st history st' Hgame); [|exact Hwf].
  eapply Forall_impl; [exact Hhist|].
  intros turn [_ [_ Hc]]. apply FilterFacts.colours_c_string, Hc.
Qed.

Lemma survivors_are_consistent_with_every_turn_witness :
  exists st' : GameLoop.game_state,
    GameLoop.interactive_game sample_log false 3
      (GameLoop.mk_state
         [sample_entry "TRACE" 0 50 "S" "P" false false;
          sample_entry "CRATE" 0 50 "S" "N" false false;
          sample_entry "SPEED" 0 50 "S" "P" true true]
         3 (CArray.zeros 26))
      [(word_of "CRANE", word_of "YGGBG");
       (word_of "GRACE", word_of "BGGGG")]
      st'
    /\ well_formed 3 st'
    /\ forall wd : list ascii,
         In wd (words_in_play st')
         <-> In wd
               (words_in_play
                  (GameLoop.mk_state
                     [sample_entry "TRACE" 0 50 "S" "P" false false;
                      sample_entry "CRATE" 0 50 "S" "N" false false;
                      sample_entry "SPEED" 0 50 "S" "P" true true]
                     3 (CArray.zeros 26)))
             /\ Forall
                  (fun turn : list ascii * list ascii =>
                     FeedbackCodec.get_feedback_pattern (fst turn) wd
                     = snd turn)
                  [(word_of "CRANE", word_of "YGGBG");
                   (word_of "GRACE", word_of "BGGGG")].
Proof.
  assert (Hgame :
            { st' : GameLoop.game_state
            | GameLoop.interactive_game sample_log false 3
                (GameLoop.mk_state
                   [sample_entry "TRACE" 0 50 "S" "P" false false;
                    sample_entry "CRATE" 0 50 "S" "N" false false;
                    sample_entry "SPEED" 0 50 "S" "P" true true]
                   3 (CArray.zeros 26))
                [(word_of "CRANE", word_of "YGGBG");
                 (word_of "GRACE", word_of "BGGGG")]
                st' }).
  { eexists.
    eapply GameLoop.int_next;
      [eapply FilterFacts.int_normal_to;
         [vm_compute; discriminate|vm_compute; reflexivity]|].
    eapply GameLoop.int_next;
      [eapply FilterFacts.int_normal_to;
         [vm_compute; discriminate|vm_compute; reflexivity]|].
    apply GameLoop.int_start. }
  destruct Hgame as [st' Hgame]. exists st'. split; [exact Hgame|].
  apply (survivors_are_consistent_with_every_turn sample_log false 3
           (GameLoop.mk_state
              [sample_entry "TRACE" 0 50 "S" "P" false false;
               sample_entry "CRATE" 0 50 "S" "N" false false;
               sample_entry "SPEED" 0 50 "S" "P" true true]
              3 (CArray.zeros 26))
           st'
           [(word_of "CRANE", word_of "YGGBG");
            (word_of "GRACE", word_of "BGGGG")]).
  - unfold well_formed. cbn [GameLoop.current_count GameLoop.p_data
                               GameLoop.min_required_counts].
    split; [lia|]. split; [cbn [length]; lia|].
    split; [reflexivity|]. repeat constructor.
  - repeat (apply List.Forall_cons;
            [split; [reflexivity|];
             split; [reflexivity|];
             repeat (apply List.Forall_cons; [unfold colour; auto|]);
             apply List.Forall_nil|]).
    apply List.Forall_nil.
  - exact Hgame.
Defined.

(** X22: the invariants of a simulated game.  Take a state the loop runs
    on in which the target is in play and the letter minimums hold of
    the target, and any number of passes through the body of the
    simulation's loop with upper-case five-letter guesses, in normal or
    in hard mode, with the entropies rewritten or the array sorted and
    the count shrunk between the turns.  Then the state is again one the
    loop runs on, the target is still in play, the minimums still hold
    of it, and the next pass leaves the loop only when the guess is the
    target: the solver never eliminates the word it is looking for, and
    the exit for an empty dictionary is never taken. *)
Theorem the_target_survives_every_turn
    (log : float -> float) (g_isHardMode : bool) (config : HybridConfig)
    (master_count : Z) (target : list ascii)
    (st st' : GameLoop.game_state) (guesses : list (list ascii)) :
  word_ok target = true ->
  Forall (fun guess => word_ok guess = true) guesses ->
  well_formed master_count st ->
  In target (words_in_play st) ->
  sound_minimums (GameLoop.min_required_counts st) target ->
  GameLoop.simulated_game log g_isHardMode config master_count target
                          st guesses st' ->
  well_formed master_count st'
  /\ In target (words_in_play st')
  /\ sound_minimums (GameLoop.min_required_counts st') target
  /\ forall current_guess : list ascii,
       word_ok current_guess = true ->
       GameLoop.simulated_turn log g_isHardMode config master_count target
                               current_guess st' None ->
       strncmp current_guess target 5 = 0.
Proof.
  intros _ _ Hwf Hin Hs Hgame.
  destruct (FilterFacts.simulated_game_invariant log g_isHardMode config
              master_count target st guesses st' Hgame Hwf Hin Hs)
    as (Hwf' & Hin' & Hs').
  split; [exact Hwf'|]. split; [exact Hin'|]. split; [exact Hs'|].
  intros current_guess _ Hturn.
  apply (FilterFacts.simulated_turn_invariant log g_isHardMode config
           master_count target current_guess st' None Hturn Hwf' Hin' Hs').
Qed.

Lemma the_target_survives_every_turn_witness :
  exists st' : GameLoop.game_state,
    GameLoop.simulated_game sample_log false legacy_reborn 3
      (word_of "ELDER")
      (GameLoop.mk_state
         [sample_entry "TRACE" 0 50 "S" "P" false false;
          sample_entry "CRATE" 0 50 "S" "N" false false;
          sample_entry "ELDER" 0 50 "S" "N" true false]
         3 (CArray.zeros 26))
      [word_of "GEESE"; word_of "CRANE"]
      st'
    /\ well_formed 3 st'
    /\ In (word_of "ELDER") (words_in_play st')
    /\ sound_minimums (GameLoop.min_required_counts st') (word_of "ELDER")
    /\ forall current_guess : list ascii,
         word_ok current_guess = true ->
         GameLoop.simulated_turn sample_log false legacy_reborn 3
           (word_of "ELDER") current_guess st' None ->
         strncmp current_guess (word_of "ELDER") 5 = 0.
Proof.
  assert (Hgame :
            { st' : GameLoop.game_state
            | GameLoop.simulated_game sample_log false legacy_reborn 3
                (word_of "ELDER")
                (GameLoop.mk_state
                   [sample_entry "TRACE" 0 50 "S" "P" false false;
                    sample_entry "CRATE" 0 50 "S" "N" false false;
                    sample_entry "ELDER" 0 50 "S" "N" true false]
                   3 (CArray.zeros 26))
                [word_of "GEESE"; word_of "CRANE"]
                st' }).
  { eexists.
    eapply GameLoop.sim_next;
      [eapply FilterFacts.sim_normal_to;
         [vm_compute; discriminate|reflexivity|vm_compute; reflexivity]|].
    eapply GameLoop.sim_next;
      [eapply FilterFacts.sim_normal_to;
         [vm_compute; discriminate|reflexivity|vm_compute; reflexivity]|].
    apply GameLoop.sim_start. }
  destruct Hgame as [st' Hgame]. exists st'. split; [exact Hgame|].
  apply (the_target_survives_every_turn sample_log false legacy_reborn 3
           (word_of "ELDER")
           (GameLoop.mk_state
              [sample_entry "TRACE" 0 50 "S" "P" false false;
               sample_entry "CRATE" 0 50 "S" "N" false false;
               sample_entry "ELDER" 0 50 "S" "N" true false]
              3 (CArray.zeros 26))
           st' [word_of "GEESE"; word_of "CRANE"]).
  - reflexivity.
  - repeat constructor.
  - unfold well_formed. cbn [GameLoop.current_count GameLoop.p_data
                               GameLoop.min_required_counts].
    split; [lia|]. split; [cbn [length]; lia|].
    split; [reflexivity|]. repeat constructor.
  - right. right. left. reflexivity.
  - intros c _. cbn [GameLoop.min_required_counts].
    rewrite CArrayFacts.get_zeros. apply YellowFacts.count_pos_nonneg.
  - exact Hgame.
Defined.

(** ** Where the strategy engine takes its guess from *)

Module SelectionFacts.
Import SolverLogic.

Lemma fold_left_invariant {S A} (Q : S -> Prop) (f : S -> A -> S)
    (l : list A) :
  (forall st x, In x l -> Q st -> Q (f st x)) ->
  forall init, Q init -> Q (fold_left f l init).
Proof.
  induction l as [|x l IH]; intros Hstep init Hinit; [exact Hinit|].
  cbn [fold_left]. apply IH.
  - intros st y Hy. apply Hstep. right. exact Hy.
  - apply Hstep; [left; reflexivity|exact Hinit].
Qed.

Lemma head_in_firstn {A} (l : list A) (count : Z) (x : A) :
  0 < count -> head l = Some x -> In x (firstn (Z.to_nat count) l).
Proof.
  intros Hc Hh. destruct l as [|y l]; [discriminate|].
  injection Hh as ->. destruct (Z.to_nat count) as [|n] eqn:Hn; [lia|].
  left. reflexivity.
Qed.

Ltac split_guard H :=
  match type of H with
  | (if ?b then _ else _) = _ => destruct b; [|discriminate H]
  end.

Section Stages.

Variable log10 : float -> float.
Variables (config : HybridConfig) (mrc : list Z) (valid_count turn : Z).

Lemma coverage_scan_in p_rank_sorted count e :
  coverage_scan config p_rank_sorted count mrc turn = Some e ->
  In e (firstn (Z.to_nat count) p_rank_sorted)
  /\ is_eliminated e = false
  /\ standard_pass config mrc turn e = true.
Proof.
  unfold coverage_scan.
  set (l := firstn (Z.to_nat (if count <? 100 then count else 100))
                   p_rank_sorted).
  intros H.
  assert (Hin : In e l /\ is_eliminated e = false
                /\ standard_pass config mrc turn e = true).
  { revert e H.
    apply (fold_left_invariant
             (fun st : Z * option dictionary_entry =>
                forall e, snd st = Some e ->
                          In e l /\ is_eliminated e = false
                          /\ standard_pass config mrc turn e = true)).
    - intros [best_cov best] x Hx Hst e.
      destruct (standard_pass config mrc turn x) eqn:Hp;
        destruct (is_eliminated x) eqn:Hx'; try apply Hst.
      destruct (best_cov <? _); [|apply Hst].
      cbn [snd]. intros [= <-]. auto.
    - intros e. discriminate. }
  destruct Hin as (Hin & He & Hp). split; [|split; assumption].
  eapply FallbackFacts.in_firstn_le; [apply FallbackFacts.scan_limit_le|].
  exact Hin.
Qed.

Lemma biased_scan_in score_of p_entropy_sorted count e :
  biased_scan score_of config p_entropy_sorted count mrc turn = Some e ->
  In e (firstn (Z.to_nat count) p_entropy_sorted)
  /\ standard_pass config mrc turn e = true.
Proof.
  unfold biased_scan.
  set (l := firstn (Z.to_nat (if count <? 30 then count else 30))
                   p_entropy_sorted).
  intros H.
  assert (Hin : In e l /\ standard_pass config mrc turn e = true).
  { revert e H.
    apply (fold_left_invariant
             (fun st : Z * float * option dictionary_entry =>
                forall e, snd st = Some e ->
                          In e l /\ standard_pass config mrc turn e = true)).
    - intros [[best_score best_ent] best] x Hx Hst e.
      destruct (standard_pass config mrc turn x) eqn:Hp; [|apply Hst].
      destruct (best_score <? _); [cbn [snd]; intros [= <-]; auto|].
      destruct (_ =? best_score); [|apply Hst].
      destruct (PrimFloat.ltb _ _); [cbn [snd]; intros [= <-]; auto|].
      apply Hst.
    - intros e. discriminate. }
  destruct Hin as (Hin & Hp). split; [|exact Hp].
  eapply FallbackFacts.in_firstn_le; [apply FallbackFacts.scan_limit_le|].
  exact Hin.
Qed.

Lemma heatmap_scan_in heatmap cands : forall best best_score scanned e,
  heatmap_scan config heatmap mrc turn cands best best_score scanned = Some e ->
  best = Some e \/ In e cands.
Proof.
  induction cands as [|cand rest IH]; intros best best_score scanned e;
    cbn [heatmap_scan]; [auto|].
  destruct (20 <=? scanned); [auto|].
  destruct (standard_pass config mrc turn cand).
  - destruct (best_score <? _); intros H; apply IH in H as [H|H].
    + injection H as <-. right. left. reflexivity.
    + right. right. exact H.
    + left. exact H.
    + right. right. exact H.
  - intros H. apply IH in H as [H|H]; [left|right; right]; exact H.
Qed.

Lemma main_loop_in p_rank_sorted max_evals cands :
  forall best score evaluated e,
    main_loop log10 config p_rank_sorted mrc valid_count turn max_evals cands
              best score evaluated = Some e ->
    best = Some e \/ In e cands.
Proof.
  induction cands as [|cand rest IH]; intros best score evaluated e;
    cbn [main_loop]; [auto|].
  destruct (max_evals <=? evaluated); [auto|].
  destruct (main_pass config mrc valid_count turn cand).
  - destruct (PrimFloat.ltb score _); intros H; apply IH in H as [H|H].
    + injection H as <-. right. left. reflexivity.
    + right. right. exact H.
    + left. exact H.
    + right. right. exact H.
  - intros H. apply IH in H as [H|H]; [left|right; right]; exact H.
Qed.

Lemma main_selection_in p_entropy_sorted p_rank_sorted count e :
  0 < count ->
  main_selection log10 config p_entropy_sorted p_rank_sorted count mrc
                 valid_count turn = Some e ->
  In e (firstn (Z.to_nat count) p_entropy_sorted).
Proof.
  intros Hc. unfold main_selection.
  destruct (main_loop _ _ _ _ _ _ _ _ _ _ _) as [b|] eqn:Hloop.
  - intros [= <-]. apply main_loop_in in Hloop as [H|H];
      [discriminate|exact H].
  - apply head_in_firstn, Hc.
Qed.

Lemma best_rank_candidate_in p_rank_sorted count e :
  0 < count ->
  best_rank_candidate config p_rank_sorted count mrc valid_count turn = Some e ->
  In e (firstn (Z.to_nat count) p_rank_sorted).
Proof.
  intros Hc. unfold best_rank_candidate.
  destruct (List.find _ _) as [c|] eqn:Hf.
  - intros [= <-]. apply find_some in Hf as [H _]. exact H.
  - apply head_in_firstn, Hc.
Qed.

Lemma get_smart_hybrid_guess_in p_entropy_sorted p_rank_sorted count e :
  0 <= count ->
  get_smart_hybrid_guess log10 p_entropy_sorted p_rank_sorted count config
                         mrc valid_count turn = Some e ->
  In e (firstn (Z.to_nat count) p_entropy_sorted)
  \/ In e (firstn (Z.to_nat count) p_rank_sorted).
Proof.
  intros Hc. unfold get_smart_hybrid_guess.
  destruct (Z.eqb_spec count 0) as [H0|Hn0]; [discriminate|].
  assert (Hpos : 0 < count) by lia.
  destruct (if prioritize_turn2_coverage config && (turn =? 2)
            then coverage_scan config p_rank_sorted count mrc turn
            else None) as [c|] eqn:Hcov.
  { intros [= <-]. split_guard Hcov.
    right. apply (coverage_scan_in _ _ _ Hcov). }
  destruct (if prioritize_vowel_contingency config && (turn =? 2)
               && (count_known_vowels mrc <? 2)
            then biased_scan _ config p_entropy_sorted count mrc turn
            else None) as [c|] eqn:Hcon.
  { intros [= <-]. split_guard Hcon.
    left. apply (biased_scan_in _ _ _ _ Hcon). }
  destruct (if (turn <=? 2)
               && (prioritize_new_vowels config || prioritize_anchors config)
            then biased_scan _ config p_entropy_sorted count mrc turn
            else None) as [c|] eqn:Hearly.
  { intros [= <-]. split_guard Hearly.
    left. apply (biased_scan_in _ _ _ _ Hearly). }
  destruct (if use_heatmap_priority config && (2 <? valid_count)
            then heatmap_scan config _ mrc turn _ None (-1) 0
            else None) as [c|] eqn:Hheat.
  { intros [= <-]. split_guard Hheat.
    left. apply heatmap_scan_in in Hheat as [H|H]; [discriminate|exact H]. }
  destruct (main_selection _ _ _ _ _ _ _ _) as [b|] eqn:Hmain;
    [|discriminate].
  apply (main_selection_in _ _ _ _ Hpos) in Hmain.
  cbv zeta.
  destruct (PrimFloat.ltb 0 (rank_priority_tolerance config)
            && negb (valid_count <=? 20)).
  - destruct (best_rank_candidate _ _ _ _ _ _) as [r|] eqn:Hrank;
      [|intros H; discriminate H].
    apply (best_rank_candidate_in _ _ _ Hpos) in Hrank.
    destruct (PrimFloat.ltb _ _); intros [= <-]; auto.
  - intros [= <-]. auto.
Qed.

End Stages.

End SelectionFacts.

(** X23: [get_smart_hybrid_guess] only ever returns an entry it was
    given: for a [count] that is not negative, a result is among the
    first [count] entries of the entropy view or of the rank view.  So
    when those entries are all valid, as in hard mode, where the views
    hold the valid words only, the guess is a valid word. *)
Theorem smart_guess_is_an_entry_of_a_view
    (log10 : float -> float)
    (p_entropy_sorted p_rank_sorted : list dictionary_entry) (count : Z)
    (config : HybridConfig) (min_required_counts : list Z)
    (valid_count turn : Z) (e : dictionary_entry) :
  0 <= count ->
  SolverLogic.get_smart_hybrid_guess log10 p_entropy_sorted p_rank_sorted
    count config min_required_counts valid_count turn = Some e ->
  (In e (firstn (Z.to_nat count) p_entropy_sorted)
   \/ In e (firstn (Z.to_nat count) p_rank_sorted))
  /\ (Forall (fun x => is_eliminated x = false)
             (firstn (Z.to_nat count) p_entropy_sorted) ->
      Forall (fun x => is_eliminated x = false)
             (firstn (Z.to_nat count) p_rank_sorted) ->
      is_eliminated e = false).
Proof.
  intros Hc Hres.
  pose proof (SelectionFacts.get_smart_hybrid_guess_in log10 config
                min_required_counts valid_count turn p_entropy_sorted
                p_rank_sorted count e Hc Hres) as Hin.
  split; [exact Hin|]. intros He Hr.
  rewrite List.Forall_forall in He, Hr.
  destruct Hin as [H|H]; [apply He|apply Hr]; exact H.
Qed.

Lemma smart_guess_is_an_entry_of_a_view_witness :
  exists e : dictionary_entry,
    SolverLogic.get_smart_hybrid_guess sample_log eleven_words
      eleven_words_by_rank 11 legacy_reborn (CArray.zeros 26) 11 1 = Some e
    /\ (In e (firstn (Z.to_nat 11) eleven_words)
        \/ In e (firstn (Z.to_nat 11) eleven_words_by_rank)).
Proof.
  eexists. split; [vm_compute; reflexivity|].
  apply (smart_guess_is_an_entry_of_a_view sample_log eleven_words
           eleven_words_by_rank 11 legacy_reborn (CArray.zeros 26) 11 1);
    [lia|vm_compute; reflexivity].
Defined.

(** ** The positional heatmap *)

Module HeatmapFacts.
Import SolverLogic CArrayFacts YellowFacts.

(** The rows of an [int heatmap[5][26]]. *)
Lemma five_rows (hm : list (list Z)) :
  length hm = 5%nat ->
  exists r0 r1 r2 r3 r4, hm = [r0; r1; r2; r3; r4].
Proof.
  destruct hm as [|r0 [|r1 [|r2 [|r3 [|r4 [|r5 hm]]]]]]; try discriminate.
  intros _. eauto 6.
Qed.

(** The inner loop of [build_heatmap_matrix] for one word: row [j] is
    bumped at the letter the word has at position [j]. *)
Lemma inner_rows (wd : list ascii) (hm : list (list Z)) :
  length hm = 5%nat ->
  let hm' :=
    fold_left
      (fun hm j =>
         let char_idx := letter_index (char_at wd j) in
         if (0 <=? char_idx) && (char_idx <? 26)
         then <[j := CArray.incr (nth j hm []) char_idx]> hm
         else hm)
      (seq 0 5) hm in
  length hm' = 5%nat
  /\ forall j, (j < 5)%nat ->
       nth j hm' []
       = if (0 <=? letter_index (char_at wd j))
            && (letter_index (char_at wd j) <? 26)
         then CArray.incr (nth j hm []) (letter_index (char_at wd j))
         else nth j hm [].
Proof.
  intros Hlen. destruct (five_rows hm Hlen) as (r0 & r1 & r2 & r3 & r4 & ->).
  cbn [seq fold_left].
  destruct ((0 <=? letter_index (char_at wd 0))
            && (letter_index (char_at wd 0) <? 26)) eqn:C0;
  destruct ((0 <=? letter_index (char_at wd 1))
            && (letter_index (char_at wd 1) <? 26)) eqn:C1;
  destruct ((0 <=? letter_index (char_at wd 2))
            && (letter_index (char_at wd 2) <? 26)) eqn:C2;
  destruct ((0 <=? letter_index (char_at wd 3))
            && (letter_index (char_at wd 3) <? 26)) eqn:C3;
  destruct ((0 <=? letter_index (char_at wd 4))
            && (letter_index (char_at wd 4) <? 26)) eqn:C4;
    cbn [insert list_insert nth]; (split; [reflexivity|]);
    intros j Hj; destruct j as [|[|[|[|[|j]]]]]; try lia;
    rewrite ?C0, ?C1, ?C2, ?C3, ?C4; reflexivity.
Qed.

(** A table of five rows of 26 slots. *)
Lemma inner_cell (wd : list ascii) (hm : list (list Z)) :
  length hm = 5%nat ->
  (forall j, (j < 5)%nat -> length (nth j hm []) = 26%nat) ->
  let hm' :=
    fold_left
      (fun hm j =>
         let char_idx := letter_index (char_at wd j) in
         if (0 <=? char_idx) && (char_idx <? 26)
         then <[j := CArray.incr (nth j hm []) char_idx]> hm
         else hm)
      (seq 0 5) hm in
  length hm' = 5%nat
  /\ (forall j, (j < 5)%nat -> length (nth j hm' []) = 26%nat)
  /\ forall j k, (j < 5)%nat ->
       heatmap_get hm' j k
       = heatmap_get hm j k
         + (if is_upper (char_at wd j)
               && (letter_index (char_at wd j) =? k) then 1 else 0).
Proof.
  intros Hlen Hrows hm'. destruct (inner_rows wd hm Hlen) as [Hl Hr].
  fold hm' in Hl, Hr. split; [exact Hl|]. split.
  - intros j Hj. rewrite (Hr j Hj).
    destruct (_ && _); [|apply Hrows, Hj].
    unfold CArray.incr. rewrite length_set. apply Hrows, Hj.
  - intros j k Hj. unfold heatmap_get. rewrite (Hr j Hj). unfold is_upper.
    destruct ((0 <=? letter_index (char_at wd j))
              && (letter_index (char_at wd j) <? 26)) eqn:Hin; cbn [andb].
    + rewrite get_incr. rewrite (Hrows j Hj).
      apply andb_true_iff in Hin as [H1 H2].
      apply Z.leb_le in H1. apply Z.ltb_lt in H2.
      destruct (Z.eqb_spec (letter_index (char_at wd j)) k) as [He|Hne].
      * rewrite decide_True; [reflexivity|]. split; [congruence|lia].
      * rewrite decide_False; [reflexivity|]. intros [He _]. congruence.
    + lia.
Qed.

(** The outer loop over the entries. *)
Lemma build_cells (l : list dictionary_entry) : forall hm,
  length hm = 5%nat ->
  (forall j, (j < 5)%nat -> length (nth j hm []) = 26%nat) ->
  let hm' :=
    fold_left
      (fun heatmap (e : dictionary_entry) =>
         if negb (is_eliminated e) then
           fold_left
             (fun hm j =>
                let char_idx := letter_index (char_at (word e) j) in
                if (0 <=? char_idx) && (char_idx <? 26)
                then <[j := CArray.incr (nth j hm []) char_idx]> hm
                else hm)
             (seq 0 5) heatmap
         else heatmap)
      l hm in
  forall j k, (j < 5)%nat ->
    heatmap_get hm' j k
    = heatmap_get hm j k
      + Z.of_nat
          (length
             (List.filter
                (fun e => is_upper (char_at (word e) j)
                          && (letter_index (char_at (word e) j) =? k))
                (valid_entries l))).
Proof.
  induction l as [|e l IH]; intros hm Hlen Hrows hm' j k Hj.
  - cbn. lia.
  - unfold hm'. cbn [fold_left]. unfold valid_entries. cbn [List.filter].
    destruct (is_eliminated e); cbn [negb].
    + apply IH; assumption.
    + destruct (inner_cell (word e) hm Hlen Hrows) as (Hl & Hr & Hc).
      cbv zeta in IH, Hl, Hr, Hc.
      set (hm1 := fold_left _ (seq 0 5) hm) in *.
      rewrite (IH hm1 Hl Hr j k Hj), (Hc j k Hj).
      cbn [List.filter].
      destruct (is_upper (char_at (word e) j)
                && (letter_index (char_at (word e) j) =? k));
        cbn [length]; fold (valid_entries l); unfold valid_entries; lia.
Qed.

Lemma zero_rows j :
  (j < 5)%nat -> length (nth j (replicate 5 (CArray.zeros 26)) []) = 26%nat.
Proof.
  intros Hj. destruct j as [|[|[|[|[|j]]]]]; try lia; reflexivity.
Qed.

Lemma zero_cells j k : heatmap_get (replicate 5 (CArray.zeros 26)) j k = 0.
Proof.
  unfold heatmap_get.
  destruct j as [|[|[|[|[|j]]]]]; cbn [replicate nth];
    try apply get_zeros.
  destruct j; unfold CArray.get; case_decide; reflexivity.
Qed.

Lemma build_heatmap_cell p count j k :
  (j < 5)%nat ->
  heatmap_get (build_heatmap_matrix p count) j k
  = Z.of_nat
      (length
         (List.filter
            (fun e => is_upper (char_at (word e) j)
                      && (letter_index (char_at (word e) j) =? k))
            (valid_entries (firstn (Z.to_nat count) p)))).
Proof.
  intros Hj. unfold build_heatmap_matrix.
  pose proof (build_cells (firstn (Z.to_nat count) p)
                (replicate 5 (CArray.zeros 26)) eq_refl zero_rows j k Hj) as H.
  cbv zeta in H. rewrite H, zero_cells. lia.
Qed.

(** Summing the agreements of a word with a list of entries, position by
    position or entry by entry. *)
Lemma agreements_sum wd (vs : list dictionary_entry) :
  fold_left
    (fun score j =>
       if is_upper (char_at wd j)
       then score
            + Z.of_nat
                (length
                   (List.filter
                      (fun e => is_upper (char_at (word e) j)
                                && (letter_index (char_at (word e) j)
                                    =? letter_index (char_at wd j)))
                      vs))
       else score)
    (seq 0 5) 0
  = total (List.map (fun e => agreements wd (word e)) vs).
Proof.
  induction vs as [|e vs IH]; cbn [List.map total fold_right List.filter].
  - cbn [seq fold_left length]. change (Z.of_nat 0) with 0.
    repeat destruct (is_upper _); reflexivity.
  - fold (total (List.map (fun e => agreements wd (word e)) vs)).
    rewrite <- IH. unfold agreements, positions, WORDLE_WORD_LENGTH.
    cbn [seq]. rewrite !count_pos_cons, count_pos_nil. cbn [fold_left].
    assert (Heq : forall j,
               is_upper (char_at wd j) = true ->
               is_upper (char_at (word e) j)
               && (letter_index (char_at (word e) j)
                   =? letter_index (char_at wd j))
               = Ascii.eqb (char_at wd j) (char_at (word e) j)).
    { intros j Hu.
      destruct (Ascii.eqb_spec (char_at wd j) (char_at (word e) j)) as [He|Hne].
      - rewrite <- He, Hu, Z.eqb_refl. reflexivity.
      - replace (letter_index (char_at (word e) j)
                 =? letter_index (char_at wd j)) with false;
          [apply andb_false_r|].
        symmetry. apply Z.eqb_neq. intros He. apply Hne. symmetry.
        apply letter_index_inj, He. }
    destruct (is_upper (char_at wd 0)) eqn:H0;
    destruct (is_upper (char_at wd 1)) eqn:H1;
    destruct (is_upper (char_at wd 2)) eqn:H2;
    destruct (is_upper (char_at wd 3)) eqn:H3;
    destruct (is_upper (char_at wd 4)) eqn:H4;
      rewrite ?(Heq 0%nat H0), ?(Heq 1%nat H1), ?(Heq 2%nat H2),
              ?(Heq 3%nat H3), ?(Heq 4%nat H4);
      cbn [andb];
      repeat match goal with
             | |- context [Ascii.eqb ?a ?b] => destruct (Ascii.eqb a b)
             end;
      cbn [length]; lia.
Qed.

End HeatmapFacts.

(** X24: what the heatmap holds and what the heatmap score is.  Cell
    [j][k] of [build_heatmap_matrix] is the number of valid entries among
    the first [count] whose word has the upper-case letter of slot [k]
    at position [j]; and [get_heatmap_score] of a word on that heatmap is
    the sum, over those valid entries, of the positions where the word
    and the entry have the same upper-case letter: the number of Green
    marks the word would get over all valid answers. *)
Theorem heatmap_score_counts_the_greens
    (p_dictionary : list dictionary_entry) (count : Z) (wd : list ascii) :
  (forall (j : nat) (k : Z),
      (j < 5)%nat ->
      SolverLogic.heatmap_get
        (SolverLogic.build_heatmap_matrix p_dictionary count) j k
      = Z.of_nat
          (length
             (List.filter
                (fun e => is_upper (char_at (word e) j)
                          && (letter_index (char_at (word e) j) =? k))
                (valid_entries (firstn (Z.to_nat count) p_dictionary)))))
  /\ SolverLogic.get_heatmap_score wd
       (SolverLogic.build_heatmap_matrix p_dictionary count)
     = total
         (List.map (fun e => agreements wd (word e))
            (valid_entries (firstn (Z.to_nat count) p_dictionary))).
Proof.
  split; [intros j k Hj; apply HeatmapFacts.build_heatmap_cell, Hj|].
  rewrite <- HeatmapFacts.agreements_sum.
  unfold SolverLogic.get_heatmap_score. cbn [seq fold_left].
  rewrite !HeatmapFacts.build_heatmap_cell by lia.
  reflexivity.
Qed.

(** ** The endgame of normal mode *)

Module EndgameFacts.

Lemma in_update_prefix_all {A} (f : A -> A) (p : list A) (y : A) :
  In y (update_prefix (Z.of_nat (length p)) f p) -> exists x, In x p /\ y = f x.
Proof.
  unfold update_prefix. rewrite Nat2Z.id, firstn_all, skipn_all, app_nil_r.
  intros H. apply in_map_iff in H as (x & <- & Hx). eauto.
Qed.

Lemma candidates_entropy_zero log pCandidates ppValidAnswers validAnswerCount e :
  validAnswerCount <= 1 ->
  In e (calculate_entropy_for_candidates log pCandidates
          (Z.of_nat (length pCandidates)) ppValidAnswers validAnswerCount) ->
  entropy e = 0%float.
Proof.
  intros Hv He. unfold calculate_entropy_for_candidates in He.
  apply in_update_prefix_all in He as (x & _ & ->).
  cbn [entropy set_entropy]. unfold calculate_entropy_internal.
  replace (validAnswerCount <=? 1) with true; [reflexivity|].
  symmetry. apply Z.leb_le. exact Hv.
Qed.

End EndgameFacts.

(** X25: the endgame of normal mode.  Once at most one answer is left,
    [calculate_entropy_for_candidates] gives every candidate the entropy
    0, and in a view of the recomputed candidates that is in the order of
    [compare_dictionary_entries_by_entropy_no_filter_desc] the valid
    entries come first: the first entry of the view is eliminated only
    when no entry is valid, so the remaining answer is not hidden behind
    eliminated words of the same entropy. *)
Theorem last_answer_leads_the_normal_mode_view
    (log : float -> float) (pCandidates ppValidAnswers : list dictionary_entry)
    (validAnswerCount : Z) (view : list dictionary_entry) :
  validAnswerCount <= 1 ->
  Permutation view
    (calculate_entropy_for_candidates log pCandidates
       (Z.of_nat (length pCandidates)) ppValidAnswers validAnswerCount) ->
  in_order Comparators.compare_dictionary_entries_by_entropy_no_filter_desc
           view = true ->
  (forall e, In e view -> entropy e = 0%float)
  /\ view = valid_entries view ++ List.filter is_eliminated view
  /\ (forall e, head view = Some e -> is_eliminated e = true ->
                valid_entries view = []).
Proof.
  intros Hv Hperm Hord.
  assert (Hzero : forall e, In e view -> entropy e = 0%float).
  { intros e He.
    apply (EndgameFacts.candidates_entropy_zero log pCandidates ppValidAnswers
             validAnswerCount e Hv).
    apply (Permutation_in _ Hperm), He. }
  assert (Hsplit : view = valid_entries view ++ List.filter is_eliminated view).
  { apply (OrderFacts.in_order_valid_first
             Comparators.compare_dictionary_entries_by_entropy_no_filter_desc
             view); [|exact Hord].
    intros a b Ha Hb. apply OrderFacts.no_filter_flag;
      rewrite (Hzero a Ha), (Hzero b Hb); reflexivity. }
  split; [exact Hzero|]. split; [exact Hsplit|].
  intros e Hh He.
  destruct (valid_entries view) as [|v vs] eqn:Hval; [reflexivity|].
  exfalso. rewrite Hsplit in Hh. cbn [app head] in Hh. injection Hh as ->.
  pose proof (OrderFacts.valid_entries_valid view) as Hall.
  rewrite Hval in Hall. apply Forall_cons_1 in Hall as [Hv' _]. congruence.
Qed.

Lemma last_answer_leads_the_normal_mode_view_witness :
  let view := [sample_entry "TRACE" 0 60 "S" "P" false false;
               sample_entry "SLATE" 0 70 "S" "N" false true] in
  (forall e, In e view -> entropy e = 0%float)
  /\ view = valid_entries view ++ List.filter is_eliminated view
  /\ (forall e, head view = Some e -> is_eliminated e = true ->
                valid_entries view = []).
Proof.
  apply (last_answer_leads_the_normal_mode_view sample_log
           [sample_entry "SLATE" 3.5 70 "S" "N" false true;
            sample_entry "TRACE" 2.5 60 "S" "P" false false]
           [sample_entry "TRACE" 2.5 60 "S" "P" false false] 1
           [sample_entry "TRACE" 0 60 "S" "P" false false;
            sample_entry "SLATE" 0 70 "S" "N" false true]);
    [lia|apply perm_swap|vm_compute; reflexivity].
Defined.

(** ** The loader's [trim] *)

Module TrimFacts.
Import LoadDictionary.

(** The walk of [trim]: the offset it keeps and the offset it reaches. *)
Lemma walk_bounds (str : list ascii) :
  let st :=
    fold_left
      (fun (st : nat * nat) ch =>
         let '(where_null, currentPtr) := st in
         let currentPtr := S currentPtr in
         if negb (is_blank ch) then (currentPtr, currentPtr)
         else (where_null, currentPtr))
      str (O, O) in
  snd st = length str /\ (fst st <= snd st)%nat.
Proof.
  induction str as [|ch str IH] using rev_ind; [cbn; lia|].
  rewrite fold_left_app. cbn [fold_left]. cbv zeta in IH.
  destruct (fold_left _ str (O, O)) as [w n]. cbn [fst snd] in IH.
  rewrite length_app. cbn [length].
  destruct (negb (is_blank ch)); cbn [fst snd]; lia.
Qed.

Lemma trim_nil : trim [] = [].
Proof. reflexivity. Qed.

Lemma trim_snoc str ch :
  trim (str ++ [ch]) = if is_blank ch then trim str else str ++ [ch].
Proof.
  unfold trim. rewrite fold_left_app. cbn [fold_left].
  pose proof (walk_bounds str) as H. cbv zeta in H.
  destruct (fold_left _ str (O, O)) as [w n]. cbn [fst snd] in H.
  destruct H as [-> Hw].
  destruct (is_blank ch); cbn [negb].
  - rewrite firstn_app. replace (w - length str)%nat with O by lia.
    cbn [firstn]. apply app_nil_r.
  - replace (S (length str)) with (length (str ++ [ch]))
      by (rewrite length_app; cbn [length]; lia).
    apply firstn_all.
Qed.

Lemma trim_spec str :
  (exists blanks, str = trim str ++ blanks /\ forallb is_blank blanks = true)
  /\ (forall s ch, trim str = s ++ [ch] -> is_blank ch = false)
  /\ trim (trim str) = trim str.
Proof.
  induction str as [|ch str IH] using rev_ind.
  - split; [exists []; split; reflexivity|]. split; [|reflexivity].
    intros s ch H. rewrite trim_nil in H. destruct s; discriminate.
  - destruct IH as ((blanks & Hb & Hall) & Hlast & Hidem).
    rewrite trim_snoc. destruct (is_blank ch) eqn:Hch.
    + split; [|split; assumption].
      exists (blanks ++ [ch]). split.
      * rewrite app_assoc, <- Hb. reflexivity.
      * rewrite forallb_app, Hall. cbn. rewrite Hch. reflexivity.
    + split; [exists []; split; [symmetry; apply app_nil_r|reflexivity]|].
      split.
      * intros s c H. apply app_inj_tail in H as [_ <-]. exact Hch.
      * rewrite trim_snoc, Hch. reflexivity.
Qed.

End TrimFacts.

(** X26: [trim] removes exactly the trailing blanks of a line: what it
    cuts off consists of spaces, tabs, newlines and carriage returns
    only, what it keeps does not end with one of them, and trimming
    twice is the same as trimming once. *)
Theorem trim_removes_exactly_the_trailing_blanks (str : list ascii) :
  (exists blanks : list ascii,
      str = LoadDictionary.trim str ++ blanks
      /\ forallb LoadDictionary.is_blank blanks = true)
  /\ (forall (s : list ascii) (ch : ascii),
         LoadDictionary.trim str = s ++ [ch] ->
         LoadDictionary.is_blank ch = false)
  /\ LoadDictionary.trim (LoadDictionary.trim str) = LoadDictionary.trim str.
Proof. apply TrimFacts.trim_spec. Qed.

(** ** The letter scores of the early strategies *)

Module ScoreFacts.
Import SolverLogic CArrayFacts YellowFacts.

Lemma filter_flip {A} (f g : A -> bool) (U : list A) (c0 : A) :
  List.NoDup U -> In c0 U ->
  (forall c, In c U -> c <> c0 -> f c = g c) ->
  f c0 = true -> g c0 = false ->
  length (List.filter f U) = S (length (List.filter g U)).
Proof.
  intros Hnd. induction Hnd as [|x U Hx Hnd IH]; intros Hin Hext Hf Hg;
    [destruct Hin|].
  cbn [List.filter]. destruct Hin as [->|Hin].
  - rewrite Hf, Hg. cbn [length]. f_equal. f_equal.
    apply filter_ext_in. intros c Hc. apply Hext; [right; exact Hc|].
    intros ->. contradiction.
  - rewrite (Hext x) by (try (left; reflexivity); intros ->; contradiction).
    destruct (g x); cbn [length]; rewrite IH; auto.
    + intros c Hc. apply Hext. right. exact Hc.
    + intros c Hc. apply Hext. right. exact Hc.
Qed.

Lemma positive_count f ps : (0 <? count_pos f ps) = existsb f ps.
Proof.
  induction ps as [|i ps IH]; [reflexivity|].
  rewrite count_pos_cons. cbn [existsb].
  pose proof (count_pos_nonneg f ps).
  destruct (f i); cbn [orb]; [apply Z.ltb_lt; lia|].
  rewrite Z.add_0_l. exact IH.
Qed.

(** The shape the three counting loops share: a letter that is eligible,
    not yet seen and marked is recorded as seen, and counted when it is
    good. *)
Lemma distinct_count (U : list ascii) (elig mark good : ascii -> bool)
    (wd : list ascii) :
  List.NoDup U ->
  (forall c, In c U -> 0 <= letter_index c < 26) ->
  forall ps,
    (forall i, In i ps -> elig (char_at wd i) = true <-> In (char_at wd i) U) ->
    forall count seen,
      length seen = 26%nat ->
      fst (fold_left
             (fun (st : Z * list Z) i =>
                let '(count, seen) := st in
                let c := char_at wd i in
                if elig c then
                  if (CArray.get seen (letter_index c) =? 0) && mark c
                  then (if good c then count + 1 else count,
                        CArray.set seen (letter_index c) 1)
                  else st
                else st)
             ps (count, seen))
      = count
        + Z.of_nat
            (length
               (List.filter
                  (fun c => (CArray.get seen (letter_index c) =? 0)
                            && existsb (fun i => Ascii.eqb (char_at wd i) c) ps
                            && mark c && good c)
                  U)).
Proof.
  intros Hnd Hrange. induction ps as [|i ps IH]; intros Helig count seen Hlen.
  - cbn [fold_left fst existsb].
    rewrite (filter_ext _ (fun _ => false)), filter_false;
      [cbn; lia|].
    intros c. rewrite andb_false_r. reflexivity.
  - cbn [fold_left].
    assert (Helig' : forall j, In j ps ->
                       elig (char_at wd j) = true <-> In (char_at wd j) U).
    { intros j Hj. apply Helig. right. exact Hj. }
    set (c0 := char_at wd i).
    destruct (elig c0) eqn:He.
    + assert (Hin : In c0 U) by (apply Helig; [left; reflexivity|exact He]).
      pose proof (Hrange c0 Hin) as Hr.
      destruct ((CArray.get seen (letter_index c0) =? 0) && mark c0) eqn:Hm.
      * apply andb_true_iff in Hm as [Hs Hmk].
        rewrite IH by (try exact Helig'; rewrite length_set; exact Hlen).
        assert (Hother : forall c, In c U -> c <> c0 ->
                   (CArray.get seen (letter_index c) =? 0)
                   && existsb (fun j => Ascii.eqb (char_at wd j) c) (i :: ps)
                   && mark c && good c
                   = (CArray.get (CArray.set seen (letter_index c0) 1)
                                 (letter_index c) =? 0)
                     && existsb (fun j => Ascii.eqb (char_at wd j) c) ps
                     && mark c && good c).
        { intros c Hc Hne. cbn [existsb]. fold c0.
          rewrite get_set_ne
            by (intros Hi; apply Hne; symmetry; apply letter_index_inj, Hi).
          destruct (Ascii.eqb_spec c0 c) as [Heq|_];
            [exfalso; apply Hne; symmetry; exact Heq|]. reflexivity. }
        destruct (good c0) eqn:Hg.
        -- rewrite (filter_flip _ _ U c0 Hnd Hin Hother).
           ++ lia.
           ++ cbn [existsb]. fold c0. rewrite Hs, Ascii.eqb_refl, Hmk, Hg.
              reflexivity.
           ++ rewrite get_set_eq by (rewrite Hlen; lia). reflexivity.
        -- f_equal. f_equal. f_equal. apply filter_ext_in. intros c Hc.
           destruct (Ascii.eqb_spec c c0) as [->|Hne].
           ++ rewrite Hg, !andb_false_r. reflexivity.
           ++ symmetry. apply Hother; assumption.
      * rewrite IH by assumption. f_equal. f_equal. f_equal.
        apply filter_ext_in. intros c Hc. cbn [existsb]. fold c0.
        destruct (Ascii.eqb_spec c0 c) as [<-|_]; [|reflexivity].
        cbn [orb]. rewrite andb_true_r.
        destruct (CArray.get seen (letter_index c0) =? 0); cbn [andb] in *;
          [rewrite Hm, andb_false_r|]; reflexivity.
    + rewrite IH by assumption. f_equal. f_equal. f_equal.
      apply filter_ext_in. intros c Hc. cbn [existsb]. fold c0.
      destruct (Ascii.eqb_spec c0 c) as [<-|_]; [|reflexivity].
      exfalso. apply Helig in Hc; [|left; reflexivity]. fold c0 in Hc.
      congruence.
Qed.


Lemma fold_left_pointwise {S A} (f g : S -> A -> S) (l : list A) :
  (forall st x, f st x = g st x) ->
  forall init, fold_left f l init = fold_left g l init.
Proof.
  intros H. induction l as [|x l IH]; intros init; [reflexivity|].
  cbn [fold_left]. rewrite H. apply IH.
Qed.

Lemma letters_indices : List.map letter_index letters = indices 26.
Proof. reflexivity. Qed.

Lemma NoDup_letters : List.NoDup letters.
Proof.
  apply (NoDup_map_inv letter_index). rewrite letters_indices.
  apply CountFacts.NoDup_indices.
Qed.

Lemma in_letters c : In c letters <-> is_upper c = true.
Proof.
  rewrite PatternFacts.is_upper_range, <- (CountFacts.in_indices 26),
    <- letters_indices, in_map_iff.
  split.
  - intros H. exists c. split; [reflexivity|exact H].
  - intros (d & He & Hd). apply letter_index_inj in He. subst d. exact Hd.
Qed.

Lemma NoDup_vowels : List.NoDup vowels.
Proof.
  unfold vowels. cbn [list_ascii_of_string].
  repeat (constructor;
          [cbn [In]; intros H;
           repeat (destruct H as [H|H]; [discriminate H|]); exact H|]).
  constructor.
Qed.

Lemma vowels_upper c : In c vowels -> 0 <= letter_index c < 26.
Proof.
  unfold vowels. cbn [list_ascii_of_string In].
  intros H.
  repeat (destruct H as [H|H];
          [subst c; apply PatternFacts.is_upper_range; reflexivity|]).
  destruct H.
Qed.

Lemma is_vowel_in c : c <> Ascii.zero -> is_vowel c = true <-> In c vowels.
Proof.
  intros Hz. unfold is_vowel. rewrite orb_true_iff, existsb_exists. split.
  - intros [(d & Hd & He)|He].
    + apply Ascii.eqb_eq in He. subst d. exact Hd.
    + apply Ascii.eqb_eq in He. contradiction.
  - intros H. left. exists c. split; [exact H|apply Ascii.eqb_refl].
Qed.

Lemma word_ok_char wd i :
  word_ok wd = true -> In i (seq 0 5) -> char_at wd i <> Ascii.zero.
Proof.
  intros Hw Hi. apply in_seq in Hi.
  pose proof (PatternFacts.word_ok_length _ Hw) as Hlen.
  pose proof (PatternFacts.word_ok_c_string _ Hw) as Hc.
  unfold c_string in Hc. rewrite List.Forall_forall in Hc. apply Hc.
  unfold char_at. apply nth_In. unfold WORDLE_WORD_LENGTH in Hlen. lia.
Qed.

Lemma coverage_spec wd mrc :
  calculate_new_letter_coverage wd mrc = new_letters letters wd mrc.
Proof.
  unfold calculate_new_letter_coverage, new_letters.
  rewrite (fold_left_pointwise _
             (fun (st : Z * list Z) i =>
                let '(count, seen) := st in
                let c := char_at wd i in
                if is_upper c then
                  if (CArray.get seen (letter_index c) =? 0) && true
                  then (if CArray.get mrc (letter_index c) =? 0
                        then count + 1 else count,
                        CArray.set seen (letter_index c) 1)
                  else st
                else st)).
  2:{ intros [score seen] i. cbv zeta. unfold is_upper.
      rewrite andb_true_r. reflexivity. }
  rewrite (distinct_count letters is_upper (fun _ => true)
             (fun c => CArray.get mrc (letter_index c) =? 0) wd
             NoDup_letters).
  - rewrite Z.add_0_l. f_equal. f_equal. apply filter_ext. intros c.
    unfold occurrences, positions, WORDLE_WORD_LENGTH.
    rewrite get_zeros, positive_count, andb_true_r. reflexivity.
  - intros c Hc. apply PatternFacts.is_upper_range, in_letters, Hc.
  - intros i _. symmetry. apply in_letters.
  - apply length_zeros.
Qed.

Lemma new_vowels_spec wd mrc :
  word_ok wd = true -> count_new_vowels wd mrc = new_letters vowels wd mrc.
Proof.
  intros Hw. unfold count_new_vowels, new_letters.
  rewrite (fold_left_pointwise _
             (fun (st : Z * list Z) i =>
                let '(count, seen) := st in
                let c := char_at wd i in
                if is_vowel c then
                  if (CArray.get seen (letter_index c) =? 0)
                     && (CArray.get mrc (letter_index c) =? 0)
                  then (if true then count + 1 else count,
                        CArray.set seen (letter_index c) 1)
                  else st
                else st)).
  2:{ intros [count seen] i. reflexivity. }
  rewrite (distinct_count vowels is_vowel
             (fun c => CArray.get mrc (letter_index c) =? 0)
             (fun _ => true) wd NoDup_vowels vowels_upper).
  - rewrite Z.add_0_l. f_equal. f_equal. apply filter_ext. intros c.
    unfold occurrences, positions, WORDLE_WORD_LENGTH.
    rewrite get_zeros, positive_count, andb_true_r. reflexivity.
  - intros i Hi. apply is_vowel_in, word_ok_char; assumption.
  - apply length_zeros.
Qed.

Lemma unique_vowels_spec wd :
  word_ok wd = true ->
  count_unique_vowels_simple wd = new_letters vowels wd (CArray.zeros 26).
Proof.
  intros Hw. unfold count_unique_vowels_simple, new_letters.
  rewrite (fold_left_pointwise _
             (fun (st : Z * list Z) i =>
                let '(count, seen) := st in
                let c := char_at wd i in
                if is_vowel c then
                  if (CArray.get seen (letter_index c) =? 0) && true
                  then (if true then count + 1 else count,
                        CArray.set seen (letter_index c) 1)
                  else st
                else st)).
  2:{ intros [count seen] i. cbv zeta. rewrite andb_true_r. reflexivity. }
  rewrite (distinct_count vowels is_vowel (fun _ => true) (fun _ => true) wd
             NoDup_vowels vowels_upper).
  - rewrite Z.add_0_l. f_equal. f_equal. apply filter_ext. intros c.
    unfold occurrences, positions, WORDLE_WORD_LENGTH.
    rewrite !get_zeros, positive_count, !andb_true_r. reflexivity.
  - intros i Hi. apply is_vowel_in, word_ok_char; assumption.
  - apply length_zeros.
Qed.

Lemma filter_length_le {A} (f g : A -> bool) (l : list A) :
  (forall x, f x = true -> g x = true) ->
  (length (List.filter f l) <= length (List.filter g l))%nat.
Proof.
  intros H. induction l as [|x l IH]; [reflexivity|]. cbn [List.filter].
  destruct (f x) eqn:Hf.
  - rewrite (H x Hf). cbn [length]. lia.
  - destruct (g x); cbn [length]; lia.
Qed.

End ScoreFacts.

(** X27: [calculate_new_letter_coverage] is the number of upper-case
    letters that occur in the word and have no known minimum yet; a
    letter the word repeats is counted once, and characters outside
    'A'..'Z' are not counted. *)
Theorem coverage_counts_each_new_letter_once
    (wd : list ascii) (min_required_counts : list Z) :
  SolverLogic.calculate_new_letter_coverage wd min_required_counts
  = new_letters letters wd min_required_counts.
Proof. apply ScoreFacts.coverage_spec. Qed.

(** X28: the vowel scores on a five-letter upper-case word.
    [count_new_vowels] is the number of the vowels A, E, I, O, U, Y that
    occur in the word and have no known minimum yet,
    [count_unique_vowels_simple] is the number of those vowels that
    occur in the word at all, each counted once, and the first never
    exceeds the second. *)
Theorem vowel_scores_count_distinct_vowels
    (wd : list ascii) (min_required_counts : list Z) :
  word_ok wd = true ->
  SolverLogic.count_new_vowels wd min_required_counts
  = new_letters SolverLogic.vowels wd min_required_counts
  /\ SolverLogic.count_unique_vowels_simple wd
     = new_letters SolverLogic.vowels wd (CArray.zeros 26)
  /\ SolverLogic.count_new_vowels wd min_required_counts
     <= SolverLogic.count_unique_vowels_simple wd.
Proof.
  intros Hw.
  rewrite (ScoreFacts.new_vowels_spec wd _ Hw),
    (ScoreFacts.unique_vowels_spec wd Hw).
  split; [reflexivity|]. split; [reflexivity|].
  unfold new_letters. apply inj_le. apply ScoreFacts.filter_length_le.
  intros c H. apply andb_true_iff in H as [H _].
  rewrite H, CArrayFacts.get_zeros. reflexivity.
Qed.

Lemma vowel_scores_count_distinct_vowels_witness :
  SolverLogic.count_new_vowels (word_of "AUDIO") (CArray.zeros 26)
  = new_letters SolverLogic.vowels (word_of "AUDIO") (CArray.zeros 26)
  /\ SolverLogic.count_unique_vowels_simple (word_of "AUDIO")
     = new_letters SolverLogic.vowels (word_of "AUDIO") (CArray.zeros 26)
  /\ SolverLogic.count_new_vowels (word_of "AUDIO") (CArray.zeros 26)
     <= SolverLogic.count_unique_vowels_simple (word_of "AUDIO").
Proof.
  apply (vowel_scores_count_distinct_vowels (word_of "AUDIO")
           (CArray.zeros 26)).
  reflexivity.
Defined.
